(** * CTRWfractal: percolation clusters and random walks on periodic lattices

    A shallow embedding of the simulation engine [CTRWfractal<T1, T2>]
    (instantiated by [CTRWwrapper] at [T1 = int32_t]) together with the
    properties of its documented behaviour.

    Conventions of the embedding:
    - fixed-width integers are [Z] with the wrap-around of every C++
      conversion written out ([u32], [u64], [i32]);
    - [double] is IEEE binary64 as given by [SpecFloat] (53-bit mantissa);
    - Armadillo vectors are lists, an out-of-range element access is the
      failure [None] of the option monad;
    - the random generator is an abstract state with the draws the code
      makes on it;
    - what a run reads without having set it is an argument of the run:
      the entropy of [std::random_device], the content of members and
      vectors before their first write, and the order in which the
      workers of a parallel loop take their items. *)

From Stdlib Require Import ZArith Lia Floats.SpecFloat.
From stdpp Require Import base tactics option list numbers relations.

Local Open Scope Z_scope.

(** ** Fixed-width integers *)

Module MachineInt.

(** [uint32_t]: arithmetic modulo 2^32. *)
Definition u32 (z : Z) : Z := z mod 2 ^ 32.

(** [size_t] / [uint64_t]: arithmetic modulo 2^64. *)
Definition u64 (z : Z) : Z := z mod 2 ^ 64.

(** Conversion to [int32_t] (two's complement). *)
Definition i32 (z : Z) : Z := (z + 2 ^ 31) mod 2 ^ 32 - 2 ^ 31.

(** Conversion to [int64_t] (two's complement). *)
Definition i64 (z : Z) : Z := (z + 2 ^ 63) mod 2 ^ 64 - 2 ^ 63.

(** A [size_t] expression stored into an [int32_t] cell. *)
Definition cell (z : Z) : Z := i32 (u64 z).

End MachineInt.
Import MachineInt.

(** ** Vectors *)

(** Element read [v(i)] with Armadillo's bounds check. *)
Definition at_ {A} (v : list A) (i : Z) : option A :=
  if bool_decide (0 <= i) then v !! Z.to_nat i else None.

(** Element write [v(i) = x] with Armadillo's bounds check. *)
Definition set_ {A} (v : list A) (i : Z) (x : A) : option (list A) :=
  if bool_decide (0 <= i < Z.of_nat (length v)) then Some (<[Z.to_nat i := x]> v) else None.

(** ** Lattice topology *)

(** [nn(0..3, i)] as [BoundariesSquare] leaves it: the four modular
    entries, then the two row-wrap corrections. *)
Definition square_column (gridSize N i : Z) : list Z :=
  let n0 := cell (u64 (i + 1) mod N) in
  let n1 := cell (u64 (i + N - 1) mod N) in
  let n2 := cell (u64 (i + gridSize) mod N) in
  let n3 := cell (u64 (i + N - gridSize) mod N) in
  let n1 := if bool_decide (i mod gridSize = 0) then cell (i + gridSize - 1) else n1 in
  let n0 := if bool_decide (u64 (i + 1) mod gridSize = 0) then cell (i - gridSize + 1) else n0 in
  [n0; n1; n2; n3].

Definition BoundariesSquare (gridSize N : Z) : list (list Z) :=
  square_column gridSize N <$> seqZ 0 N.

(** [std::pow(-1, i)] for an integral exponent. *)
Definition pow_m1 (i : Z) : Z := if Z.even i then 1 else -1.

(** [firstRow(i - 1)] and [lastRow(i - 1)] of [Initialize].  Every term of
    the two [double] expressions is a multiple of 1/2 far below 2^53, so
    the arithmetic is exact; the entries are written here with the common
    factor 1/2 taken out and the truncation to [int32_t] last. *)
Definition firstRow_entry (gridSize i : Z) : Z :=
  i32 (Z.quot (2 * 1 - u32 (3 * gridSize) + pow_m1 i * gridSize
               + 2 * u64 (2 * i * gridSize) - 2 * 1) 2).

Definition lastRow_entry (gridSize i : Z) : Z :=
  i32 (Z.quot (gridSize * (u64 (4 * i) + pow_m1 (i + 1) - 1) - 2 * 1) 2).

Definition firstRow (gridSize : Z) : list Z :=
  firstRow_entry gridSize <$> seqZ 1 (u32 (2 * gridSize)).

Definition lastRow (gridSize : Z) : list Z :=
  lastRow_entry gridSize <$> seqZ 1 (u32 (2 * gridSize)).

(** [arma::any(v == i)] for an [int32_t] vector and a [size_t] index. *)
Definition any_eq (v : list Z) (i : Z) : bool :=
  existsb (Z.eqb (i32 i)) v.

(** The three entries [BoundariesHoneycomb] writes for site [i] while its
    column counter holds [currentCol]. *)
Definition honeycomb_column (gridSize N : Z) (fr lr : list Z) (currentCol i : Z) : list Z :=
  let g := gridSize in
  if bool_decide (i = 0) then
    [cell (i + g); cell (i + u32 (2 * g) - 1); cell (i + N - g)]
  else if bool_decide (i = u32 (N - g)) then
    [cell (i - 1); cell (i - g); cell (i - N + g)]
  else if bool_decide (i = u32 (N - g - 1)) then
    [cell (i - g); cell (i + g); cell (i + 1)]
  else if bool_decide (i < g) then
    [cell (i + g - 1); cell (i + g); cell (i + N - g)]
  else if bool_decide (i > u32 (N - g)) then
    [cell (i - g - 1); cell (i - g); cell (i - N + g)]
  else
    match currentCol with
    | 0 => if any_eq fr i
           then [cell (i - g); cell (i + g); cell (i + u32 (2 * g) - 1)]
           else [cell (i - g); cell (i + g - 1); cell (i + g)]
    | 1 => if any_eq lr i
           then [cell (i - g); cell (i + g); cell (i - u32 (2 * g) + 1)]
           else [cell (i - g); cell (i - g + 1); cell (i + g)]
    | 2 => if any_eq lr i
           then [cell (i - g); cell (i + g); cell (i + 1)]
           else [cell (i - g); cell (i + g); cell (i + g + 1)]
    | _ => if any_eq fr i
           then [cell (i - 1); cell (i - g); cell (i + g)]
           else [cell (i - g - 1); cell (i - g); cell (i + g)]
    end.

(** The loop of [BoundariesHoneycomb] over the sites [is], threading the
    column counter [count] ([currentCol = count % 4]). *)
Fixpoint honeycomb_loop (gridSize N : Z) (fr lr : list Z)
    (count : Z) (sites : list Z) : list (list Z) :=
  match sites with
  | [] => []
  | i :: rest =>
      let col := honeycomb_column gridSize N fr lr (count mod 4) i in
      let count' := if bool_decide (u64 (i + 1) mod gridSize = 0) then u64 (count + 1) else count in
      col :: honeycomb_loop gridSize N fr lr count' rest
  end.

Definition BoundariesHoneycomb (gridSize N : Z) : list (list Z) :=
  honeycomb_loop gridSize N (firstRow gridSize) (lastRow gridSize) 0 (seqZ 0 N).

(** The lattice part of [Initialize]: site count, neighbours per site and
    neighbour table ([latticeMode] 1 is honeycomb, 0 is square; any other
    mode leaves all three unset). *)
Record topology := Topology {
  topo_N : Z;
  topo_neighbourCount : Z;
  topo_nn : list (list Z)
}.

Definition Initialize_topology (gridSize latticeMode : Z) : topology :=
  if bool_decide (latticeMode = 1) then
    let N := u32 (u32 (gridSize * gridSize) * 4) in
    Topology N 3 (BoundariesHoneycomb gridSize N)
  else if bool_decide (latticeMode = 0) then
    let N := u32 (gridSize * gridSize) in
    Topology N 4 (BoundariesSquare gridSize N)
  else Topology 0 0 [].

(** [nn(k, i)] *)
Definition nn_at (nn : list (list Z)) (k i : Z) : option Z :=
  col ← at_ nn i; at_ col k.

(** The neighbour table property: every site has [k] in-range entries and
    adjacency is symmetric. *)
Definition periodic_table (N k : Z) (nn : list (list Z)) : Prop :=
  Z.of_nat (length nn) = N /\
  forall a, 0 <= a < N ->
    exists col, at_ nn a = Some col /\
      Z.of_nat (length col) = k /\
      forall b, b ∈ col ->
        0 <= b < N /\ exists col', at_ nn b = Some col' /\ a ∈ col'.

(** Closed form of the honeycomb adjacency: the neighbours of the site in
    column [c] (of [4 * g]) and row [r] (of [g]) as (column, row) pairs.
    Used only to state and prove properties of [BoundariesHoneycomb]. *)
Definition honeycomb_cr (g c r : Z) : list (Z * Z) :=
  let next := if bool_decide (c = 4 * g - 1) then 0 else c + 1 in
  let prev := if bool_decide (c = 0) then 4 * g - 1 else c - 1 in
  let rup := if bool_decide (r = g - 1) then 0 else r + 1 in
  let rdn := if bool_decide (r = 0) then g - 1 else r - 1 in
  if bool_decide (c mod 4 = 0) then [(prev, r); (next, r); (next, rdn)]
  else if bool_decide (c mod 4 = 1) then [(prev, r); (next, r); (prev, rup)]
  else if bool_decide (c mod 4 = 2) then [(prev, r); (next, r); (next, rup)]
  else [(prev, r); (next, r); (prev, rdn)].

(** Site index of a (column, row) pair: columns are stored one after the
    other, [g] sites each. *)
Definition site_of (g : Z) (cr : Z * Z) : Z := cr.1 * g + cr.2.

(** ** Doubles *)

Module Double.

(** IEEE 754 binary64. *)
Definition prec : Z := 53.
Definition emax : Z := 1024.

Definition add : spec_float -> spec_float -> spec_float := SFadd prec emax.
Definition sub : spec_float -> spec_float -> spec_float := SFsub prec emax.
Definition mul : spec_float -> spec_float -> spec_float := SFmul prec emax.
Definition div : spec_float -> spec_float -> spec_float := SFdiv prec emax.

(** Conversion of an integer to [double] (round to nearest, ties to even). *)
Definition of_Z (z : Z) : spec_float := binary_normalize prec emax z 0 false.

Definition zero : spec_float := S754_zero false.

(** [arma_isfinite] / [std::isfinite]. *)
Definition is_finite (x : spec_float) : bool :=
  match x with
  | S754_zero _ | S754_finite _ _ _ => true
  | S754_infinity _ | S754_nan => false
  end.

(** A finite value as the fraction [num / den], [den > 0]. *)
Definition num (x : spec_float) : Z :=
  match x with
  | S754_finite s m e => (if s then -1 else 1) * (Zpos m * 2 ^ Z.max e 0)
  | _ => 0
  end.

Definition den (x : spec_float) : Z :=
  match x with
  | S754_finite _ _ e => 2 ^ Z.max (- e) 0
  | _ => 1
  end.

(** The IEEE order: the order of the values, infinities at both ends, NaN
    unordered. *)
Definition compare (x y : spec_float) : option comparison :=
  match x, y with
  | S754_nan, _ | _, S754_nan => None
  | S754_infinity s1, S754_infinity s2 =>
      Some (if s1 then (if s2 then Eq else Lt) else (if s2 then Gt else Eq))
  | S754_infinity s, _ => Some (if s then Lt else Gt)
  | _, S754_infinity s => Some (if s then Gt else Lt)
  | _, _ => Some (Z.compare (num x * den y) (num y * den x))
  end.

(** [x < y], [x > y], [x >= y]: false as soon as one side is NaN. *)
Definition lt (x y : spec_float) : bool :=
  match compare x y with Some Lt => true | _ => false end.

Definition gt (x y : spec_float) : bool := lt y x.

Definition ge (x y : spec_float) : bool :=
  match compare x y with Some (Gt | Eq) => true | _ => false end.

(** Conversion of a [double] to an integer type: the fraction is dropped
    (truncation toward zero); the caller wraps to the target width. *)
Definition trunc (x : spec_float) : Z :=
  Z.quot (num x) (den x).

(** The least integer not below [x], and the greatest not above. *)
Definition ceil (x : spec_float) : Z := - ((- num x) / den x).
Definition floor (x : spec_float) : Z := num x / den x.

(** The literals of the source. *)
Definition permConstant : spec_float := S754_finite false 9007199113388757 (-85).
Definition sqrt3 : spec_float := S754_finite false 7800463371553962 (-52).
Definition sqrt3o2 : spec_float := S754_finite false 7800463371553962 (-53).
Definition half : spec_float := S754_finite false 4503599627370496 (-53).
Definition quarter : spec_float := S754_finite false 4503599627370496 (-54).

End Double.

(** ** The option monad over loops *)

(** A [for] loop over the values [l] whose body may fail. *)
Fixpoint for_each {S A : Type} (body : S -> A -> option S) (l : list A) (s : S) : option S :=
  match l with
  | [] => Some s
  | x :: l' => s' ← body s x; for_each body l' s'
  end.

(** ** Percolation *)

(** [EMPTY = (-N - 1)]: [N] is a [uint32_t], so the negation and the
    subtraction are done modulo 2^32, and the non-negative result is then
    widened to the [int64_t] member [EMPTY]. *)
Definition EMPTY_of (N : Z) : Z := i64 (u32 (u32 (- N) - 1)).

(** The sentinel as the older engine has it, with [N] and [EMPTY] both
    [int]: the plain [-N - 1]. *)
Definition EMPTY_signed (N : Z) : Z := i32 (- N - 1).

(** [FindRoot(i)]: follows the parent indices up to a root (a negative
    cell) and, on the way back, makes every visited cell point to it.  The
    recursion of the source is bounded here by [fuel] calls; a chain that
    needs more calls than there are cells visits a cell twice and never
    ends, so [S (length lattice)] calls lose nothing. *)
Fixpoint FindRoot (fuel : nat) (lattice : list Z) (i : Z) : option (Z * list Z) :=
  match fuel with
  | O => None
  | S fuel' =>
      v ← at_ lattice i;
      if bool_decide (v < 0) then Some (i, lattice)
      else
        '(r, lattice') ← FindRoot fuel' lattice v;
        lattice'' ← set_ lattice' i (i32 r);
        Some (i32 r, lattice'')
  end.

(** The union of the clusters rooted at [r1] and [r2] in [Percolate];
    returns the lattice and the new [r1]. *)
Definition union_roots (lattice : list Z) (r1 r2 : Z) : option (list Z * Z) :=
  v1 ← at_ lattice r1;
  v2 ← at_ lattice r2;
  if bool_decide (v1 > v2) then
    lattice ← set_ lattice r2 (i32 (v2 + v1));
    lattice ← set_ lattice r1 (i32 r2);
    Some (lattice, r2)
  else
    lattice ← set_ lattice r1 (i32 (v1 + v2));
    lattice ← set_ lattice r2 (i32 r1);
    Some (lattice, r1).

(** State of the neighbour loop: the lattice, the current root [r1] of the
    new site and the largest cluster size seen, [big]. *)
Definition visit_neighbour (EMPTY : Z) (nn : list (list Z)) (s1 : Z)
    (st : list Z * Z * Z) (j : Z) : option (list Z * Z * Z) :=
  let '(lattice, r1, big) := st in
  s2 ← nn_at nn j s1;
  v2 ← at_ lattice s2;
  if bool_decide (v2 ≠ EMPTY) then
    '(r2, lattice) ← FindRoot (S (length lattice)) lattice s2;
    if bool_decide (r2 ≠ r1) then
      '(lattice, r1) ← union_roots lattice r1 r2;
      v ← at_ lattice r1;
      Some (lattice, r1, if bool_decide (- v > big) then i32 (- v) else big)
    else Some (lattice, r1, big)
  else Some (lattice, r1, big).

(** One round of the outer loop of [Percolate]: site [s1] becomes a
    cluster of its own and is merged with its neighbours. *)
Definition occupy_site (EMPTY : Z) (nn : list (list Z)) (neighbourCount : Z)
    (st : list Z * Z) (s1 : Z) : option (list Z * Z) :=
  let '(lattice, big) := st in
  lattice ← set_ lattice s1 (-1);
  '(lattice, _, big) ← for_each (visit_neighbour EMPTY nn s1)
                          (seqZ 0 neighbourCount) (lattice, s1, big);
  Some (lattice, big).

(** The loop bound [(threshold * N) - 1] of [Percolate], a [double]. *)
Definition percolate_bound (threshold : spec_float) (N : Z) : spec_float :=
  Double.sub (Double.mul threshold (Double.of_Z N)) (Double.of_Z 1).

(** [for (uint32_t i = 0; i < (threshold * N) - 1; i++)].  Every round
    reads [occupation[i]], so the loop makes at most [length occupation]
    rounds before that read fails: [S (length occupation)] for [fuel] loses
    nothing. *)
Fixpoint percolate_loop (fuel : nat) (EMPTY : Z) (nn : list (list Z)) (neighbourCount : Z)
    (occupation : list Z) (bound : spec_float) (i : Z) (st : list Z * Z)
    : option (list Z * Z) :=
  match fuel with
  | O => None
  | S fuel' =>
      if Double.lt (Double.of_Z i) bound then
        s1 ← at_ occupation i;
        st' ← occupy_site EMPTY nn neighbourCount st s1;
        percolate_loop fuel' EMPTY nn neighbourCount occupation bound (u32 (i + 1)) st'
      else Some st
  end.

(** The lattice after the first loop of [Percolate]: every cell holds
    [EMPTY], converted to the cell type [int32_t]. *)
Definition empty_lattice (EMPTY N : Z) : list Z :=
  replicate (Z.to_nat N) (i32 EMPTY).

(** [Percolate] for a given sentinel; returns the lattice. *)
Definition Percolate_with (EMPTY : Z) (N : Z) (nn : list (list Z)) (neighbourCount : Z)
    (occupation : list Z) (threshold : spec_float) : option (list Z) :=
  fst <$> percolate_loop (S (length occupation)) EMPTY nn neighbourCount occupation
            (percolate_bound threshold N) 0 (empty_lattice EMPTY N, 0).

(** [Percolate] of the engine. *)
Definition Percolate (N : Z) (nn : list (list Z)) (neighbourCount : Z)
    (occupation : list Z) (threshold : spec_float) : option (list Z) :=
  Percolate_with (EMPTY_of N) N nn neighbourCount occupation threshold.

(** The number of rounds [for (uint32_t i = 0; i < bound; i++)] makes: the
    number of integers [i >= 0] below [bound].  A bound of +infinity is
    never reached by the 32-bit counter; 2^32 stands for that. *)
Definition percolate_rounds (bound : spec_float) : Z :=
  match bound with
  | S754_infinity false => 2 ^ 32
  | _ => Z.max 0 (Double.ceil bound)
  end.

(** The number of occupied sites in the words of the specification:
    [floor(threshold * N) - 1]. *)
Definition rounds_as_specified (threshold : spec_float) (N : Z) : Z :=
  Double.floor (Double.mul threshold (Double.of_Z N)) - 1.

(** The tie-break of the union in the words of the specification: when
    both clusters have the same size, the first root is attached under the
    second. *)
Definition tie_rule_as_specified (lattice : list Z) (r1 r2 : Z) : Prop :=
  forall v, at_ lattice r1 = Some v -> at_ lattice r2 = Some v -> v < 0 -> r1 <> r2 ->
    exists lattice' r, union_roots lattice r1 r2 = Some (lattice', r) /\
                       at_ lattice' r1 = Some r2.

(** The literal [0.6]. *)
Definition threshold_0_6 : spec_float := S754_finite false 5404319552844595 (-53).

(** ** The random generator *)

(** The generator [pcg64], the entropy source [std::random_device] and the
    distributions of [<random>] belong to libraries outside the
    repository.  They enter the model as an interface: a type of generator
    states, the two ways [SeedRNG] builds one, and for every distribution
    the value drawn together with the state the draw leaves behind. *)
Class Generator := {
  rng : Type;
  (** [pcg64(seed)] *)
  pcg64_of_seed : Z -> rng;
  (** [pcg64(seedSource)], seeded from the words of [std::random_device] *)
  pcg64_of_device : list Z -> rng;
  (** [std::uniform_int_distribution<T>(a, b)(RNG)]: a value of [a..b] *)
  uniform_int : Z -> Z -> rng -> Z * rng;
  uniform_int_range : forall a b g, a <= b -> a <= (uniform_int a b g).1 <= b;
  (** [std::exponential_distribution<T2>(lambda)(RNG)] *)
  exponential : spec_float -> rng -> spec_float * rng;
  (** [n] successive draws of one [std::normal_distribution<T2>(mean, sd)] *)
  normal_draws : spec_float -> spec_float -> nat -> rng -> list spec_float * rng;
  (** [std::exp] *)
  exp_double : spec_float -> spec_float
}.

(** A small linear congruential generator with inverse-free stand-ins for
    the distributions, to run the model on concrete inputs. *)
Definition lcg_next (s : Z) : Z :=
  Z.land (6364136223846793005 * s + 1442695040888963407) 18446744073709551615.

Program Definition lcg_generator : Generator := {|
  rng := Z;
  pcg64_of_seed := fun seed => Z.land seed 18446744073709551615;
  pcg64_of_device := fun words => Z.land (foldr Z.add 0 words) 18446744073709551615;
  uniform_int := fun a b s =>
    let s' := lcg_next s in (a + (Z.shiftr s' 33) mod (b - a + 1), s');
  exponential := fun lambda s =>
    let s' := lcg_next s in (Double.div (Double.of_Z (1 + Z.shiftr s' 60)) lambda, s');
  normal_draws := fun mean sd n s =>
    foldr (fun _ '(l, s) => let s' := lcg_next s in
                            (Double.add mean (Double.mul sd (Double.of_Z (Z.shiftr s' 62 - 2))) :: l, s'))
          ([], s) (replicate n tt);
  exp_double := fun x => Double.add (Double.of_Z 1) x
|}.
Next Obligation.
  intros a b g Hab. cbn.
  pose proof (Z.mod_pos_bound (Z.shiftr (lcg_next g) 33) (b - a + 1) ltac:(lia)). lia.
Qed.

(** ** Configuration *)

(** The constructor parameters of [CTRWfractal]. *)
Record config := Config {
  gridSize : Z;          (* uint32_t *)
  nWalks : Z;            (* uint32_t *)
  walkLength : Z;        (* uint32_t *)
  threshold : spec_float;
  beta : spec_float;
  tau0 : spec_float;
  noise : spec_float;
  latticeMode : Z;       (* uint8_t *)
  walkMode : Z;          (* uint8_t *)
  nJobs : Z              (* int32_t *)
}.

(** [simLength = (tau0 < 1.) ? static_cast<uint32_t>(walkLength / tau0) : walkLength] *)
Definition simLength (c : config) : Z :=
  if Double.lt (tau0 c) (Double.of_Z 1)
  then u32 (Double.trunc (Double.div (Double.of_Z (walkLength c)) (tau0 c)))
  else walkLength c.

Section Engine.
Context {G : Generator}.

(** [SeedRNG]: a negative seed asks the system for entropy ([device] is
    what [std::random_device] yields), any other seed is used as it is. *)
Definition SeedRNG (seed : Z) (device : list Z) : rng :=
  if bool_decide (seed < 0) then pcg64_of_device device else pcg64_of_seed seed.

(** ** Occupation order *)

(** The index [j = i + (N - i) * permConstant * u] of [Permutation],
    evaluated in [double] and truncated to the [int32_t] variable [j]. *)
Definition perm_index (N i u : Z) : Z :=
  i32 (Double.trunc
         (Double.add (Double.of_Z i)
            (Double.mul (Double.mul (Double.of_Z (u64 (N - i))) Double.permConstant)
                        (Double.of_Z u)))).

(** One round of the shuffle: draw, then swap [occupation(i)] and
    [occupation(j)]. *)
Definition permutation_step (N : Z) (st : list Z * rng) (i : Z) : option (list Z * rng) :=
  let '(occupation, g) := st in
  let '(u, g) := uniform_int 0 4294967294 g in
  let j := perm_index N i u in
  t_ ← at_ occupation i;
  oj ← at_ occupation j;
  occupation ← set_ occupation i oj;
  occupation ← set_ occupation j t_;
  Some (occupation, g).

Definition Permutation (N : Z) (g : rng) : option (list Z * rng) :=
  for_each (permutation_step N) (seqZ 0 N) (cell <$> seqZ 0 N, g).

(** ** Lattice coordinates *)

(** A column of [latticeCoords]: x, y and the cluster tag. *)
Definition coords := (spec_float * spec_float * spec_float)%type.

(** What the storage of the object holds where the code has not written
    yet: the members [N] and [neighbourCount], which [Initialize] sets for
    the two supported lattice modes only, and the cells of the arrays that
    [set_size] or a sized constructor allocates without filling them
    ([latticeCoords], [walks], [boundaryDetect], [trueWalks]). *)
Record storage := Storage {
  unset_N : Z;                        (* uint32_t *)
  unset_neighbourCount : Z;           (* uint8_t *)
  unset_latticeCoords : Z -> coords;
  unset_walks : Z -> Z;
  unset_boundaryDetect : Z -> Z;
  unset_trueWalks : Z -> Z
}.

(** An array of [n] cells as it is allocated, cell [i] holding
    [content i]. *)
Definition unset_cells {A} (content : Z -> A) (n : Z) : list A := content <$> seqZ 0 n.

(** [(lattice(count) == EMPTY) ? 0 : lattice(count)], stored as a [double]. *)
Definition cluster_tag (EMPTY : Z) (lattice : list Z) (count : Z) : option spec_float :=
  v ← at_ lattice count;
  Some (Double.of_Z (if bool_decide (v = EMPTY) then 0 else v)).

(** [arma::max] along one row. *)
Definition row_max (row : list spec_float) : spec_float :=
  foldl (fun m x => if Double.gt x m then x else m) (S754_infinity true) row.

(** [unitCell = arma::max(latticeCoords, 1)] followed by the two
    increments; the third component plays no role later. *)
Definition unit_cell (latticeCoords : list coords) (dx dy : spec_float)
    : option (spec_float * spec_float) :=
  if bool_decide (latticeCoords = []) then None
  else Some (Double.add (row_max (fst ∘ fst <$> latticeCoords)) dx,
             Double.add (row_max (snd ∘ fst <$> latticeCoords)) dy).

(** The square branch of [BuildLattice], one site per round. *)
Definition square_site (EMPTY : Z) (lattice : list Z) (gridSize : Z)
    (st : list coords * Z) (ij : Z * Z) : option (list coords * Z) :=
  let '(latticeCoords, count) := st in
  tag ← cluster_tag EMPTY lattice count;
  latticeCoords ← set_ latticeCoords count (Double.of_Z ij.1, Double.of_Z ij.2, tag);
  Some (latticeCoords, u32 (count + 1)).

(** The point of the honeycomb branch for column [i], row [j]. *)
Definition honeycomb_point (i j : Z) : spec_float * spec_float :=
  let x0 := Double.mul (Double.mul Double.quarter (Double.of_Z i)) (Double.of_Z 3) in
  let yj := Double.mul (Double.of_Z j) Double.sqrt3 in
  match u32 (i mod 4) with
  | 1 => (Double.add x0 Double.half, yj)
  | 2 => (Double.add x0 (S754_finite false 6755399441055744 (-52)), yj)
  | 3 => (Double.add x0 (Double.of_Z 2), Double.add yj Double.sqrt3o2)
  | _ => (x0, Double.add yj Double.sqrt3o2)
  end.

(** The inner loop [for (size_t j = gridSize - 1; j >= 0; j--)] of the
    honeycomb branch.  Its test compares an unsigned [j] with zero; every
    round writes one more column of [latticeCoords], so
    [S (length latticeCoords)] rounds of [fuel] lose nothing. *)
Fixpoint honeycomb_rows (fuel : nat) (EMPTY : Z) (lattice : list Z) (i j : Z)
    (st : list coords * Z) : option (list coords * Z) :=
  match fuel with
  | O => None
  | S fuel' =>
      if bool_decide (0 <= j) then
        let '(latticeCoords, count) := st in
        tag ← cluster_tag EMPTY lattice count;
        let '(xx, yy) := honeycomb_point i j in
        latticeCoords ← set_ latticeCoords count (xx, yy, tag);
        honeycomb_rows fuel' EMPTY lattice i (u64 (j - 1)) (latticeCoords, u32 (count + 1))
      else Some st
  end.

(** [BuildLattice]: the coordinates of all sites and the unit cell.
    [latticeCoords] comes in as [Initialize] allocated it.  For a
    [latticeMode] other than 0 and 1 neither branch runs: the columns stay
    as they were and [unitCell] stays the empty vector ([None]). *)
Definition BuildLattice (EMPTY gridSize latticeMode : Z) (lattice : list Z)
    (latticeCoords : list coords)
    : option (list coords * option (spec_float * spec_float)) :=
  if bool_decide (latticeMode = 1) then
    '(latticeCoords, _) ←
      for_each (fun st i => honeycomb_rows (S (length latticeCoords)) EMPTY lattice i
                              (u32 (gridSize - 1)) st)
               (seqZ 0 (u32 (4 * gridSize))) (latticeCoords, 0);
    uc ← unit_cell latticeCoords (S754_finite false 6755399441055744 (-52)) Double.sqrt3o2;
    Some (latticeCoords, Some uc)
  else if bool_decide (latticeMode = 0) then
    '(latticeCoords, _) ←
      for_each (square_site EMPTY lattice gridSize)
               (i ← seqZ 0 gridSize; j ← seqZ 0 gridSize; [(i, j)]) (latticeCoords, 0);
    uc ← unit_cell latticeCoords (Double.of_Z 1) (Double.of_Z 1);
    Some (latticeCoords, Some uc)
  else Some (latticeCoords, None).

(** ** Random walks *)

(** [GetOccupiedNeighbours(pos)]: the neighbours of [pos] whose cell is
    not equal to [EMPTY]. *)
Fixpoint occupied_among (EMPTY : Z) (lattice : list Z) (neighbours : list Z)
    : option (list Z) :=
  match neighbours with
  | [] => Some []
  | n :: rest =>
      v ← at_ lattice n;
      occupied ← occupied_among EMPTY lattice rest;
      Some (if bool_decide (v = EMPTY) then occupied else n :: occupied)
  end.

Definition GetOccupiedNeighbours (EMPTY : Z) (nn : list (list Z)) (lattice : list Z)
    (pos : Z) : option (list Z) :=
  neighbours ← at_ nn pos;
  occupied_among EMPTY lattice neighbours.

(** [arma::find(v <rel> x)]: the indices of the cells that satisfy [p]. *)
Definition find_cells (p : Z -> bool) (v : list Z) : list Z :=
  fst <$> filter (fun ic => p ic.2 = true) (zip (seqZ 0 (Z.of_nat (length v))) v).

(** [.min()] of a vector; Armadillo rejects the empty one. *)
Definition vec_min (v : list Z) : option Z :=
  match v with
  | [] => None
  | x :: rest => Some (foldl Z.min x rest)
  end.

(** The pool [latticeOnes] of candidate start sites.  The relational
    operators of Armadillo take the scalar at the element type, so [EMPTY]
    and the index [idxMin(0)] are first converted to [int32_t]. *)
Definition start_pool (EMPTY walkMode : Z) (lattice : list Z) : option (list Z) :=
  if bool_decide (walkMode = 1) then
    latticeMin ← vec_min (filter (fun v => v > i32 EMPTY) lattice);
    idxMin0 ← at_ (find_cells (fun v => bool_decide (v = latticeMin)) lattice) 0;
    let largestCluster := find_cells (fun v => bool_decide (v = i32 idxMin0)) lattice in
    Some (i32 <$> (largestCluster ++ [idxMin0]))
  else
    Some (i32 <$> find_cells (fun v => bool_decide (v ≠ i32 EMPTY)) lattice).

(** [countMax = std::min(std::max(N, lowerBound), upperBound)] *)
Definition countMax (N : Z) : Z := Z.min (Z.max N 100000) 100000000.

(** The [do ... while (!okStart)] search for a start position.  The loop
    leaves at the latest when [countLoop] has reached [countMax], so
    [S (Z.to_nat countMax)] rounds of [fuel] lose nothing.  Returns the
    last sampled position, [countLoop] and the generator. *)
Fixpoint find_start (fuel : nat) (EMPTY : Z) (nn : list (list Z)) (lattice latticeOnes : list Z)
    (cmax countLoop : Z) (g : rng) : option (Z * Z * rng) :=
  match fuel with
  | O => None
  | S fuel' =>
      let '(k, g) := uniform_int 0 (i32 (u32 (u32 (Z.of_nat (length latticeOnes)) - 1))) g in
      pos ← at_ latticeOnes k;
      neighbours ← GetOccupiedNeighbours EMPTY nn lattice pos;
      if bool_decide (0 < Z.of_nat (length neighbours)) || bool_decide (countLoop >= cmax)
      then Some (pos, countLoop, g)
      else find_start fuel' EMPTY nn lattice latticeOnes cmax (u32 (countLoop + 1)) g
  end.

(** The classification of the step from [prev] to [pos] as a crossing of
    the periodic boundary (1 top, 2 bottom, 3 right, 4 left, 0 none). *)
Definition boundary_flag (fr lr : list Z) (boundary1 boundary2 prev pos : Z) : Z :=
  if any_eq fr prev && any_eq lr pos then 1
  else if any_eq lr prev && any_eq fr pos then 2
  else if bool_decide (prev >= boundary2) && bool_decide (pos < boundary1) then 3
  else if bool_decide (prev < boundary1) && bool_decide (pos >= boundary2) then 4
  else 0.

(** One step of the lattice walk: state is the position, the vectors
    [walks] and [boundaryDetect], and the generator. *)
Definition walk_step (EMPTY : Z) (nn : list (list Z)) (lattice fr lr : list Z)
    (boundary1 boundary2 : Z) (st : Z * list Z * list Z * rng) (j : Z)
    : option (Z * list Z * list Z * rng) :=
  let '(pos, walks, boundaryDetect, g) := st in
  neighbours ← GetOccupiedNeighbours EMPTY nn lattice pos;
  let '(k, g) := uniform_int 0 (i32 (u32 (u32 (Z.of_nat (length neighbours)) - 1))) g in
  pos ← at_ neighbours k;
  walks ← set_ walks j (i32 pos);
  prev ← at_ walks (j - 1);
  boundaryDetect ← set_ boundaryDetect j (boundary_flag fr lr boundary1 boundary2 prev pos);
  Some (pos, walks, boundaryDetect, g).

(** The vectors [walks] and [boundaryDetect] of one walk, from the result
    of the start search.  Both vectors come in as the constructor or the
    walk before left them.  At the cap [walks] is assigned the vector
    [pos * ones(simLength)] and [boundaryDetect.zeros()] clears the cells
    that vector has. *)
Definition lattice_walk (EMPTY : Z) (nn : list (list Z)) (lattice fr lr : list Z)
    (boundary1 boundary2 simLen cmax : Z) (walks boundaryDetect : list Z)
    (start : Z * Z * rng) : option (list Z * list Z * rng) :=
  let '(pos, countLoop, g) := start in
  if bool_decide (countLoop = cmax) then
    Some (replicate (Z.to_nat simLen) (i32 pos), replicate (length boundaryDetect) 0, g)
  else
    walks ← set_ walks 0 (i32 pos);
    boundaryDetect ← set_ boundaryDetect 0 0;
    '(_, walks, boundaryDetect, g) ←
      for_each (walk_step EMPTY nn lattice fr lr boundary1 boundary2)
               (seqZ 1 (simLen - 1)) (pos, walks, boundaryDetect, g);
    Some (walks, boundaryDetect, g).

(** [n] draws of the exponential distribution, in order. *)
Fixpoint exponential_draws (lambda : spec_float) (n : nat) (g : rng) : list spec_float * rng :=
  match n with
  | O => ([], g)
  | S n' => let '(x, g) := exponential lambda g in
            let '(xs, g) := exponential_draws lambda n' g in (x :: xs, g)
  end.

(** [arma::cumsum] *)
Fixpoint cumsum (acc : spec_float) (v : list spec_float) : list spec_float :=
  match v with
  | [] => []
  | x :: rest => let acc' := Double.add acc x in acc' :: cumsum acc' rest
  end.

(** [arma::linspace(start, end, num)] *)
Definition linspace (a b : spec_float) (num : Z) : list spec_float :=
  if bool_decide (2 <= num) then
    let delta := Double.div (Double.sub b a) (Double.of_Z (num - 1)) in
    ((fun i => Double.add a (Double.mul (Double.of_Z i) delta)) <$> seqZ 0 (num - 1)) ++ [b]
  else if bool_decide (num = 1) then [b] else [].

(** The index of the first cell that satisfies [p]. *)
Fixpoint find_first {A} (p : A -> bool) (i : Z) (v : list A) : option Z :=
  match v with
  | [] => None
  | x :: rest => if p x then Some i else find_first p (i + 1) rest
  end.

(** The clock [ctrwTimes] of one walk, cut after its first value that
    reaches [walkLength], that value replaced by [walkLength]. *)
Definition ctrw_times (c : config) (g : rng) : option (list spec_float * rng) :=
  let simLen := simLength c in
  let '(times, g) :=
    if Double.gt (beta c) Double.zero then
      let '(draws, g) := exponential_draws (beta c) (Z.to_nat simLen) g in
      (cumsum Double.zero ((fun x => Double.mul (tau0 c) (exp_double x)) <$> draws), g)
    else (linspace (Double.of_Z 1) (Double.of_Z simLen) simLen, g) in
  let wl := Double.of_Z (walkLength c) in
  boundaryTime ← find_first (fun x => Double.ge x wl) 0 times;
  times ← set_ (take (Z.to_nat (boundaryTime + 1)) times) boundaryTime wl;
  Some (times, g).

(** The subordination loop: state is [counter], [boundaryTrue],
    [trueWalks]. *)
Definition subordinate_step (walks boundaryDetect : list Z) (times : list spec_float)
    (st : Z * list Z * list Z) (j : Z) : option (Z * list Z * list Z) :=
  let '(counter, boundaryTrue, trueWalks) := st in
  t ← at_ times counter;
  '(counter, boundaryTrue) ←
    (if Double.gt (Double.of_Z j) t then
       b ← at_ boundaryDetect (u32 (counter + 1));
       boundaryTrue ← set_ boundaryTrue j b;
       Some (u32 (counter + 1), boundaryTrue)
     else Some (counter, boundaryTrue));
  w ← at_ walks counter;
  trueWalks ← set_ trueWalks j w;
  Some (counter, boundaryTrue, trueWalks).

(** The conversion of one tick to coordinates: state is [nxCell],
    [nyCell] and the ticks converted so far. *)
Definition coordinate_step (latticeCoords : list coords)
    (unitCell : option (spec_float * spec_float)) (boundaryTrue trueWalks : list Z)
    (st : Z * Z * list (spec_float * spec_float)) (nstep : Z)
    : option (Z * Z * list (spec_float * spec_float)) :=
  let '(nxCell, nyCell, out) := st in
  b ← at_ boundaryTrue nstep;
  let '(nxCell, nyCell) :=
    match b with
    | 1 => (nxCell, i64 (nyCell + 1))
    | 2 => (nxCell, i64 (nyCell - 1))
    | 3 => (i64 (nxCell + 1), nyCell)
    | 4 => (i64 (nxCell - 1), nyCell)
    | _ => (nxCell, nyCell)
    end in
  site ← at_ trueWalks nstep;
  '(x, y, _) ← at_ latticeCoords site;
  unitCell ← unitCell;
  Some (nxCell, nyCell,
        out ++ [(Double.add x (Double.mul (Double.of_Z nxCell) unitCell.1),
                 Double.add y (Double.mul (Double.of_Z nyCell) unitCell.2))]).

(** What [RandomWalks] reads besides the configuration. *)
Record walk_env := WalkEnv {
  env_EMPTY : Z;
  env_N : Z;
  env_nn : list (list Z);
  env_lattice : list Z;
  env_firstRow : list Z;
  env_lastRow : list Z;
  env_latticeCoords : list coords;
  env_unitCell : option (spec_float * spec_float)
}.

(** The vectors every walk writes again: [walks] and [trueWalks] are
    members of the object, [boundaryDetect] is allocated once at the
    start of [RandomWalks]. *)
Record walk_store := WalkStore {
  st_walks : list Z;
  st_boundaryDetect : list Z;
  st_trueWalks : list Z
}.

(** One walk of [RandomWalks]: its column of [walksCoords], and the three
    vectors as it leaves them. *)
Definition one_walk (c : config) (e : walk_env) (latticeOnes : list Z)
    (st : list (list (spec_float * spec_float)) * walk_store * rng) (i : Z)
    : option (list (list (spec_float * spec_float)) * walk_store * rng) :=
  let '(walksCoords, store, g) := st in
  let cmax := countMax (env_N e) in
  let boundary1 := gridSize c in
  let boundary2 := env_N e - boundary1 in
  start ← find_start (S (Z.to_nat cmax)) (env_EMPTY e) (env_nn e) (env_lattice e)
             latticeOnes cmax 0 g;
  '(walks, boundaryDetect, g) ←
    lattice_walk (env_EMPTY e) (env_nn e) (env_lattice e) (env_firstRow e) (env_lastRow e)
                 boundary1 boundary2 (simLength c) cmax
                 (st_walks store) (st_boundaryDetect store) start;
  '(times, g) ← ctrw_times c g;
  '(_, boundaryTrue, trueWalks) ←
    for_each (subordinate_step walks boundaryDetect times) (seqZ 0 (walkLength c))
             (0, replicate (Z.to_nat (simLength c)) 0, st_trueWalks store);
  '(_, _, ticks) ←
    for_each (coordinate_step (env_latticeCoords e) (env_unitCell e) boundaryTrue trueWalks)
             (seqZ 0 (walkLength c)) (0, 0, []);
  Some (walksCoords ++ [ticks], WalkStore walks boundaryDetect trueWalks, g).

(** [RandomWalks]: the coordinates of all walks, walk by walk. *)
Definition RandomWalks (c : config) (e : walk_env) (store : walk_store) (g : rng)
    : option (list (list (spec_float * spec_float)) * rng) :=
  latticeOnes ← start_pool (env_EMPTY e) (walkMode c) (env_lattice e);
  '(walksCoords, _, g) ←
    for_each (one_walk c e latticeOnes) (seqZ 0 (nWalks c)) ([], store, g);
  Some (walksCoords, g).

(** [AddNoise]: one normal draw per coordinate, in the storage order of
    the cube (x and y of tick 0, then of tick 1, ..., walk after walk). *)
Fixpoint add_noise_ticks (ticks : list (spec_float * spec_float)) (draws : list spec_float)
    : list (spec_float * spec_float) * list spec_float :=
  match ticks, draws with
  | (x, y) :: rest, dx :: dy :: draws' =>
      let '(rest', remaining) := add_noise_ticks rest draws' in
      ((Double.add x dx, Double.add y dy) :: rest', remaining)
  | _, _ => ([], draws)
  end.

Fixpoint add_noise_walks (walksCoords : list (list (spec_float * spec_float)))
    (draws : list spec_float) : list (list (spec_float * spec_float)) :=
  match walksCoords with
  | [] => []
  | ticks :: rest =>
      let '(ticks', remaining) := add_noise_ticks ticks draws in
      ticks' :: add_noise_walks rest remaining
  end.

Definition AddNoise (c : config) (walksCoords : list (list (spec_float * spec_float)))
    (g : rng) : list (list (spec_float * spec_float)) * rng :=
  let n := (2 * Z.to_nat (walkLength c) * Z.to_nat (nWalks c))%nat in
  let '(draws, g) := normal_draws Double.zero (noise c) n g in
  (add_noise_walks walksCoords draws, g).

(** ** Analysis *)

Definition SquaredDist (x1 x2 y1 y2 : spec_float) : spec_float :=
  let a := Double.sub x1 x2 in
  let b := Double.sub y1 y2 in
  Double.add (Double.mul a a) (Double.mul b b).

(** One round of the loop of [TAMSD]. *)
Definition tamsd_step (walk : list (spec_float * spec_float)) (delta : Z)
    (integral : spec_float) (i : Z) : option spec_float :=
  '(x1, y1) ← at_ walk (u64 (i + delta));
  '(x0, y0) ← at_ walk i;
  Some (Double.add integral (SquaredDist x1 x0 y1 y0)).

(** [TAMSD(walk, t, delta)] *)
Definition TAMSD (walk : list (spec_float * spec_float)) (t delta : Z) : option spec_float :=
  let diff := u32 (t - delta) in
  integral ← for_each (tamsd_step walk delta) (seqZ 0 diff) Double.zero;
  Some (Double.div integral (Double.of_Z diff)).

(** The three columns one walk contributes in [AnalyseWalks]: its rows of
    [eaMSDall], [taMSD] and [eataMSDall]. *)
Definition analyse_lag (wl : Z) (walk : list (spec_float * spec_float))
    (origin : spec_float * spec_float)
    (st : list spec_float * list spec_float * list spec_float) (j : Z)
    : option (list spec_float * list spec_float * list spec_float) :=
  let '(ea, ta, eata) := st in
  '(sx, sy) ← at_ walk j;
  t ← TAMSD walk wl j;
  et ← TAMSD walk j 1;
  Some (ea ++ [SquaredDist sx origin.1 sy origin.2], ta ++ [t], eata ++ [et]).

Definition analyse_walk (wl : Z) (walk : list (spec_float * spec_float))
    : option (list spec_float * list spec_float * list spec_float) :=
  origin ← at_ walk 0;
  for_each (analyse_lag wl walk origin) (seqZ 1 (wl - 1)) ([], [], []).

(** A matrix is the list of its columns.  [X.elem(find_nonfinite(Y)).zeros()]
    clears the cells of [X] at the places where [Y] is not finite. *)
Definition zero_where_nonfinite (X Y : list (list spec_float)) : list (list spec_float) :=
  zip_with (zip_with (fun x y => if Double.is_finite y then x else Double.zero)) X Y.

Definition zero_nonfinite (v : list spec_float) : list spec_float :=
  (fun x => if Double.is_finite x then x else Double.zero) <$> v.

(** Row [j] of a matrix. *)
Definition matrix_row (X : list (list spec_float)) (j : nat) : option (list spec_float) :=
  mapM (fun col => col !! j) X.

(** The mean of one row as [arma::mean(X, 1)] computes it: the sum of the
    cells from the first column on, divided by their number, and, when
    that is not finite, the running mean instead. *)
Definition robust_mean (row : list spec_float) : spec_float :=
  fst (foldl (fun '(r, k) x =>
                (Double.add r (Double.div (Double.sub x r) (Double.of_Z (k + 1))), k + 1))
             (Double.zero, 0) row).

Definition row_mean (row : list spec_float) : spec_float :=
  let m := Double.div (foldl Double.add Double.zero row) (Double.of_Z (Z.of_nat (length row))) in
  if Double.is_finite m then m else robust_mean row.

(** [arma::mean(X, 1)] for a matrix with [rows] rows. *)
Definition mean_rows (rows : nat) (X : list (list spec_float)) : option (list spec_float) :=
  mapM (fun j => row_mean <$> matrix_row X j) (seq 0 rows).

Definition square_vec (v : list spec_float) : list spec_float :=
  (fun x => Double.mul x x) <$> v.

Definition square_cells (X : list (list spec_float)) : list (list spec_float) :=
  square_vec <$> X.

(** The result of [AnalyseWalks]. *)
Record analysis_result := Analysis {
  an_eaMSD : list spec_float;
  an_eataMSD : list spec_float;
  an_ergodicity : list spec_float;
  an_taMSD : list (list spec_float)
}.

(** [AnalyseWalks] also exposes the two per-walk matrices as they are when
    the means are taken. *)
Record analysis_trace := AnalysisTrace {
  tr_eaMSDall : list (list spec_float);
  tr_eataMSDall : list (list spec_float);
  tr_result : analysis_result
}.

(** [arma::regspace<vec>(a, b)]: [a, a + 1, ..., b], and
    [a, a - 1, ..., b] when [b] is below [a]. *)
Definition regspace (a b : Z) : list spec_float :=
  Double.of_Z <$> (if bool_decide (a <= b) then seqZ a (b - a + 1)
                   else reverse (seqZ b (a - b + 1))).

(** [v /= w], cell by cell; Armadillo rejects operands of different
    sizes. *)
Definition divide_cells (v w : list spec_float) : option (list spec_float) :=
  if bool_decide (length v = length w) then Some (zip_with Double.div v w) else None.

(** The part of [AnalyseWalks] after the loop over the walks: the
    clean-up, the means and the ergodicity parameter, from the three
    columns of every walk. *)
Definition analyse_columns (wl : Z)
    (per_walk : list (list spec_float * list spec_float * list spec_float))
    : option analysis_trace :=
  let eaMSDall := (fun w => w.1.1) <$> per_walk in
  let taMSD := (fun w => w.1.2) <$> per_walk in
  let eataMSDall := (fun w => w.2) <$> per_walk in
  let rows := Z.to_nat (u32 (wl - 1)) in
  let taMSD := zero_nonfinite <$> taMSD in
  let eaMSDall := zero_where_nonfinite eaMSDall eataMSDall in
  eaMSD ← mean_rows rows eaMSDall;
  eataMSD ← mean_rows rows eataMSDall;
  let eataMSD := zero_nonfinite eataMSD in
  meanTAMSD ← square_vec <$> mean_rows rows taMSD;
  meanTAMSD2 ← mean_rows rows (square_cells taMSD);
  let ergodicity :=
    zero_nonfinite (zip_with (fun m2 m => Double.div (Double.sub m2 m) m) meanTAMSD2 meanTAMSD) in
  ergodicity ← divide_cells ergodicity (regspace 1 (u32 (wl - 1)));
  let ergodicity := zero_nonfinite ergodicity in
  Some (AnalysisTrace eaMSDall eataMSDall (Analysis eaMSD eataMSD ergodicity taMSD)).

(** [AnalyseWalks] with the calls [func(i)] made in the order of the walks
    (one worker). *)
Definition AnalyseWalks_trace (wl : Z) (walksCoords : list (list (spec_float * spec_float)))
    : option analysis_trace :=
  per_walk ← mapM (analyse_walk wl) walksCoords;
  analyse_columns wl per_walk.

Definition AnalyseWalks (wl : Z) (walksCoords : list (list (spec_float * spec_float)))
    : option analysis_result :=
  tr_result <$> AnalyseWalks_trace wl walksCoords.

(** The call [func(i)] of [AnalyseWalks]: it fills column [i] of the three
    matrices. *)
Definition analyse_task (wl : Z) (walksCoords : list (list (spec_float * spec_float)))
    (columns : list (list spec_float * list spec_float * list spec_float)) (i : Z)
    : option (list (list spec_float * list spec_float * list spec_float)) :=
  walk ← at_ walksCoords i;
  column ← analyse_walk wl walk;
  set_ columns i column.

(** [AnalyseWalks] with [parallel(func, 0, nWalks, nJobs)] spread over
    several workers.  The dispatcher is not part of the repository; what
    is used of it is that it makes every call [func(i)], [i < nWalks],
    once, in an order the code does not fix: [schedule] is that order.
    The three matrices start cleared by [zeros()]. *)
Definition AnalyseWalks_scheduled (wl : Z)
    (walksCoords : list (list (spec_float * spec_float))) (schedule : list Z)
    : option analysis_result :=
  let cleared := replicate (Z.to_nat (u32 (wl - 1))) Double.zero in
  per_walk ← for_each (analyse_task wl walksCoords) schedule
               (replicate (length walksCoords) (cleared, cleared, cleared));
  tr_result <$> analyse_columns wl per_walk.

(** ** A complete run *)

Record output := Output {
  out_occupation : list Z;
  out_lattice : list Z;
  out_latticeCoords : list coords;
  out_walksCoords : list (list (spec_float * spec_float));
  out_analysis : option analysis_result
}.

(** The members [N], [neighbourCount] and [nn] after [Initialize].  For a
    [latticeMode] other than 0 and 1 no branch assigns them: [N] and
    [neighbourCount] keep what the storage held and [nn] stays the empty
    matrix. *)
Definition Initialize_members (gridSize latticeMode : Z) (unset : storage) : topology :=
  if bool_decide (latticeMode = 0 \/ latticeMode = 1)
  then Initialize_topology gridSize latticeMode
  else Topology (u32 (unset_N unset)) (unset_neighbourCount unset mod 2 ^ 8) [].

(** [Initialize(seed)] followed by [Run()].  Besides the configuration and
    the seed a run has three inputs the caller does not choose: what
    [std::random_device] yields ([device]), what the storage holds before
    it is written ([unset]), and the order in which the workers of
    [AnalyseWalks] get to the walks ([schedule]). *)
Definition Run (c : config) (seed : Z) (device : list Z) (unset : storage)
    (schedule : list Z) : option output :=
  let g := SeedRNG seed device in
  let t := Initialize_members (gridSize c) (latticeMode c) unset in
  let N := topo_N t in
  let EMPTY := EMPTY_of N in
  let rows := if bool_decide (latticeMode c = 1)
              then (firstRow (gridSize c), lastRow (gridSize c)) else ([], []) in
  '(occupation, g) ← Permutation N g;
  lattice ← Percolate N (topo_nn t) (topo_neighbourCount t) occupation (threshold c);
  '(latticeCoords, unitCell) ←
    BuildLattice EMPTY (gridSize c) (latticeMode c) lattice
                 (unset_cells (unset_latticeCoords unset) N);
  if bool_decide (0 < nWalks c) then
    let e := WalkEnv EMPTY N (topo_nn t) lattice rows.1 rows.2 latticeCoords unitCell in
    let store := WalkStore (unset_cells (unset_walks unset) (simLength c))
                           (unset_cells (unset_boundaryDetect unset) (simLength c))
                           (unset_cells (unset_trueWalks unset) (walkLength c)) in
    '(walksCoords, g) ← RandomWalks c e store g;
    let '(walksCoords, g) :=
      if Double.gt (noise c) Double.zero then AddNoise c walksCoords g else (walksCoords, g) in
    analysis ← AnalyseWalks_scheduled (walkLength c) walksCoords schedule;
    Some (Output occupation lattice latticeCoords walksCoords (Some analysis))
  else Some (Output occupation lattice latticeCoords [] None).

End Engine.

(** ** Reading a lattice as a union-find forest *)

(** The root of site [i]: the parent indices are followed without changing
    the lattice, for at most [fuel] steps. *)
Fixpoint root_of (fuel : nat) (lattice : list Z) (i : Z) : option Z :=
  match fuel with
  | O => None
  | S fuel' =>
      v ← at_ lattice i;
      if bool_decide (v < 0) then Some i else root_of fuel' lattice v
  end.

(** The cells that do not hold the sentinel as [Percolate] stored it. *)
Definition occupied_sites (EMPTY : Z) (lattice : list Z) : list Z :=
  find_cells (fun v => bool_decide (v ≠ i32 EMPTY)) lattice.

(** The sum of the cluster sizes (the magnitudes of the negative cells)
    over all roots. *)
Definition roots_total (EMPTY : Z) (lattice : list Z) : Z :=
  foldr Z.add 0 ((fun v => - v) <$> filter (fun v => v < 0 /\ v ≠ i32 EMPTY) lattice).

(** The largest cluster in the words of the specification: the root of
    maximal cluster size (the first one if several) together with every
    site whose root it is. *)
Definition largest_cluster_as_specified (EMPTY : Z) (lattice : list Z) : option (list Z) :=
  latticeMin ← vec_min (filter (fun v => v < 0 /\ v ≠ i32 EMPTY) lattice);
  r ← at_ (find_cells (fun v => bool_decide (v = latticeMin)) lattice) 0;
  Some (filter (fun i => root_of (S (length lattice)) lattice i = Some r)
               (occupied_sites EMPTY lattice)).

(** The literal [0.16]. *)
Definition threshold_0_16 : spec_float := S754_finite false 5764607523034235 (-55).

(** The time-average MSD in the words of the specification: the mean,
    over [i] in [0, t - delta), of the squared displacement between ticks
    [i + delta] and [i]. *)
Definition tamsd_as_specified (walk : list (spec_float * spec_float)) (t delta : Z)
    : option spec_float :=
  terms ← mapM (fun i => '(x1, y1) ← at_ walk (i + delta);
                         '(x0, y0) ← at_ walk i;
                         Some (SquaredDist x1 x0 y1 y0))
               (seqZ 0 (t - delta));
  Some (Double.div (foldl Double.add Double.zero terms) (Double.of_Z (t - delta))).

(** ** Sites, neighbours and clusters *)


(** The neighbours a table gives a site: [neighbourCount] sites. *)
Definition table_in_range (N k : Z) (nn : list (list Z)) : Prop :=
  forall s, 0 <= s < N ->
    exists col, at_ nn s = Some col /\ Z.of_nat (length col) = k /\
                Forall (fun b => 0 <= b < N) col.

(** [b] is one of the neighbours the table gives [a]. *)
Definition adjacent (nn : list (list Z)) (a b : Z) : Prop :=
  exists col, at_ nn a = Some col /\ b ∈ col.


(** Two sites whose parent indices lead to the same root. *)
Definition same_cluster (lattice : list Z) (i j : Z) : Prop :=
  exists f r, root_of f lattice i = Some r /\ root_of f lattice j = Some r.

(** A step between two occupied neighbours. *)
Definition occupied_edge (occupied : list Z) (nn : list (list Z)) (a b : Z) : Prop :=
  a ∈ occupied /\ b ∈ occupied /\ adjacent nn a b.

(** The steps the occupation loop has looked at: from a site to a
    neighbour that was occupied no later than the site itself (the list
    has the most recent site first). *)
Fixpoint earlier_edge (nn : list (list Z)) (recent_first : list Z) (x y : Z) : Prop :=
  match recent_first with
  | [] => False
  | s :: older =>
      (x = s /\ y ∈ s :: older /\ adjacent nn s y) \/ earlier_edge nn older x y
  end.

(** The column of [latticeCoords] the square branch writes for the site
    [ij] whose cell holds [v]. *)
Definition square_coords (EMPTY : Z) (ij : Z * Z) (v : Z) : coords :=
  (Double.of_Z ij.1, Double.of_Z ij.2, Double.of_Z (if bool_decide (v = EMPTY) then 0 else v)).

(** ** The forest invariant of the percolation loop *)

(** The contribution of one cell to the total of the root sizes. *)
Definition cell_size (E v : Z) : Z :=
  if bool_decide (v < 0 /\ v <> E) then - v else 0.

(** What the occupation loop keeps true of a lattice of [N] cells under
    the signed sentinel [-N - 1], [occupied] being the sites occupied so
    far: unoccupied cells hold the sentinel; an occupied cell is a root
    with its cluster size or the index of an occupied site further up
    ([rank] grows along the parent indices, and stays below the size at a
    root); the root sizes add up to the number of occupied sites. *)
Record forest_inv (N : Z) (occupied : list Z) (rank : Z -> nat) (lattice : list Z) : Prop :=
  ForestInv {
    inv_length : Z.of_nat (length lattice) = N;
    inv_sites : forall i, i ∈ occupied -> 0 <= i < N;
    inv_count : Z.of_nat (length occupied) <= N;
    inv_empty : forall i, 0 <= i < N -> (at_ lattice i = Some (- N - 1) <-> i ∉ occupied);
    inv_cells : forall i v, i ∈ occupied -> at_ lattice i = Some v ->
      (v < 0 /\ Z.of_nat (rank i) + 1 <= - v) \/
      (0 <= v /\ v ∈ occupied /\ (rank i < rank v)%nat);
    inv_rank : forall i, i ∈ occupied -> Z.of_nat (rank i) < N;
    inv_total : roots_total (- N - 1) lattice = Z.of_nat (length occupied)
  }.

(** * Properties *)

(** ** Fixed-width integers on small values *)

Lemma u32_small z : 0 <= z < 2 ^ 32 -> u32 z = z.
Proof. intros; unfold u32; now apply Z.mod_small. Qed.

Lemma u64_small z : 0 <= z < 2 ^ 64 -> u64 z = z.
Proof. intros; unfold u64; now apply Z.mod_small. Qed.

Lemma i32_small z : - 2 ^ 31 <= z < 2 ^ 31 -> i32 z = z.
Proof. intros; unfold i32; rewrite Z.mod_small; lia. Qed.

Lemma cell_small z : 0 <= z < 2 ^ 31 -> cell z = z.
Proof. intros; unfold cell; rewrite u64_small, i32_small; lia. Qed.

Lemma cell_wrap_down z : 0 <= z + 2 ^ 64 < 2 ^ 31 -> cell z = z + 2 ^ 64.
Proof.
  intros; unfold cell, u64.
  replace z with (z + 2 ^ 64 + (-1) * 2 ^ 64) at 1 by lia.
  rewrite Z.mod_add by lia. rewrite Z.mod_small by lia. apply i32_small; lia.
Qed.

Lemma u32_range z : 0 <= u32 z < 2 ^ 32.
Proof. unfold u32; apply Z.mod_pos_bound; lia. Qed.

Lemma i32_range z : - 2 ^ 31 <= i32 z < 2 ^ 31.
Proof. unfold i32; pose proof (Z.mod_pos_bound (z + 2 ^ 31) (2 ^ 32)); lia. Qed.

(** ** Vectors *)

Lemma at_fmap_seqZ {A} (f : Z -> A) (n a : Z) :
  0 <= a < n -> at_ (f <$> seqZ 0 n) a = Some (f a).
Proof.
  intros Ha. unfold at_. rewrite bool_decide_eq_true_2 by lia.
  rewrite list_lookup_fmap, lookup_seqZ_lt by lia. simpl. f_equal. f_equal. lia.
Qed.

(** Division and remainder of a site index written in column/row form. *)
Lemma cr_mod (g c r : Z) : 0 <= r < g -> (c * g + r) mod g = r.
Proof. intros. rewrite Z.add_comm, Z.mod_add by lia. apply Z.mod_small; lia. Qed.

Lemma cr_div (g c r : Z) : 0 <= r < g -> (c * g + r) / g = c.
Proof. intros. rewrite Z.add_comm, Z.div_add by lia. rewrite Z.div_small; lia. Qed.

Lemma cr_split (g a : Z) : 0 < g -> a = (a / g) * g + a mod g /\ 0 <= a mod g < g.
Proof.
  intros. split; [|apply Z.mod_pos_bound; lia].
  rewrite Z.mul_comm. apply Z.div_mod; lia.
Qed.

(** ** Square lattice *)

(** The square neighbours of the site in column [c], row [r]. *)
Lemma square_column_cr (g c r : Z) :
  1 <= g -> g * g < 2 ^ 31 -> 0 <= c < g -> 0 <= r < g ->
  square_column g (g * g) (c * g + r) =
    [ (if bool_decide (r = g - 1) then c * g else c * g + r + 1);
      (if bool_decide (r = 0) then c * g + g - 1 else c * g + r - 1);
      (if bool_decide (c = g - 1) then r else (c + 1) * g + r);
      (if bool_decide (c = 0) then (g - 1) * g + r else (c - 1) * g + r) ].
Proof.
  intros Hg Hgg Hc Hr.
  assert (Ha : 0 <= c * g + r < g * g) by nia.
  assert (Hb : g <= g * g) by nia.
  assert (Hc0 : 0 <= c * g) by nia.
  assert (Hc1 : c * g + g <= g * g) by nia.
  unfold square_column.
  rewrite cr_mod by lia.
  rewrite (u64_small (c * g + r + 1)), (u64_small (c * g + r + g * g - 1)),
    (u64_small (c * g + r + g)), (u64_small (c * g + r + g * g - g)) by lia.
  replace (c * g + r + 1) with (c * g + (r + 1)) by lia.
  assert (E0 : (c * g + (r + 1)) mod g = if bool_decide (r = g - 1) then 0 else r + 1).
  { case_bool_decide.
    - subst r. replace (c * g + (g - 1 + 1)) with ((c + 1) * g) by lia.
      apply Z.mod_mul; lia.
    - apply cr_mod; lia. }
  rewrite E0. clear E0.
  f_equal; [|f_equal; [|f_equal; [|f_equal]]].
  - repeat case_bool_decide; try lia.
    + rewrite cell_small; lia.
    + rewrite Z.mod_small by lia. rewrite cell_small; lia.
  - case_bool_decide as H1.
    + rewrite cell_small; lia.
    + replace (c * g + r + g * g - 1) with (c * g + r - 1 + 1 * (g * g)) by lia.
      rewrite Z.mod_add, Z.mod_small by lia. rewrite cell_small; lia.
  - case_bool_decide as H1.
    + subst c. replace ((g - 1) * g + r + g) with (r + 1 * (g * g)) by lia.
      rewrite Z.mod_add, Z.mod_small by lia. rewrite cell_small; lia.
    + assert (c * g + 2 * g <= g * g) by nia.
      rewrite Z.mod_small by lia. rewrite cell_small; lia.
  - case_bool_decide as H1.
    + subst c. rewrite Z.mod_small by lia. rewrite cell_small; lia.
    + assert (g <= c * g) by nia.
      replace (c * g + r + g * g - g) with ((c - 1) * g + r + 1 * (g * g)) by lia.
      rewrite Z.mod_add, Z.mod_small by lia. rewrite cell_small; lia.
Qed.

Lemma BoundariesSquare_periodic (g : Z) :
  1 <= g -> g * g < 2 ^ 31 ->
  periodic_table (g * g) 4 (BoundariesSquare g (g * g)).
Proof.
  intros Hg Hgg. unfold BoundariesSquare. split.
  { rewrite length_fmap, length_seqZ. nia. }
  intros a Ha. exists (square_column g (g * g) a).
  split; [apply at_fmap_seqZ; lia|]. split; [reflexivity|].
  destruct (cr_split g a ltac:(lia)) as [Ea Hr].
  set (c := a / g) in *. set (r := a mod g) in *. clearbody c r.
  assert (Hc : 0 <= c < g) by nia.
  subst a. rewrite square_column_cr by lia.
  intros b Hb.
  assert (Hcr : forall x c' r', x = c' * g + r' -> 0 <= c' < g -> 0 <= r' < g ->
            c * g + r ∈ square_column g (g * g) (c' * g + r') ->
            0 <= x < g * g /\
            exists col', at_ (square_column g (g * g) <$> seqZ 0 (g * g)) x
                         = Some col' /\ c * g + r ∈ col').
  { intros x c' r' -> Hc' Hr' Hin. split; [nia|].
    eexists. split; [apply at_fmap_seqZ; nia|]. exact Hin. }
  rewrite !elem_of_cons in Hb. destruct Hb as [Hb|[Hb|[Hb|[Hb|Hb]]]];
    [| | | |by apply elem_of_nil in Hb]; subst b.
  - (* upper neighbour: [a] is its lower neighbour *)
    case_bool_decide as H1.
    + apply (Hcr _ c 0); [lia..|].
      rewrite square_column_cr by lia. rewrite !elem_of_cons. right; left.
      rewrite bool_decide_eq_true_2 by reflexivity. lia.
    + apply (Hcr _ c (r + 1)); [lia..|].
      rewrite square_column_cr by lia. rewrite !elem_of_cons. right; left.
      rewrite bool_decide_eq_false_2 by lia. lia.
  - (* lower neighbour: [a] is its upper neighbour *)
    case_bool_decide as H1.
    + apply (Hcr _ c (g - 1)); [lia..|].
      rewrite square_column_cr by lia. rewrite !elem_of_cons. left.
      rewrite bool_decide_eq_true_2 by reflexivity. lia.
    + apply (Hcr _ c (r - 1)); [lia..|].
      rewrite square_column_cr by lia. rewrite !elem_of_cons. left.
      rewrite bool_decide_eq_false_2 by lia. lia.
  - (* next column: [a] is in its previous column *)
    case_bool_decide as H1.
    + apply (Hcr _ 0 r); [lia..|].
      rewrite square_column_cr by lia. rewrite !elem_of_cons. do 3 right; left.
      rewrite bool_decide_eq_true_2 by reflexivity. subst c. lia.
    + apply (Hcr _ (c + 1) r); [lia..|].
      rewrite square_column_cr by lia. rewrite !elem_of_cons. do 3 right; left.
      rewrite bool_decide_eq_false_2 by lia. lia.
  - (* previous column: [a] is in its next column *)
    case_bool_decide as H1.
    + apply (Hcr _ (g - 1) r); [lia..|].
      rewrite square_column_cr by lia. rewrite !elem_of_cons. do 2 right; left.
      rewrite bool_decide_eq_true_2 by reflexivity. subst c. lia.
    + apply (Hcr _ (c - 1) r); [lia..|].
      rewrite square_column_cr by lia. rewrite !elem_of_cons. do 2 right; left.
      rewrite bool_decide_eq_false_2 by lia. lia.
Qed.

(** ** Honeycomb lattice *)

Lemma cr_inj (g c r c' r' : Z) :
  0 <= r < g -> 0 <= r' < g -> c * g + r = c' * g + r' -> c = c' /\ r = r'.
Proof.
  intros Hr Hr' E. split.
  - rewrite <- (cr_div g c r Hr), <- (cr_div g c' r' Hr'). now rewrite E.
  - rewrite <- (cr_mod g c r Hr), <- (cr_mod g c' r' Hr'). now rewrite E.
Qed.

Lemma grid_bound (g : Z) : 1 <= g -> 4 * (g * g) < 2 ^ 31 -> g < 32768.
Proof. intros. nia. Qed.

Lemma pow_m1_even k : Z.even k = true -> pow_m1 k = 1 /\ pow_m1 (k + 1) = -1.
Proof.
  intros E. unfold pow_m1. rewrite E.
  replace (k + 1) with (Z.succ k) by lia. rewrite Z.even_succ, <- Z.negb_even, E. auto.
Qed.

Lemma pow_m1_odd k : Z.even k = false -> pow_m1 k = -1 /\ pow_m1 (k + 1) = 1.
Proof.
  intros E. unfold pow_m1. rewrite E.
  replace (k + 1) with (Z.succ k) by lia. rewrite Z.even_succ, <- Z.negb_even, E. auto.
Qed.

Lemma firstRow_entry_eq (g k : Z) :
  1 <= g -> 4 * (g * g) < 2 ^ 31 -> 1 <= k <= 2 * g ->
  firstRow_entry g k = if Z.even k then (2 * k - 1) * g else (2 * k - 2) * g.
Proof.
  intros Hg HN Hk. pose proof (grid_bound g Hg HN) as Hb.
  assert (Hkg : 0 <= k * g <= 2 * (g * g)) by nia.
  unfold firstRow_entry. rewrite u32_small, u64_small by lia.
  destruct (Z.even k) eqn:E.
  - destruct (pow_m1_even k E) as [-> _].
    replace (2 * 1 - 3 * g + 1 * g + 2 * (2 * k * g) - 2 * 1) with (((2 * k - 1) * g) * 2) by lia.
    rewrite Z.quot_mul by lia. apply i32_small. nia.
  - destruct (pow_m1_odd k E) as [-> _].
    replace (2 * 1 - 3 * g + -1 * g + 2 * (2 * k * g) - 2 * 1) with (((2 * k - 2) * g) * 2) by lia.
    rewrite Z.quot_mul by lia. apply i32_small. nia.
Qed.

Lemma lastRow_entry_eq (g k : Z) :
  1 <= g -> 4 * (g * g) < 2 ^ 31 -> 1 <= k <= 2 * g ->
  lastRow_entry g k = if Z.even k then (2 * k - 2) * g + (g - 1) else (2 * k - 1) * g + (g - 1).
Proof.
  intros Hg HN Hk. pose proof (grid_bound g Hg HN) as Hb.
  assert (Hkg : 0 <= k * g <= 2 * (g * g)) by nia.
  unfold lastRow_entry. rewrite u64_small by lia.
  destruct (Z.even k) eqn:E.
  - destruct (pow_m1_even k E) as [_ ->].
    replace (g * (4 * k + -1 - 1) - 2 * 1) with (((2 * k - 2) * g + (g - 1)) * 2) by lia.
    rewrite Z.quot_mul by lia. apply i32_small. nia.
  - destruct (pow_m1_odd k E) as [_ ->].
    replace (g * (4 * k + 1 - 1) - 2 * 1) with (((2 * k - 1) * g + (g - 1)) * 2) by lia.
    rewrite Z.quot_mul by lia. apply i32_small. nia.
Qed.

Lemma any_eq_true (v : list Z) (i : Z) :
  - 2 ^ 31 <= i < 2 ^ 31 -> any_eq v i = true <-> i ∈ v.
Proof.
  intros Hi. unfold any_eq. rewrite i32_small by lia.
  rewrite existsb_exists. setoid_rewrite <- list_elem_of_In. split.
  - intros (x & Hx & E). apply Z.eqb_eq in E. now subst.
  - intros Hx. exists i. split; [done|apply Z.eqb_refl].
Qed.

Lemma even_2k1 q : Z.even (2 * q + 1) = false.
Proof. rewrite Z.add_comm, Z.even_add_mul_2. reflexivity. Qed.

Lemma even_2k q : Z.even (2 * q) = true.
Proof. rewrite <- (Z.add_0_l (2 * q)), Z.even_add_mul_2. reflexivity. Qed.

Lemma elem_of_firstRow (g c r : Z) :
  1 <= g -> 4 * (g * g) < 2 ^ 31 -> 0 <= c < 4 * g -> 0 <= r < g ->
  c * g + r ∈ firstRow g <-> r = 0 /\ (c mod 4 = 0 \/ c mod 4 = 3).
Proof.
  intros Hg HN Hc Hr. pose proof (grid_bound g Hg HN) as Hb.
  unfold firstRow. rewrite u32_small by lia.
  rewrite list_elem_of_fmap. setoid_rewrite elem_of_seqZ. split.
  - intros (k & E & Hk). rewrite firstRow_entry_eq in E by lia.
    destruct (Z.even k) eqn:Ek.
    + replace ((2 * k - 1) * g) with ((2 * k - 1) * g + 0) in E by lia.
      apply cr_inj in E; [|lia..]. destruct E as [-> ->]. split; [done|].
      apply Z.even_spec in Ek. destruct Ek as [q ->].
      right. replace (2 * (2 * q) - 1) with (3 + (q - 1) * 4) by lia.
      now rewrite Z.mod_add by lia.
    + replace ((2 * k - 2) * g) with ((2 * k - 2) * g + 0) in E by lia.
      apply cr_inj in E; [|lia..]. destruct E as [-> ->]. split; [done|].
      assert (Ho : Z.odd k = true) by (rewrite <- Z.negb_even, Ek; done).
      apply Z.odd_spec in Ho. destruct Ho as [q ->].
      left. replace (2 * (2 * q + 1) - 2) with (0 + q * 4) by lia.
      now rewrite Z.mod_add by lia.
  - intros [-> Hm]. destruct Hm as [Hm|Hm].
    + exists (2 * (c / 4) + 1). split; [|Z.to_euclidean_division_equations; lia].
      rewrite firstRow_entry_eq by (Z.to_euclidean_division_equations; lia).
      rewrite even_2k1. Z.to_euclidean_division_equations; nia.
    + exists (2 * (c / 4 + 1)). split; [|Z.to_euclidean_division_equations; lia].
      rewrite firstRow_entry_eq by (Z.to_euclidean_division_equations; lia).
      rewrite even_2k. Z.to_euclidean_division_equations; nia.
Qed.

Lemma elem_of_lastRow (g c r : Z) :
  1 <= g -> 4 * (g * g) < 2 ^ 31 -> 0 <= c < 4 * g -> 0 <= r < g ->
  c * g + r ∈ lastRow g <-> r = g - 1 /\ (c mod 4 = 1 \/ c mod 4 = 2).
Proof.
  intros Hg HN Hc Hr. pose proof (grid_bound g Hg HN) as Hb.
  unfold lastRow. rewrite u32_small by lia.
  rewrite list_elem_of_fmap. setoid_rewrite elem_of_seqZ. split.
  - intros (k & E & Hk). rewrite lastRow_entry_eq in E by lia.
    destruct (Z.even k) eqn:Ek.
    + apply cr_inj in E; [|lia..]. destruct E as [-> ->]. split; [done|].
      apply Z.even_spec in Ek. destruct Ek as [q ->].
      right. replace (2 * (2 * q) - 2) with (2 + (q - 1) * 4) by lia.
      now rewrite Z.mod_add by lia.
    + apply cr_inj in E; [|lia..]. destruct E as [-> ->]. split; [done|].
      assert (Ho : Z.odd k = true) by (rewrite <- Z.negb_even, Ek; done).
      apply Z.odd_spec in Ho. destruct Ho as [q ->].
      left. replace (2 * (2 * q + 1) - 1) with (1 + q * 4) by lia.
      now rewrite Z.mod_add by lia.
  - intros [-> Hm]. destruct Hm as [Hm|Hm].
    + exists (2 * (c / 4) + 1). split; [|Z.to_euclidean_division_equations; lia].
      rewrite lastRow_entry_eq by (Z.to_euclidean_division_equations; lia).
      rewrite even_2k1. Z.to_euclidean_division_equations; nia.
    + exists (2 * (c / 4 + 1)). split; [|Z.to_euclidean_division_equations; lia].
      rewrite lastRow_entry_eq by (Z.to_euclidean_division_equations; lia).
      rewrite even_2k. Z.to_euclidean_division_equations; nia.
Qed.

Lemma any_eq_firstRow (g c r : Z) :
  1 <= g -> 4 * (g * g) < 2 ^ 31 -> 0 <= c < 4 * g -> 0 <= r < g ->
  any_eq (firstRow g) (c * g + r)
  = bool_decide (r = 0 /\ (c mod 4 = 0 \/ c mod 4 = 3)).
Proof.
  intros Hg HN Hc Hr. assert (0 <= c * g + r < 4 * (g * g)) by nia.
  apply eq_true_iff_eq. rewrite any_eq_true by lia.
  rewrite bool_decide_eq_true. now apply elem_of_firstRow.
Qed.

Lemma any_eq_lastRow (g c r : Z) :
  1 <= g -> 4 * (g * g) < 2 ^ 31 -> 0 <= c < 4 * g -> 0 <= r < g ->
  any_eq (lastRow g) (c * g + r)
  = bool_decide (r = g - 1 /\ (c mod 4 = 1 \/ c mod 4 = 2)).
Proof.
  intros Hg HN Hc Hr. assert (0 <= c * g + r < 4 * (g * g)) by nia.
  apply eq_true_iff_eq. rewrite any_eq_true by lia.
  rewrite bool_decide_eq_true. now apply elem_of_lastRow.
Qed.

Ltac cells :=
  repeat match goal with
  | |- context [cell ?x] => rewrite (cell_small x) by lia
  end.

Lemma honeycomb_column_cr (g c r b : Z) :
  1 <= g -> 4 * (g * g) < 2 ^ 31 -> 0 <= c < 4 * g -> 0 <= r < g ->
  b ∈ honeycomb_column g (4 * (g * g)) (firstRow g) (lastRow g) (c mod 4) (c * g + r)
  <-> b ∈ site_of g <$> honeycomb_cr g c r.
Proof.
  intros Hg HN Hc Hr. pose proof (grid_bound g Hg HN) as Hb.
  assert (Hgg : g <= g * g) by nia.
  unfold honeycomb_column.
  rewrite any_eq_firstRow, any_eq_lastRow by lia.
  rewrite (u32_small (2 * g)), (u32_small (4 * (g * g) - g)),
    (u32_small (4 * (g * g) - g - 1)) by lia.
  assert (Hm : 0 <= c mod 4 < 4) by (apply Z.mod_pos_bound; lia).
  assert (Hcase : c = 0 \/ c = 4 * g - 1 \/ c = 4 * g - 2 \/ 1 <= c <= 4 * g - 3) by lia.
  unfold honeycomb_cr, site_of.
  destruct Hcase as [->|[->|[->|Hmid]]].
  - (* first column *)
    replace (0 mod 4) with 0 by reflexivity.
    repeat case_bool_decide; try lia; cbn [fmap list_fmap fst snd];
      cells; rewrite !elem_of_cons, !elem_of_nil; lia.
  - (* last column *)
    assert (E : (4 * g - 1) mod 4 = 3) by (Z.to_euclidean_division_equations; lia).
    rewrite E.
    repeat case_bool_decide; try lia; cbn [fmap list_fmap fst snd];
      cells; rewrite !elem_of_cons, !elem_of_nil; lia.
  - (* last column but one *)
    assert (E : (4 * g - 2) mod 4 = 2) by (Z.to_euclidean_division_equations; lia).
    rewrite E.
    repeat case_bool_decide; try lia; cbn [fmap list_fmap fst snd];
      cells; rewrite !elem_of_cons, !elem_of_nil; lia.
  - (* inner columns *)
    assert (H1 : g <= c * g) by nia.
    assert (H2 : c * g + 3 * g <= 4 * (g * g)) by nia.
    assert (E : c mod 4 = 0 \/ c mod 4 = 1 \/ c mod 4 = 2 \/ c mod 4 = 3) by lia.
    destruct E as [E|[E|[E|E]]]; rewrite E;
    repeat case_bool_decide; try lia; cbn [fmap list_fmap fst snd];
      cells; rewrite !elem_of_cons, !elem_of_nil; lia.
Qed.

Ltac dlia := Z.to_euclidean_division_equations; lia.

Ltac pick_pair :=
  first [ left; f_equal; dlia
        | right; left; f_equal; dlia
        | right; right; left; f_equal; dlia ].

Lemma honeycomb_cr_sym (g c r c' r' : Z) :
  1 <= g -> 0 <= c < 4 * g -> 0 <= r < g ->
  (c', r') ∈ honeycomb_cr g c r ->
  (0 <= c' < 4 * g /\ 0 <= r' < g) /\ (c, r) ∈ honeycomb_cr g c' r'.
Proof.
  intros Hg Hc Hr Hin. unfold honeycomb_cr in Hin.
  assert (Hm : c mod 4 = 0 \/ c mod 4 = 1 \/ c mod 4 = 2 \/ c mod 4 = 3) by dlia.
  repeat case_bool_decide; try (exfalso; dlia);
    rewrite !elem_of_cons, elem_of_nil in Hin;
    destruct Hin as [Hin|[Hin|[Hin|[]]]]; injection Hin as -> ->;
    (split; [dlia|]); unfold honeycomb_cr;
    repeat case_bool_decide; try (exfalso; dlia);
    rewrite !elem_of_cons; pick_pair.
Qed.

Lemma div_succ (g a : Z) :
  1 <= g -> 0 <= a ->
  (a + 1) / g = if bool_decide ((a + 1) mod g = 0) then a / g + 1 else a / g.
Proof.
  intros Hg Ha. destruct (cr_split g a ltac:(lia)) as [Ea Hr].
  set (c := a / g) in *. set (r := a mod g) in *. clearbody c r. subst a.
  destruct (decide (r = g - 1)) as [->|Hne].
  - replace (c * g + (g - 1) + 1) with ((c + 1) * g + 0) by lia.
    rewrite cr_mod, cr_div by lia. now rewrite bool_decide_eq_true_2.
  - replace (c * g + r + 1) with (c * g + (r + 1)) by lia.
    rewrite cr_mod, cr_div by lia. rewrite bool_decide_eq_false_2 by lia. done.
Qed.

Lemma honeycomb_loop_seq (g N : Z) (fr lr : list Z) (n : nat) (a : Z) :
  1 <= g -> 0 <= a -> a + Z.of_nat n < 2 ^ 64 ->
  honeycomb_loop g N fr lr (a / g) (seqZ a (Z.of_nat n))
  = (fun i => honeycomb_column g N fr lr ((i / g) mod 4) i) <$> seqZ a (Z.of_nat n).
Proof.
  intros Hg. revert a. induction n as [|n IH]; intros a Ha Hlt.
  - reflexivity.
  - rewrite seqZ_cons by lia.
    replace (Z.pred (Z.of_nat (S n))) with (Z.of_nat n) by lia.
    cbn [honeycomb_loop fmap list_fmap]. f_equal.
    rewrite u64_small by lia.
    assert (Hq : 0 <= a / g <= a).
    { split; [apply Z.div_pos; lia|]. apply Z.div_le_upper_bound; nia. }
    replace (if bool_decide ((a + 1) mod g = 0) then u64 (a / g + 1) else a / g)
      with (Z.succ a / g).
    + apply IH; lia.
    + unfold Z.succ. rewrite div_succ by lia. case_bool_decide; [|done].
      rewrite u64_small; lia.
Qed.

Lemma length_honeycomb_column (g N : Z) (fr lr : list Z) (k i : Z) :
  length (honeycomb_column g N fr lr k i) = 3%nat.
Proof.
  unfold honeycomb_column. repeat case_bool_decide; try reflexivity.
  destruct k as [|[[]|[]|]|]; destruct (any_eq fr i), (any_eq lr i); reflexivity.
Qed.

Lemma BoundariesHoneycomb_periodic (g : Z) :
  1 <= g -> 4 * (g * g) < 2 ^ 31 ->
  periodic_table (4 * (g * g)) 3 (BoundariesHoneycomb g (4 * (g * g))).
Proof.
  intros Hg HN. unfold BoundariesHoneycomb.
  assert (HN0 : 0 <= 4 * (g * g)) by nia.
  pose proof (honeycomb_loop_seq g (4 * (g * g)) (firstRow g) (lastRow g)
                (Z.to_nat (4 * (g * g))) 0 Hg ltac:(lia)) as Hloop.
  rewrite Z2Nat.id, Z.div_0_l in Hloop by lia. rewrite Hloop by lia. clear Hloop.
  split.
  { rewrite length_fmap, length_seqZ. lia. }
  intros a Ha. eexists. split; [apply at_fmap_seqZ; lia|].
  split; [now rewrite length_honeycomb_column|].
  destruct (cr_split g a ltac:(lia)) as [Ea Hr].
  set (c := a / g) in *. set (r := a mod g) in *.
  assert (Hc : 0 <= c < 4 * g) by nia.
  intros b Hb. rewrite Ea in Hb. rewrite honeycomb_column_cr in Hb by lia.
  apply list_elem_of_fmap in Hb as ([c' r'] & -> & Hcr).
  apply honeycomb_cr_sym in Hcr as [[Hc' Hr'] Hback]; [|lia..].
  unfold site_of; cbn [fst snd].
  assert (Hb : 0 <= c' * g + r' < 4 * (g * g)) by nia.
  split; [lia|]. eexists. split; [apply at_fmap_seqZ; lia|].
  cbv beta. rewrite cr_div by lia. rewrite honeycomb_column_cr by lia.
  apply list_elem_of_fmap. exists (c, r). split; [|done].
  unfold site_of; cbn [fst snd]. lia.
Qed.

(** ** The neighbour table of both lattices *)

(** C4 (as amended): for every [gridSize >= 1] whose site count fits the
    32-bit cells ([gridSize^2 < 2^31] square, [4 gridSize^2 < 2^31]
    honeycomb), the neighbour table built by [Initialize] gives every site
    exactly k entries (4 square, 3 honeycomb), every entry is a site index
    in [0, N), and adjacency is symmetric. *)
Theorem neighbour_table_periodic (gridSize latticeMode : Z) :
  1 <= gridSize ->
  (latticeMode = 0 /\ gridSize * gridSize < 2 ^ 31) \/
  (latticeMode = 1 /\ 4 * (gridSize * gridSize) < 2 ^ 31) ->
  let t := Initialize_topology gridSize latticeMode in
  topo_N t = (if bool_decide (latticeMode = 0) then 1 else 4) * (gridSize * gridSize) /\
  topo_neighbourCount t = (if bool_decide (latticeMode = 0) then 4 else 3) /\
  periodic_table (topo_N t) (topo_neighbourCount t) (topo_nn t).
Proof.
  intros Hg [[-> HN]|[-> HN]]; unfold Initialize_topology.
  - rewrite (bool_decide_eq_false_2 (0 = 1)) by done.
    rewrite !(bool_decide_eq_true_2 (0 = 0)) by done.
    assert (0 <= gridSize * gridSize) by nia.
    rewrite u32_small by lia. cbn [topo_N topo_neighbourCount topo_nn].
    split; [lia|]. split; [done|]. now apply BoundariesSquare_periodic.
  - rewrite (bool_decide_eq_true_2 (1 = 1)) by done.
    rewrite !(bool_decide_eq_false_2 (1 = 0)) by done.
    assert (0 <= gridSize * gridSize) by nia.
    rewrite (u32_small (gridSize * gridSize)) by lia.
    replace (gridSize * gridSize * 4) with (4 * (gridSize * gridSize)) by lia.
    rewrite u32_small by nia. cbn [topo_N topo_neighbourCount topo_nn].
    split; [lia|]. split; [done|]. now apply BoundariesHoneycomb_periodic.
Qed.

Lemma neighbour_table_periodic_witness :
  let t := Initialize_topology 3 1 in
  topo_N t = 36 /\ topo_neighbourCount t = 3 /\
  periodic_table (topo_N t) (topo_neighbourCount t) (topo_nn t).
Proof.
  apply (neighbour_table_periodic 3 1).
  - lia.
  - right. split; [reflexivity | vm_compute; reflexivity].
Defined.

(** C4 as stated fails once [gridSize * gridSize] no longer fits 32 bits:
    for [gridSize = 65537] the square lattice has [N = 131073] sites and
    site 65537 gets the entry 131073, which is not a site. *)
Lemma neighbour_table_wraps :
  let t := Initialize_topology 65537 0 in
  topo_N t = 131073 /\
  ~ periodic_table (topo_N t) (topo_neighbourCount t) (topo_nn t).
Proof.
  assert (E : Initialize_topology 65537 0
              = Topology 131073 4 (BoundariesSquare 65537 131073)).
  { unfold Initialize_topology.
    rewrite bool_decide_eq_false_2 by done. rewrite bool_decide_eq_true_2 by done.
    replace (u32 (65537 * 65537)) with 131073 by (vm_compute; reflexivity).
    reflexivity. }
  cbv zeta. rewrite E. cbn [topo_N topo_neighbourCount topo_nn].
  split; [reflexivity|].
  intros [_ H]. destruct (H 65537 ltac:(lia)) as (col & Hat & _ & Hall).
  unfold BoundariesSquare in Hat. rewrite at_fmap_seqZ in Hat by lia.
  injection Hat as <-.
  assert (Hcol : square_column 65537 131073 65537 = [65538; 131073; 1; 0])
    by (vm_compute; reflexivity).
  rewrite Hcol in Hall.
  destruct (Hall 131073) as [Hrange _].
  { apply list_elem_of_further, list_elem_of_here. }
  lia.
Qed.

(** ** Doubles *)

Lemma digits2_pos_iter_xO (p q : positive) :
  Zpos (digits2_pos (Pos.iter xO p q)) = Zpos (digits2_pos p) + Zpos q.
Proof.
  induction q as [|q IH] using Pos.peano_ind.
  - cbn. lia.
  - rewrite Pos.iter_succ. cbn [digits2_pos]. lia.
Qed.

Lemma Zpos_iter_xO (p q : positive) :
  Zpos (Pos.iter xO p q) = Zpos p * 2 ^ Zpos q.
Proof.
  induction q as [|q IH] using Pos.peano_ind.
  - cbn. lia.
  - rewrite Pos.iter_succ, Pos2Z.inj_xO, IH, Pos2Z.inj_succ, Z.pow_succ_r by lia. lia.
Qed.

Lemma round_exact_53 (s : bool) (m : positive) (e : Z) :
  Zpos (digits2_pos m) = 53 -> -1074 <= e <= 971 ->
  binary_round_aux 53 1024 s (Zpos m) e loc_Exact = S754_finite s m e.
Proof.
  intros Hd He.
  assert (Hshr : shr_fexp 53 1024 (Zpos m) e loc_Exact
                 = ({| shr_m := Zpos m; shr_r := false; shr_s := false |}, e)).
  { unfold shr_fexp, fexp, emin. cbn [Zdigits2 shr_record_of_loc]. rewrite Hd.
    replace (Z.max (53 + e - 53) (3 - 1024 - 53) - e) with 0 by lia. reflexivity. }
  unfold binary_round_aux. rewrite Hshr.
  cbn [shr_m loc_of_shr_record round_nearest_even]. rewrite Hshr. cbn [shr_m].
  replace (e <=? 1024 - 53) with true by (symmetry; apply Z.leb_le; lia).
  reflexivity.
Qed.

(** The conversion of a positive integer of at most 53 bits is exact. *)
Lemma of_Z_Zpos (p : positive) :
  Zpos (digits2_pos p) <= 53 ->
  exists m e, Double.of_Z (Zpos p) = S754_finite false m e /\
              e <= 0 /\ Zpos m = Zpos p * 2 ^ (- e).
Proof.
  intros Hd. set (d := Zpos (digits2_pos p)) in *.
  unfold Double.of_Z, binary_normalize, binary_round, Double.prec, Double.emax.
  assert (Hf : fexp 53 1024 (d + 0) = d - 53).
  { unfold fexp, emin. lia. }
  fold d. rewrite Hf. unfold shl_align.
  destruct (d - 53 - 0) as [|q|q] eqn:Hq.
  - exists p, 0. split; [|split; [lia|cbn; lia]].
    apply round_exact_53; lia.
  - lia.
  - exists (Pos.iter xO p q), (d - 53). split; [|split; [lia|]].
    + apply round_exact_53; [|lia]. rewrite digits2_pos_iter_xO. fold d. lia.
    + rewrite Zpos_iter_xO. f_equal. f_equal. lia.
Qed.

Lemma digits2_pos_le (p : positive) (k : Z) :
  0 <= k -> Zpos p < 2 ^ k -> Zpos (digits2_pos p) <= k.
Proof.
  revert k. induction p as [p IH|p IH|]; intros k Hk Hp; cbn [digits2_pos].
  - assert (k <> 0) by (intros ->; cbn in Hp; lia).
    specialize (IH (k - 1) ltac:(lia)).
    replace k with (Z.succ (k - 1)) in Hp by lia. rewrite Z.pow_succ_r in Hp by lia.
    rewrite Pos2Z.inj_succ. lia.
  - assert (k <> 0) by (intros ->; cbn in Hp; lia).
    specialize (IH (k - 1) ltac:(lia)).
    replace k with (Z.succ (k - 1)) in Hp by lia. rewrite Z.pow_succ_r in Hp by lia.
    rewrite Pos2Z.inj_succ. lia.
  - assert (k <> 0) by (intros ->; cbn in Hp; lia). lia.
Qed.

(** An integer below 2^53 converts to a [double] of exactly its value. *)
Lemma of_Z_exact (i : Z) :
  0 <= i < 2 ^ 53 ->
  Double.is_finite (Double.of_Z i) = true /\
  0 < Double.den (Double.of_Z i) /\
  Double.num (Double.of_Z i) = i * Double.den (Double.of_Z i).
Proof.
  intros Hi. destruct i as [|p|p]; [| |lia].
  - cbn. lia.
  - destruct (of_Z_Zpos p) as (m & e & -> & He & Hm).
    { apply digits2_pos_le; lia. }
    cbn [Double.is_finite Double.num Double.den].
    rewrite (Z.max_r e 0), (Z.max_l (- e) 0) by lia.
    split; [done|]. split; [apply Z.pow_pos_nonneg; lia|].
    rewrite Z.pow_0_r. lia.
Qed.

(** ** The order of the values and the IEEE comparison *)

Lemma den_pos (x : spec_float) : 0 < Double.den x.
Proof. destruct x; cbn [Double.den]; try lia. Qed.

(** The number of binary digits of a mantissa brackets it. *)
Lemma digits2_pos_bounds (m : positive) :
  2 ^ (Zpos (digits2_pos m) - 1) <= Zpos m < 2 ^ Zpos (digits2_pos m).
Proof.
  induction m as [m IH|m IH|]; cbn [digits2_pos]; [| |cbn; lia].
  - rewrite Pos2Z.inj_succ. change (Zpos m~1) with (2 * Zpos m + 1).
    replace (Z.succ (Zpos (digits2_pos m)) - 1) with (Z.succ (Zpos (digits2_pos m) - 1)) by lia.
    rewrite !Z.pow_succ_r by lia. lia.
  - rewrite Pos2Z.inj_succ. change (Zpos m~0) with (2 * Zpos m).
    replace (Z.succ (Zpos (digits2_pos m)) - 1) with (Z.succ (Zpos (digits2_pos m) - 1)) by lia.
    rewrite !Z.pow_succ_r by lia. lia.
Qed.

(** What [bounded] says of a binary64 mantissa and exponent. *)
Lemma bounded_inv (m : positive) (e : Z) :
  bounded 53 1024 m e = true ->
  -1074 <= e <= 971 /\ Zpos m < 2 ^ 53 /\ (-1074 < e -> 2 ^ 52 <= Zpos m).
Proof.
  unfold bounded, canonical_mantissa, fexp, emin. intros H.
  apply andb_prop in H as [Hc He]. apply Z.leb_le in He.
  apply Z.eqb_eq in Hc.
  pose proof (digits2_pos_bounds m) as [Hlo Hhi].
  set (d := Zpos (digits2_pos m)) in *.
  assert (Hd : d <= 53) by lia.
  split; [lia|]. split.
  - eapply Z.lt_le_trans; [exact Hhi|]. apply Z.pow_le_mono_r; lia.
  - intros Hgt. assert (d = 53) as Hd53 by lia. rewrite Hd53 in Hlo. exact Hlo.
Qed.

(** The value of a finite number, scaled by 2^1074 to an integer. *)
Lemma num_scaled (s : bool) (m : positive) (e : Z) :
  -1074 <= e ->
  Double.num (S754_finite s m e) * 2 ^ 1074
  = (if s then -1 else 1) * (Zpos m * 2 ^ (e + 1074)) * Double.den (S754_finite s m e).
Proof.
  intros He. cbn [Double.num Double.den].
  destruct (Z.le_ge_cases 0 e) as [H0|H0].
  - rewrite (Z.max_l e 0), (Z.max_r (- e) 0) by lia.
    rewrite (Z.pow_add_r 2 e 1074) by lia. change (2 ^ 0) with 1. ring.
  - rewrite (Z.max_r e 0), (Z.max_l (- e) 0) by lia.
    replace (2 ^ 1074) with (2 ^ (e + 1074) * 2 ^ (- e)).
    + change (2 ^ 0) with 1. ring.
    + rewrite <- Z.pow_add_r by lia. f_equal. lia.
Qed.

(** Mantissas of numbers with the same sign are ordered by exponent first. *)
Lemma scaled_lt (m1 m2 : positive) (e1 e2 : Z) :
  bounded 53 1024 m1 e1 = true -> bounded 53 1024 m2 e2 = true ->
  e1 < e2 ->
  Zpos m1 * 2 ^ (e1 + 1074) < Zpos m2 * 2 ^ (e2 + 1074).
Proof.
  intros H1 H2 He.
  pose proof (bounded_inv _ _ H1) as (He1 & Hm1 & _).
  pose proof (bounded_inv _ _ H2) as (He2 & _ & Hm2). assert (Hgt : -1074 < e2) by lia. specialize (Hm2 Hgt).
  replace (e2 + 1074) with ((e1 + 1074) + (e2 - e1)) by lia.
  rewrite (Z.pow_add_r 2 (e1 + 1074) (e2 - e1)) by lia.
  assert (Hp : 0 < 2 ^ (e1 + 1074)) by (apply Z.pow_pos_nonneg; lia).
  assert (Hq : 2 ^ 1 <= 2 ^ (e2 - e1)) by (apply Z.pow_le_mono_r; lia).
  change (2 ^ 1) with 2 in Hq. change (2 ^ 53) with (2 * 2 ^ 52) in Hm1.
  set (c := 2 ^ 52) in *. set (P := 2 ^ (e1 + 1074)) in *. set (Q := 2 ^ (e2 - e1)) in *.
  assert (Hc : 0 < c) by (subst c; lia).
  assert (Ha : Zpos m1 * P < 2 * c * P) by (apply Z.mul_lt_mono_pos_r; lia).
  assert (Hb : c * P <= Zpos m2 * P) by (apply Z.mul_le_mono_nonneg_r; lia).
  assert (Hd : Zpos m2 * P * 2 <= Zpos m2 * P * Q) by (apply Z.mul_le_mono_nonneg_l; lia).
  lia.
Qed.

Lemma compare_scaled (x y : spec_float) (a b : Z) :
  Double.num x * 2 ^ 1074 = a * Double.den x ->
  Double.num y * 2 ^ 1074 = b * Double.den y ->
  Z.compare (Double.num x * Double.den y) (Double.num y * Double.den x) = Z.compare a b.
Proof.
  intros Hx Hy. pose proof (den_pos x) as Hdx. pose proof (den_pos y) as Hdy.
  assert (H2 : 0 < 2 ^ 1074) by (apply Z.pow_pos_nonneg; lia).
  set (k := 2 ^ 1074) in *.
  destruct (Z.compare_spec a b) as [Hab|Hab|Hab].
  - apply Z.compare_eq_iff. subst b. nia.
  - apply Z.compare_lt_iff.
    assert (a * (Double.den x * Double.den y) < b * (Double.den x * Double.den y))
      by (apply Z.mul_lt_mono_pos_r; lia).
    nia.
  - apply Z.compare_gt_iff.
    assert (b * (Double.den x * Double.den y) < a * (Double.den x * Double.den y))
      by (apply Z.mul_lt_mono_pos_r; lia).
    nia.
Qed.

(** On well-formed binary64 numbers the order of the values is the IEEE
    comparison of the Standard Library. *)
Lemma compare_SFcompare (x y : spec_float) :
  valid_binary 53 1024 x = true -> valid_binary 53 1024 y = true ->
  Double.compare x y = SFcompare x y.
Proof.
  intros Hx Hy.
  destruct x as [s1|s1| |s1 m1 e1], y as [s2|s2| |s2 m2 e2]; try reflexivity;
    cbn [valid_binary] in Hx, Hy;
    try (destruct s1, s2; reflexivity).
  - cbn [Double.compare SFcompare Double.num Double.den]. f_equal.
    assert (0 < 2 ^ Z.max e2 0) by (apply Z.pow_pos_nonneg; lia).
    destruct s2; [apply Z.compare_gt_iff|apply Z.compare_lt_iff]; nia.
  - cbn [Double.compare SFcompare Double.num Double.den]. f_equal.
    assert (0 < 2 ^ Z.max e1 0) by (apply Z.pow_pos_nonneg; lia).
    destruct s1; [apply Z.compare_lt_iff|apply Z.compare_gt_iff]; nia.
  - pose proof (bounded_inv _ _ Hx) as (He1 & _ & _).
    pose proof (bounded_inv _ _ Hy) as (He2 & _ & _).
    unfold Double.compare.
    rewrite (compare_scaled _ _ _ _ (num_scaled s1 m1 e1 ltac:(lia))
                                    (num_scaled s2 m2 e2 ltac:(lia))).
    cbn [SFcompare]. f_equal.
    assert (Hp1 : 0 < 2 ^ (e1 + 1074)) by (apply Z.pow_pos_nonneg; lia).
    assert (Hp2 : 0 < 2 ^ (e2 + 1074)) by (apply Z.pow_pos_nonneg; lia).
    destruct (Z.compare_spec e1 e2) as [He|He|He].
    + subst e2. change (Pos.compare_cont Eq m1 m2) with (Pos.compare m1 m2).
      destruct (Pos.compare_spec m1 m2) as [Hm|Hm|Hm];
        destruct s1, s2; cbn [CompOpp];
        try (apply Z.compare_eq_iff; subst; lia);
        try (apply Z.compare_lt_iff; nia);
        try (apply Z.compare_gt_iff; nia).
    + pose proof (scaled_lt _ _ _ _ Hx Hy He).
      destruct s1, s2;
        try (apply Z.compare_lt_iff; nia);
        try (apply Z.compare_gt_iff; nia).
    + pose proof (scaled_lt _ _ _ _ Hy Hx He).
      destruct s1, s2;
        try (apply Z.compare_lt_iff; nia);
        try (apply Z.compare_gt_iff; nia).
Qed.

(** The literals of the source are well-formed. *)
Lemma literals_valid :
  Forall (fun x => valid_binary 53 1024 x = true)
    [Double.permConstant; Double.sqrt3; Double.sqrt3o2; Double.half; Double.quarter;
     threshold_0_6; threshold_0_16].
Proof. repeat constructor. Qed.

(** ** The loop bound of [Percolate] *)

Lemma lt_ceil (n d i : Z) : 0 < d -> i < - (- n / d) <-> i * d < n.
Proof.
  intros Hd. pose proof (Z.div_mod (- n) d ltac:(lia)).
  pose proof (Z.mod_pos_bound (- n) d Hd). split; intros; nia.
Qed.

(** A 32-bit counter is below [bound] exactly when it is below the number
    of rounds. *)
Lemma lt_of_Z_rounds (i : Z) (bound : spec_float) :
  0 <= i < 2 ^ 32 ->
  Double.lt (Double.of_Z i) bound = bool_decide (i < percolate_rounds bound).
Proof.
  intros Hi. destruct (of_Z_exact i ltac:(lia)) as (Hfin & Hden & Hnum).
  pose proof (den_pos bound) as Hdb.
  assert (Hcmp : forall s m e, bound = S754_zero s \/ bound = S754_finite s m e ->
            Double.lt (Double.of_Z i) bound
            = bool_decide (i < Z.max 0 (Double.ceil bound))).
  { intros s m e Hb. unfold Double.lt.
    assert (Double.compare (Double.of_Z i) bound
            = Some (Z.compare (Double.num (Double.of_Z i) * Double.den bound)
                              (Double.num bound * Double.den (Double.of_Z i)))) as ->.
    { destruct (Double.of_Z i); try discriminate; destruct Hb as [->| ->]; reflexivity. }
    rewrite Hnum. unfold Double.ceil.
    set (n := Double.num bound) in *. set (d := Double.den bound) in *.
    set (di := Double.den (Double.of_Z i)) in *.
    pose proof (lt_ceil n d i Hdb) as Hc.
    assert (Hsc : i * di * d < n * di <-> i * d < n).
    { replace (i * di * d) with (i * d * di) by lia.
      symmetry. apply Z.mul_lt_mono_pos_r. lia. }
    destruct (Z.compare_spec (i * di * d) (n * di)) as [E|E|E];
      [rewrite bool_decide_eq_false_2|rewrite bool_decide_eq_true_2
      |rewrite bool_decide_eq_false_2]; try done;
      destruct Hc as [Hc1 Hc2], Hsc as [Hs1 Hs2];
      destruct (decide (i * d < n)); lia. }
  assert (Hinf : forall b, Double.lt (Double.of_Z i) (S754_infinity b) = negb b).
  { intros b. unfold Double.lt. destruct (Double.of_Z i); try discriminate; now destruct b. }
  assert (Hnan : Double.lt (Double.of_Z i) S754_nan = false).
  { unfold Double.lt. now destruct (Double.of_Z i). }
  destruct bound as [s|[]| |s m e].
  - apply (Hcmp s 1%positive 0). auto.
  - rewrite Hinf. change (percolate_rounds (S754_infinity true)) with 0.
    rewrite bool_decide_eq_false_2 by lia. reflexivity.
  - rewrite Hinf. change (percolate_rounds (S754_infinity false)) with (2 ^ 32).
    rewrite bool_decide_eq_true_2 by lia. reflexivity.
  - rewrite Hnan. change (percolate_rounds S754_nan) with 0.
    rewrite bool_decide_eq_false_2 by lia. reflexivity.
  - apply (Hcmp s m e). auto.
Qed.

Lemma at_lookup {A} (v : list A) (i : nat) : at_ v (Z.of_nat i) = v !! i.
Proof. unfold at_. rewrite bool_decide_eq_true_2 by lia. now rewrite Nat2Z.id. Qed.

(** The counting loop of [Percolate] is the fold of [occupy_site] over the
    next [k] entries of [occupation]. *)
Lemma percolate_loop_prefix (EMPTY : Z) (nn : list (list Z)) (neighbourCount : Z)
    (occupation : list Z) (bound : spec_float) (k : nat) :
  forall (fuel i : nat) (st : list Z * Z),
    Z.of_nat i + Z.of_nat k = percolate_rounds bound ->
    (i + k <= length occupation)%nat ->
    Z.of_nat (length occupation) < 2 ^ 32 ->
    (k < fuel)%nat ->
    percolate_loop fuel EMPTY nn neighbourCount occupation bound (Z.of_nat i) st
    = for_each (occupy_site EMPTY nn neighbourCount) (take k (drop i occupation)) st.
Proof.
  induction k as [|k IH]; intros fuel i st Hn Hlen H32 Hfuel;
    (destruct fuel as [|fuel]; [lia|]); cbn [percolate_loop].
  - rewrite lt_of_Z_rounds by lia. rewrite bool_decide_eq_false_2 by lia. reflexivity.
  - rewrite lt_of_Z_rounds by lia. rewrite bool_decide_eq_true_2 by lia.
    rewrite at_lookup.
    destruct (lookup_lt_is_Some_2 occupation i ltac:(lia)) as [s1 Hs1].
    rewrite Hs1. rewrite (drop_S _ _ _ Hs1). cbn [take for_each mbind option_bind].
    destruct (occupy_site EMPTY nn neighbourCount st s1) as [st'|]; [|reflexivity].
    cbn [mbind option_bind]. rewrite u32_small by lia.
    replace (Z.of_nat i + 1) with (Z.of_nat (S i)) by lia.
    apply IH; lia.
Qed.

(** ** The occupation loop of [Percolate] *)

Lemma Percolate_with_prefix (EMPTY N : Z) (nn : list (list Z)) (neighbourCount : Z)
    (occupation : list Z) (threshold : spec_float) :
  let n := percolate_rounds (percolate_bound threshold N) in
  Z.of_nat (length occupation) < 2 ^ 32 ->
  n <= Z.of_nat (length occupation) ->
  Percolate_with EMPTY N nn neighbourCount occupation threshold
  = fst <$> for_each (occupy_site EMPTY nn neighbourCount)
              (take (Z.to_nat n) occupation) (empty_lattice EMPTY N, 0).
Proof.
  intros n H32 Hn. unfold Percolate_with. f_equal.
  assert (H0 : 0 <= n).
  { unfold n, percolate_rounds. destruct (percolate_bound threshold N) as [|[]| |]; lia. }
  rewrite (percolate_loop_prefix EMPTY nn neighbourCount occupation _ (Z.to_nat n)
             (S (length occupation)) 0%nat); [reflexivity|fold n; lia|lia|lia|lia].
Qed.

(** C2 (as amended): [Percolate] runs its occupation loop once for every
    integer [i >= 0] below the double [threshold * N - 1], that is
    [ceil(threshold * N - 1)] times (not at all when that bound is not
    positive), and round [i] occupies [occupation[i]]: the run is the fold
    of the per-site step over exactly that prefix of the occupation
    order. *)
Theorem Percolate_occupies_prefix (N : Z) (nn : list (list Z)) (neighbourCount : Z)
    (occupation : list Z) (threshold : spec_float) :
  let n := Z.max 0 (Double.ceil (percolate_bound threshold N)) in
  Z.of_nat (length occupation) < 2 ^ 32 ->
  Double.is_finite (percolate_bound threshold N) = true ->
  n <= Z.of_nat (length occupation) ->
  Percolate N nn neighbourCount occupation threshold
  = fst <$> for_each (occupy_site (EMPTY_of N) nn neighbourCount)
              (take (Z.to_nat n) occupation) (empty_lattice (EMPTY_of N) N, 0).
Proof.
  intros n H32 Hfin Hn. unfold Percolate.
  assert (E : percolate_rounds (percolate_bound threshold N) = n).
  { unfold percolate_rounds. now destruct (percolate_bound threshold N) as [|[]| |]. }
  pose proof (Percolate_with_prefix (EMPTY_of N) N nn neighbourCount occupation threshold) as H.
  cbv zeta in H. rewrite E in H. apply H; lia.
Qed.

Lemma Percolate_occupies_prefix_witness :
  let t := Initialize_topology 2 0 in
  Percolate 4 (topo_nn t) 4 [0; 1; 2; 3] threshold_0_6
  = fst <$> for_each (occupy_site (EMPTY_of 4) (topo_nn t) 4) [0; 1]
              (empty_lattice (EMPTY_of 4) 4, 0).
Proof.
  apply (Percolate_occupies_prefix 4 (topo_nn (Initialize_topology 2 0)) 4
           [0; 1; 2; 3] threshold_0_6).
  - vm_compute; reflexivity.
  - vm_compute; reflexivity.
  - vm_compute; discriminate.
Defined.

(** C2 as stated fails: on the 2 x 2 square lattice with threshold 0.6 the
    specification's count [floor(0.6 * 4) - 1] is 1, but the loop makes 2
    rounds, and the run differs from the run over one site; with the
    signed sentinel of the older engine two cells end up occupied. *)
Lemma Percolate_rounds_not_floor :
  let t := Initialize_topology 2 0 in
  let occupation := [0; 1; 2; 3] in
  rounds_as_specified threshold_0_6 4 = 1 /\
  percolate_rounds (percolate_bound threshold_0_6 4) = 2 /\
  Percolate 4 (topo_nn t) 4 occupation threshold_0_6
  <> fst <$> for_each (occupy_site (EMPTY_of 4) (topo_nn t) 4)
               (take (Z.to_nat (rounds_as_specified threshold_0_6 4)) occupation)
               (empty_lattice (EMPTY_of 4) 4, 0) /\
  Percolate_with (EMPTY_signed 4) 4 (topo_nn t) 4 occupation threshold_0_6
  = Some [1; -2; -5; -5].
Proof.
  repeat split; try (vm_compute; reflexivity). vm_compute. discriminate.
Qed.

(** ** The union step *)

Lemma at_set_eq {A} (v : list A) (i : Z) (x : A) (v' : list A) :
  set_ v i x = Some v' -> at_ v' i = Some x /\ length v' = length v.
Proof.
  unfold set_, at_. case_bool_decide as Hi; [|discriminate]. intros [= <-].
  rewrite bool_decide_eq_true_2 by lia. rewrite length_insert. split; [|done].
  apply list_lookup_insert_eq. lia.
Qed.

Lemma at_set_ne {A} (v : list A) (i j : Z) (x : A) (v' : list A) :
  set_ v i x = Some v' -> i <> j -> at_ v' j = at_ v j.
Proof.
  unfold set_, at_. case_bool_decide as Hi; [|discriminate]. intros [= <-] Hne.
  case_bool_decide; [|done]. apply list_lookup_insert_ne. lia.
Qed.

Lemma set_defined {A} (v : list A) (i : Z) (x y : A) :
  at_ v i = Some y -> exists v', set_ v i x = Some v'.
Proof.
  unfold set_, at_. case_bool_decide as Hi; [|discriminate]. intros Hl.
  apply lookup_lt_Some in Hl. rewrite bool_decide_eq_true_2 by lia. eauto.
Qed.

(** C3 (as amended): when the union step merges two distinct roots [r1]
    (root of the new site, cell value [v1]) and [r2] (root of an occupied
    neighbour, cell value [v2]), cluster sizes being the magnitudes of the
    negative cell values: if [r1]'s cluster is strictly smaller, [r1] is
    attached beneath [r2]; otherwise, a tie included, the second root [r2]
    is attached beneath the first root [r1]; the surviving root holds the
    sum of both sizes and no other cell changes. *)
Theorem union_roots_weighted (lattice : list Z) (r1 r2 v1 v2 : Z) :
  r1 <> r2 ->
  at_ lattice r1 = Some v1 -> at_ lattice r2 = Some v2 ->
  v1 < 0 -> v2 < 0 -> - 2 ^ 31 <= v1 + v2 ->
  r1 < 2 ^ 31 -> r2 < 2 ^ 31 ->
  exists lattice' r,
    union_roots lattice r1 r2 = Some (lattice', r) /\
    length lattice' = length lattice /\
    (forall k, k <> r1 -> k <> r2 -> at_ lattice' k = at_ lattice k) /\
    if bool_decide (- v1 < - v2)
    then r = r2 /\ at_ lattice' r1 = Some r2 /\ at_ lattice' r2 = Some (v1 + v2)
    else r = r1 /\ at_ lattice' r2 = Some r1 /\ at_ lattice' r1 = Some (v1 + v2).
Proof.
  intros Hne H1 H2 Hv1 Hv2 Hsum Hr1 Hr2.
  assert (0 <= r1) by (unfold at_ in H1; case_bool_decide; [lia|discriminate]).
  assert (0 <= r2) by (unfold at_ in H2; case_bool_decide; [lia|discriminate]).
  unfold union_roots. rewrite H1, H2. cbn [mbind option_bind].
  case_bool_decide as Hcmp.
  - destruct (set_defined lattice r2 (i32 (v2 + v1)) v2 H2) as [la Hla].
    rewrite Hla. cbn [mbind option_bind].
    destruct (at_set_eq _ _ _ _ Hla) as [Ea La].
    assert (H1' : at_ la r1 = Some v1) by (rewrite (at_set_ne _ _ _ _ _ Hla); auto).
    destruct (set_defined la r1 (i32 r2) v1 H1') as [lb Hlb].
    rewrite Hlb. cbn [mbind option_bind].
    destruct (at_set_eq _ _ _ _ Hlb) as [Eb Lb].
    exists lb, r2. split; [done|]. split; [congruence|]. split.
    + intros k Hk1 Hk2. rewrite (at_set_ne _ _ _ _ _ Hlb), (at_set_ne _ _ _ _ _ Hla); auto.
    + rewrite bool_decide_eq_true_2 by lia. split; [done|].
      rewrite Eb, (at_set_ne _ _ _ _ _ Hlb), Ea by auto.
      rewrite !i32_small by lia. split; [done|]. f_equal. lia.
  - destruct (set_defined lattice r1 (i32 (v1 + v2)) v1 H1) as [la Hla].
    rewrite Hla. cbn [mbind option_bind].
    destruct (at_set_eq _ _ _ _ Hla) as [Ea La].
    assert (H2' : at_ la r2 = Some v2) by (rewrite (at_set_ne _ _ _ _ _ Hla); auto).
    destruct (set_defined la r2 (i32 r1) v2 H2') as [lb Hlb].
    rewrite Hlb. cbn [mbind option_bind].
    destruct (at_set_eq _ _ _ _ Hlb) as [Eb Lb].
    exists lb, r1. split; [done|]. split; [congruence|]. split.
    + intros k Hk1 Hk2. rewrite (at_set_ne _ _ _ _ _ Hlb), (at_set_ne _ _ _ _ _ Hla); auto.
    + rewrite bool_decide_eq_false_2 by lia. split; [done|].
      rewrite Eb, (at_set_ne _ _ _ _ _ Hlb), Ea by auto.
      rewrite !i32_small by lia. done.
Qed.

Lemma union_roots_weighted_witness :
  exists lattice' r,
    union_roots [-1; -3; 1; 1] 0 1 = Some (lattice', r) /\
    length lattice' = 4%nat /\
    (forall k, k <> 0 -> k <> 1 -> at_ lattice' k = at_ [-1; -3; 1; 1] k) /\
    r = 1 /\ at_ lattice' 0 = Some 1 /\ at_ lattice' 1 = Some (-1 + -3).
Proof.
  apply (union_roots_weighted [-1; -3; 1; 1] 0 1 (-1) (-3));
    first [reflexivity | lia].
Defined.

(** C3 as stated fails on ties: for two singleton roots the union leaves
    the first root [r1] as the root (size 2) and attaches the second under
    it; this is the state of the older engine on the 2 x 2 square lattice
    after occupying site 0 and then site 1. *)
Lemma union_tie_keeps_first_root :
  union_roots [-1; -1] 1 0 = Some ([1; -2], 1) /\
  ~ tie_rule_as_specified [-1; -1] 1 0.
Proof.
  split; [reflexivity|]. intros H.
  destruct (H (-1)) as (lattice' & r & Hu & Hat); [reflexivity|reflexivity|lia|lia|].
  vm_compute in Hu. injection Hu as <- <-. vm_compute in Hat. discriminate.
Qed.

(** ** The shuffle index in double precision *)

(** C10 fails on large lattices: for [gridSize = 16385] (square,
    [N = 268468225]) the last round [i = N - 1] with the largest draw
    [u = 4294967294] computes [i + (N - i) * permConstant * u], which is
    [N - 1.6e-8] in exact arithmetic, and the sum rounds up to [N] in
    binary64: the swap index is [N], one past the last entry. *)
Theorem perm_index_leaves_range :
  let N := u32 (16385 * 16385) in
  N = 268468225 /\
  perm_index N (N - 1) 4294967294 = N /\
  ~ (N - 1 <= perm_index N (N - 1) 4294967294 <= N - 1).
Proof.
  cbv zeta. split; [vm_compute; reflexivity|].
  assert (E : perm_index (u32 (16385 * 16385)) (u32 (16385 * 16385) - 1) 4294967294
              = u32 (16385 * 16385)) by (vm_compute; reflexivity).
  split; [exact E|]. rewrite E. lia.
Qed.

(** A swap index that is not a position of [occupation] stops the
    shuffle at the bounds check of [occupation(j)]. *)
Lemma permutation_step_out_of_range `{G : Generator} (N i u : Z) (occupation : list Z)
    (g g' : rng) :
  uniform_int 0 4294967294 g = (u, g') ->
  Z.of_nat (length occupation) <= perm_index N i u ->
  permutation_step N (occupation, g) i = None.
Proof.
  intros Hu Hj. unfold permutation_step. rewrite Hu.
  destruct (at_ occupation i) as [t|]; [cbn|reflexivity].
  assert (Ho : at_ occupation (perm_index N i u) = None).
  { unfold at_. case_bool_decide; [|done]. apply lookup_ge_None. lia. }
  now rewrite Ho.
Qed.

(** On small lattices the same index stays in range, e.g. for the 10 x 10
    lattice at both ends of the draws. *)
Lemma perm_index_small_lattice :
  perm_index 100 99 4294967294 = 99 /\ perm_index 100 0 4294967294 = 99 /\
  perm_index 100 0 0 = 0 /\ perm_index 100 37 2147483647 = 68.
Proof. repeat split; vm_compute; reflexivity. Qed.

(** ** A shuffle that completes *)

(** Exchanging two elements of a list gives a rearrangement of it. *)
Lemma swap_Permutation {A} (l : list A) (i j : nat) (x y : A) :
  l !! i = Some x -> l !! j = Some y ->
  <[j := x]> (<[i := y]> l) ≡ₚ l.
Proof.
  intros Hi Hj. apply Permutation_inj. split; [now rewrite !length_insert|].
  exists (fun k => if decide (k = i) then j else if decide (k = j) then i else k).
  split.
  - intros a b. repeat case_decide; congruence.
  - intros k.
    pose proof (lookup_lt_Some _ _ _ Hi). pose proof (lookup_lt_Some _ _ _ Hj).
    destruct (decide (k = i)) as [Eki|Hki]; destruct (decide (k = j)) as [Ekj|Hkj];
      subst.
    + rewrite list_lookup_insert_eq by (rewrite length_insert; lia). congruence.
    + rewrite list_lookup_insert_ne by done.
      rewrite list_lookup_insert_eq by lia. congruence.
    + rewrite list_lookup_insert_eq by (rewrite length_insert; lia). congruence.
    + now rewrite !list_lookup_insert_ne by done.
Qed.

(** A round of the shuffle that completes has exchanged two elements. *)
Lemma permutation_step_permutes `{G : Generator} (N i : Z) (occupation occupation' : list Z)
    (g g' : rng) :
  permutation_step N (occupation, g) i = Some (occupation', g') ->
  occupation' ≡ₚ occupation.
Proof.
  unfold permutation_step. destruct (uniform_int 0 4294967294 g) as [u g1].
  intros H.
  apply bind_Some in H as (t_ & Ht & H).
  apply bind_Some in H as (oj & Hoj & H).
  apply bind_Some in H as (o1 & Ho1 & H).
  apply bind_Some in H as (o2 & Ho2 & H).
  injection H as <- <-.
  unfold at_ in Ht, Hoj. unfold set_ in Ho1, Ho2.
  repeat case_bool_decide; try discriminate.
  injection Ho1 as <-. injection Ho2 as <-.
  now apply swap_Permutation.
Qed.

Lemma permutation_rounds_permute `{G : Generator} (N : Z) (rounds : list Z)
    (start occupation : list Z) (g g' : rng) :
  for_each (permutation_step N) rounds (start, g) = Some (occupation, g') ->
  occupation ≡ₚ start.
Proof.
  revert start g. induction rounds as [|i rounds IH]; intros start g H.
  - cbn in H. now injection H as <- <-.
  - cbn in H. apply bind_Some in H as ([o1 g1] & Hstep & H).
    etrans; [exact (IH _ _ H)|]. exact (permutation_step_permutes _ _ _ _ _ _ Hstep).
Qed.

(** Hence a shuffle that completes leaves a rearrangement of [0 .. N-1]. *)
Lemma Permutation_permutes `{G : Generator} (N : Z) (g g' : rng) (occupation : list Z) :
  Permutation N g = Some (occupation, g') ->
  occupation ≡ₚ cell <$> seqZ 0 N.
Proof. apply permutation_rounds_permute. Qed.

(** ** The sentinel of the engine *)

(** [EMPTY] is [2^32 - N - 1]: computed on the unsigned [N], it never
    becomes negative. *)
Lemma EMPTY_of_value (N : Z) : 0 <= N < 2 ^ 32 -> EMPTY_of N = 2 ^ 32 - N - 1.
Proof.
  intros HN. unfold EMPTY_of, i64, u32.
  destruct (decide (N = 0)) as [->|Hne]; [reflexivity|].
  replace (- N) with (2 ^ 32 - N + (-1) * 2 ^ 32) by lia.
  rewrite Z.mod_add by lia. rewrite (Z.mod_small (2 ^ 32 - N)) by lia.
  rewrite (Z.mod_small (2 ^ 32 - N - 1)) by lia.
  rewrite Z.mod_small by lia. lia.
Qed.

(** What the first loop of [Percolate] stores is the plain [-N - 1]. *)
Lemma EMPTY_of_stored (N : Z) : 0 <= N < 2 ^ 31 -> i32 (EMPTY_of N) = - N - 1.
Proof.
  intros HN. rewrite EMPTY_of_value by lia. unfold i32.
  replace (2 ^ 32 - N - 1 + 2 ^ 31) with (2 ^ 31 - N - 1 + 1 * 2 ^ 32) by lia.
  rewrite Z.mod_add by lia. rewrite Z.mod_small by lia. lia.
Qed.

(** No [int32_t] cell compares equal to the [int64_t] [EMPTY]. *)
Lemma EMPTY_of_not_a_cell (N v : Z) : 0 <= N < 2 ^ 31 -> i32 v <> EMPTY_of N.
Proof.
  intros HN. rewrite EMPTY_of_value by lia. pose proof (i32_range v). lia.
Qed.

(** So [GetOccupiedNeighbours] keeps every neighbour. *)
Lemma occupied_among_all (N : Z) (lattice neighbours occupied : list Z) :
  0 <= N < 2 ^ 31 ->
  Forall (fun v => - 2 ^ 31 <= v < 2 ^ 31) lattice ->
  occupied_among (EMPTY_of N) lattice neighbours = Some occupied ->
  occupied = neighbours.
Proof.
  intros HN Hcells. revert occupied.
  induction neighbours as [|n rest IH]; intros occupied; cbn [occupied_among].
  - now intros [= <-].
  - destruct (at_ lattice n) as [v|] eqn:Hv; [cbn|discriminate].
    destruct (occupied_among (EMPTY_of N) lattice rest) as [occ|]; [cbn|discriminate].
    intros [= <-]. rewrite (IH occ eq_refl).
    rewrite bool_decide_eq_false_2; [done|].
    assert (Hr : - 2 ^ 31 <= v < 2 ^ 31).
    { unfold at_ in Hv. case_bool_decide; [|discriminate].
      rewrite list.Forall_forall in Hcells. apply Hcells.
      apply list_elem_of_lookup. eauto. }
    rewrite <- (i32_small v Hr). now apply EMPTY_of_not_a_cell.
Qed.

(** C1 fails on the engine.  On the 2 x 2 square lattice with threshold
    0.6 [Percolate] occupies two sites, whatever the occupation order;
    yet in the lattice it leaves no cell is [EMPTY] and the root sizes add
    up to 6, 12 or 17.  On the 10 x 10 lattice with threshold 0.6 and the
    sites taken in index order it occupies 59 sites, leaves 79 cells that
    are not [EMPTY] and a total root size of 102.  With the signed
    sentinel of the older engine the same two runs leave 2 (resp. 59)
    occupied cells and a total root size of 2 (resp. 59). *)
Theorem Percolate_breaks_forest :
  let nn2 := topo_nn (Initialize_topology 2 0) in
  let nn10 := topo_nn (Initialize_topology 10 0) in
  EMPTY_of 4 = 4294967291 /\
  percolate_rounds (percolate_bound threshold_0_6 4) = 2 /\
  Forall (fun occupation =>
            exists lattice,
              Percolate 4 nn2 4 occupation threshold_0_6 = Some lattice /\
              occupied_sites (EMPTY_of 4) lattice = [0; 1; 2; 3] /\
              roots_total (EMPTY_of 4) lattice ∈ [6; 12; 17] /\
              (exists lattice',
                 Percolate_with (EMPTY_signed 4) 4 nn2 4 occupation threshold_0_6
                 = Some lattice' /\
                 length (occupied_sites (EMPTY_of 4) lattice') = 2%nat /\
                 roots_total (EMPTY_of 4) lattice' = 2))
         (permutations [0; 1; 2; 3]) /\
  percolate_rounds (percolate_bound threshold_0_6 100) = 59 /\
  (exists lattice,
     Percolate 100 nn10 4 (seqZ 0 100) threshold_0_6 = Some lattice /\
     length (occupied_sites (EMPTY_of 100) lattice) = 79%nat /\
     roots_total (EMPTY_of 100) lattice = 102) /\
  (exists lattice,
     Percolate_with (EMPTY_signed 100) 100 nn10 4 (seqZ 0 100) threshold_0_6
     = Some lattice /\
     length (occupied_sites (EMPTY_of 100) lattice) = 59%nat /\
     roots_total (EMPTY_of 100) lattice = 59).
Proof.
  cbv zeta. split; [vm_compute; reflexivity|]. split; [vm_compute; reflexivity|].
  split.
  { apply list.Forall_forall. intros occupation Hocc.
    assert (E : permutations [0; 1; 2; 3]
                = [[0; 1; 2; 3]; [1; 0; 2; 3]; [1; 2; 0; 3]; [1; 2; 3; 0];
                   [0; 2; 1; 3]; [2; 0; 1; 3]; [2; 1; 0; 3]; [2; 1; 3; 0];
                   [0; 2; 3; 1]; [2; 0; 3; 1]; [2; 3; 0; 1]; [2; 3; 1; 0];
                   [0; 1; 3; 2]; [1; 0; 3; 2]; [1; 3; 0; 2]; [1; 3; 2; 0];
                   [0; 3; 1; 2]; [3; 0; 1; 2]; [3; 1; 0; 2]; [3; 1; 2; 0];
                   [0; 3; 2; 1]; [3; 0; 2; 1]; [3; 2; 0; 1]; [3; 2; 1; 0]])
      by (vm_compute; reflexivity).
    rewrite E in Hocc. clear E.
    repeat (apply elem_of_cons in Hocc as [->|Hocc]);
      [..|by apply elem_of_nil in Hocc];
      (eexists; split; [vm_compute; reflexivity|];
       split; [vm_compute; reflexivity|]; split;
       [vm_compute;
        first [apply list_elem_of_here
              |apply list_elem_of_further, list_elem_of_here
              |apply list_elem_of_further, list_elem_of_further, list_elem_of_here]
       |eexists; split; [vm_compute; reflexivity|];
        split; vm_compute; reflexivity]). }
  split; [vm_compute; reflexivity|]. split.
  - eexists. split; [vm_compute; reflexivity|]. split; vm_compute; reflexivity.
  - eexists. split; [vm_compute; reflexivity|]. split; vm_compute; reflexivity.
Qed.

(** ** The pool of start sites *)

(** With [walkMode] other than 1 the pool is the list of the cells that do
    not hold the stored sentinel. *)
Lemma start_pool_anywhere (EMPTY walkMode : Z) (lattice : list Z) :
  walkMode <> 1 ->
  start_pool EMPTY walkMode lattice = Some (i32 <$> occupied_sites EMPTY lattice).
Proof. intros H. unfold start_pool. now rewrite bool_decide_eq_false_2. Qed.

(** C5 fails for [walkMode = 1]: the pool holds the largest root and the
    sites whose cell points at it directly, not every site of its
    cluster.  On the 6 x 6 square lattice with threshold 0.16 and the
    occupation order 1, 0, 3, 4, 2, ... the older engine's lattice has the
    cluster {0, 1, 2, 3, 4} rooted at 4, with site 1 below site 0; the
    pool is 0, 2, 3, 4 and site 1 is missing.  On the lattice the engine
    itself leaves for that input the pool is the single site 0, while the
    largest root, site 8, has sixteen sites below it. *)
Theorem start_pool_misses_cluster_sites :
  let nn := topo_nn (Initialize_topology 6 0) in
  let occupation := [1; 0; 3; 4; 2] ++ seqZ 5 31 in
  (exists lattice,
     Percolate_with (EMPTY_signed 36) 36 nn 4 occupation threshold_0_16 = Some lattice /\
     take 5 lattice = [4; 0; 4; 4; -5] /\
     root_of 37 lattice 1 = Some 4 /\
     start_pool (EMPTY_of 36) 1 lattice = Some [0; 2; 3; 4] /\
     largest_cluster_as_specified (EMPTY_of 36) lattice = Some [0; 1; 2; 3; 4] /\
     start_pool (EMPTY_of 36) 0 lattice = Some [0; 1; 2; 3; 4]) /\
  (exists lattice,
     Percolate 36 nn 4 occupation threshold_0_16 = Some lattice /\
     start_pool (EMPTY_of 36) 1 lattice = Some [0] /\
     largest_cluster_as_specified (EMPTY_of 36) lattice
     = Some [0; 1; 2; 3; 4; 5; 6; 7; 8; 9; 10; 30; 31; 32; 33; 34]).
Proof.
  cbv zeta. split.
  - eexists. split; [vm_compute; reflexivity|].
    repeat split; vm_compute; reflexivity.
  - eexists. split; [vm_compute; reflexivity|].
    repeat split; vm_compute; reflexivity.
Qed.

(** ** The clean-up before the means in [AnalyseWalks] *)

(** C8 fails.  Two walks of three ticks, (0,0) (1,0) (1,1) and (0,0) (0,2)
    (0,2): their squared displacements from the origin at lag 1 are 1 and
    4 and the first row of [eataMSDall] is NaN for both ([TAMSD] with
    [t = delta = 1]).  When the means are taken, [eataMSDall] still holds
    the two NaN, the first row of [eaMSDall] has been cleared instead, and
    the ensemble MSD at lag 1 comes out as 0 rather than 2.5. *)
Theorem AnalyseWalks_clears_wrong_matrix :
  let w1 := [(Double.of_Z 0, Double.of_Z 0); (Double.of_Z 1, Double.of_Z 0);
             (Double.of_Z 1, Double.of_Z 1)] in
  let w2 := [(Double.of_Z 0, Double.of_Z 0); (Double.of_Z 0, Double.of_Z 2);
             (Double.of_Z 0, Double.of_Z 2)] in
  analyse_walk 3 w1
  = Some ([Double.of_Z 1; Double.of_Z 2], [Double.of_Z 1; Double.of_Z 2],
          [S754_nan; Double.of_Z 1]) /\
  analyse_walk 3 w2
  = Some ([Double.of_Z 4; Double.of_Z 4], [Double.of_Z 2; Double.of_Z 4],
          [S754_nan; Double.of_Z 4]) /\
  exists tr,
    AnalyseWalks_trace 3 [w1; w2] = Some tr /\
    tr_eataMSDall tr = [[S754_nan; Double.of_Z 1]; [S754_nan; Double.of_Z 4]] /\
    tr_eaMSDall tr = [[Double.zero; Double.of_Z 2]; [Double.zero; Double.of_Z 4]] /\
    an_eaMSD (tr_result tr) = [Double.zero; Double.of_Z 3] /\
    row_mean [Double.of_Z 1; Double.of_Z 4] = S754_finite false 5629499534213120 (-51).
Proof.
  cbv zeta. split; [vm_compute; reflexivity|]. split; [vm_compute; reflexivity|].
  eexists. split; [vm_compute; reflexivity|].
  repeat split; vm_compute; reflexivity.
Qed.

(** ** Honeycomb coordinates *)

(** The test [j >= 0] on the unsigned [j] never ends the inner loop of the
    honeycomb branch: the loop goes on until a write leaves
    [latticeCoords]. *)
Lemma honeycomb_rows_leaves_range (fuel : nat) (EMPTY : Z) (lattice : list Z) (i j : Z)
    (st : list coords * Z) :
  0 <= j -> honeycomb_rows fuel EMPTY lattice i j st = None.
Proof.
  revert j st. induction fuel as [|fuel IH]; intros j [latticeCoords count] Hj; [reflexivity|].
  cbn [honeycomb_rows]. rewrite bool_decide_eq_true_2 by done.
  destruct (cluster_tag EMPTY lattice count) as [tag|]; [|reflexivity].
  cbn [mbind option_bind]. destruct (honeycomb_point i j) as [xx yy].
  destruct (set_ latticeCoords count (xx, yy, tag)) as [latticeCoords'|]; [|reflexivity].
  cbn [mbind option_bind]. apply IH. unfold u64. apply Z.mod_pos_bound. lia.
Qed.

(** So [BuildLattice] does not complete on a honeycomb lattice. *)
Lemma BuildLattice_honeycomb_stops (EMPTY gridSize : Z) (lattice : list Z)
    (latticeCoords : list coords) :
  length latticeCoords = Z.to_nat (u32 (u32 (gridSize * gridSize) * 4)) ->
  BuildLattice EMPTY gridSize 1 lattice latticeCoords = None.
Proof.
  intros Hlen. unfold BuildLattice. rewrite bool_decide_eq_true_2 by done.
  destruct (seqZ 0 (u32 (4 * gridSize))) as [|i rounds] eqn:E.
  - cbn [for_each mbind option_bind].
    assert (H4 : u32 (4 * gridSize) = 0).
    { apply (f_equal length) in E. rewrite length_seqZ in E. cbn in E.
      pose proof (Z.mod_pos_bound (4 * gridSize) (2 ^ 32) ltac:(lia)). unfold u32 in *. lia. }
    assert (HN : u32 (u32 (gridSize * gridSize) * 4) = 0).
    { unfold u32 in *. apply Z.mod_divide in H4 as [q Hq]; [|lia].
      assert (Hg : gridSize = q * 2 ^ 30) by lia.
      rewrite Hg. replace (q * 2 ^ 30 * (q * 2 ^ 30)) with (q * q * 2 ^ 28 * 2 ^ 32) by lia.
      now rewrite Z.mod_mul by lia. }
    rewrite HN in Hlen. destruct latticeCoords; [reflexivity|discriminate].
  - cbn [for_each]. rewrite honeycomb_rows_leaves_range; [reflexivity|].
    unfold u32. apply Z.mod_pos_bound. lia.
Qed.

(** X3: a run on a honeycomb lattice never completes: it ends in
    [BuildLattice] at the latest, whatever the other parameters, the seed,
    the storage and the order of the workers. *)
Lemma Run_honeycomb_stops `{G : Generator} (c : config) (seed : Z) (device : list Z)
    (unset : storage) (schedule : list Z) :
  latticeMode c = 1 -> Run c seed device unset schedule = None.
Proof.
  intros Hmode. unfold Run, Initialize_members.
  rewrite (bool_decide_eq_true_2 (latticeMode c = 0 \/ latticeMode c = 1)) by (now right).
  unfold Initialize_topology. rewrite Hmode. rewrite !(bool_decide_eq_true_2 (1 = 1)) by done.
  cbn [topo_N topo_nn topo_neighbourCount].
  destruct (Permutation _ _) as [[occupation g]|]; [|reflexivity].
  cbn [mbind option_bind].
  destruct (Percolate _ _ _ _ _) as [lattice|]; [|reflexivity].
  cbn [mbind option_bind].
  rewrite BuildLattice_honeycomb_stops; [reflexivity|].
  unfold unset_cells. rewrite length_fmap, length_seqZ. reflexivity.
Qed.

(** ** The search for a start site *)


Section StartSearch.
Context `{G : Generator}.
Variables (EMPTY : Z) (nn : list (list Z)) (lattice latticeOnes : list Z) (cmax : Z).
Hypothesis pool_nonempty : latticeOnes <> [].
Hypothesis pool_small : Z.of_nat (length latticeOnes) < 2 ^ 31.
Hypothesis cmax_range : 0 <= cmax < 2 ^ 32 - 1.

(** Every draw of [RandSample] is a position of the pool. *)
Lemma sample_in_pool (g : rng) :
  exists k pos g', uniform_int 0 (i32 (u32 (u32 (Z.of_nat (length latticeOnes)) - 1))) g = (k, g')
                   /\ at_ latticeOnes k = Some pos /\ pos ∈ latticeOnes.
Proof.
  assert (Hlen : 0 < Z.of_nat (length latticeOnes)).
  { destruct (decide (length latticeOnes = 0%nat)) as [E|E]; [|lia].
    apply nil_length_inv in E. contradiction. }
  set (b := i32 (u32 (u32 (Z.of_nat (length latticeOnes)) - 1))).
  assert (Hb : b = Z.of_nat (length latticeOnes) - 1).
  { unfold b. rewrite (u32_small (Z.of_nat (length latticeOnes))) by lia.
    rewrite u32_small, i32_small by lia. reflexivity. }
  pose proof (uniform_int_range 0 b g ltac:(lia)) as Hk.
  destruct (uniform_int 0 b g) as [k g'] eqn:E. cbn in Hk.
  destruct (lookup_lt_is_Some_2 latticeOnes (Z.to_nat k) ltac:(lia)) as [pos Hpos].
  exists k, pos, g'. split; [done|]. split.
  - unfold at_. rewrite bool_decide_eq_true_2 by lia. exact Hpos.
  - apply list_elem_of_lookup. eauto.
Qed.

(** When no site of the pool has an occupied neighbour, every sample is
    rejected and the search ends with [countLoop = countMax]. *)
Lemma find_start_all_rejected (fuel : nat) :
  (forall pos, pos ∈ latticeOnes -> GetOccupiedNeighbours EMPTY nn lattice pos = Some []) ->
  forall (countLoop : Z) (g : rng),
    0 <= countLoop <= cmax ->
    cmax - countLoop < Z.of_nat fuel ->
    exists pos g',
      find_start fuel EMPTY nn lattice latticeOnes cmax countLoop g = Some (pos, cmax, g') /\
      pos ∈ latticeOnes.
Proof.
  intros Hlonely.
  induction fuel as [|fuel IH]; intros countLoop g Hc Hfuel; [lia|].
  cbn [find_start].
  destruct (sample_in_pool g) as (k & pos & g' & -> & -> & Hin). cbn [mbind option_bind].
  rewrite (Hlonely pos Hin). cbn [mbind option_bind length].
  rewrite (bool_decide_eq_false_2 (0 < Z.of_nat 0)) by lia. cbn [orb].
  case_bool_decide as Hcap.
  - assert (countLoop = cmax) as -> by lia. eauto.
  - rewrite u32_small by lia. apply IH; lia.
Qed.

End StartSearch.

(** ** The time-average MSD *)

(** An accumulating loop is the left fold over the values it adds. *)
Lemma for_each_accumulate {A} (term : A -> option spec_float)
    (step : spec_float -> A -> option spec_float) (l : list A) :
  (forall acc i, i ∈ l -> step acc i = x ← term i; Some (Double.add acc x)) ->
  forall acc,
    for_each step l acc = xs ← mapM term l; Some (foldl Double.add acc xs).
Proof.
  induction l as [|i l IH]; intros Hstep acc; [reflexivity|].
  cbn [for_each mapM]. rewrite Hstep by apply list_elem_of_here.
  destruct (term i) as [x|]; [cbn|reflexivity].
  rewrite IH by (intros; apply Hstep; now apply list_elem_of_further).
  destruct (mapM term l); reflexivity.
Qed.

(** [TAMSD] is the mean of the specification. *)
Lemma TAMSD_as_specified (walk : list (spec_float * spec_float)) (t delta : Z) :
  0 <= delta <= t -> t < 2 ^ 32 ->
  TAMSD walk t delta = tamsd_as_specified walk t delta.
Proof.
  intros Hd Ht. unfold TAMSD, tamsd_as_specified.
  rewrite u32_small by lia.
  rewrite (for_each_accumulate
             (fun i => '(x1, y1) ← at_ walk (i + delta);
                       '(x0, y0) ← at_ walk i;
                       Some (SquaredDist x1 x0 y1 y0))).
  - destruct (mapM _ _); reflexivity.
  - intros acc i Hi. apply elem_of_seqZ in Hi. unfold tamsd_step.
    rewrite u64_small by lia.
    destruct (at_ walk (i + delta)) as [[x1 y1]|]; [cbn|reflexivity].
    destruct (at_ walk i) as [[x0 y0]|]; reflexivity.
Qed.

(** With [delta = t] the window is empty and the mean is 0/0. *)
Lemma TAMSD_empty_window (walk : list (spec_float * spec_float)) (t : Z) :
  TAMSD walk t t = Some S754_nan.
Proof. unfold TAMSD. rewrite Z.sub_diag. reflexivity. Qed.

(** [TAMSD] returns whenever its window lies in the walk. *)
Lemma TAMSD_defined (walk : list (spec_float * spec_float)) (t delta : Z) :
  0 <= delta <= t -> t < 2 ^ 32 -> t <= Z.of_nat (length walk) ->
  is_Some (TAMSD walk t delta).
Proof.
  intros Hd Ht Hlen. rewrite TAMSD_as_specified by lia. unfold tamsd_as_specified.
  assert (Hm : is_Some (mapM (fun i => '(x1, y1) ← at_ walk (i + delta);
                                       '(x0, y0) ← at_ walk i;
                                       Some (SquaredDist x1 x0 y1 y0))
                             (seqZ 0 (t - delta)))).
  { apply mapM_is_Some. apply list.Forall_forall. intros i Hi.
    apply elem_of_seqZ in Hi. unfold compose.
    assert (Hat : forall k, 0 <= k < Z.of_nat (length walk) -> is_Some (at_ walk k)).
    { intros k Hk. unfold at_. rewrite bool_decide_eq_true_2 by lia.
      apply lookup_lt_is_Some_2. lia. }
    destruct (Hat (i + delta) ltac:(lia)) as [[x1 y1] ->].
    destruct (Hat i ltac:(lia)) as [[x0 y0] ->]. cbn. eauto. }
  destruct Hm as [xs ->]. cbn. eauto.
Qed.

(** ** The per-walk columns of [AnalyseWalks] *)

Lemma at_defined {A} (v : list A) (k : Z) :
  0 <= k < Z.of_nat (length v) -> is_Some (at_ v k).
Proof.
  intros Hk. unfold at_. rewrite bool_decide_eq_true_2 by lia.
  apply lookup_lt_is_Some_2. lia.
Qed.

Lemma analyse_lag_unfold (wl : Z) (walk : list (spec_float * spec_float))
    (origin : spec_float * spec_float) (ea ta eata : list spec_float) (j : Z) :
  analyse_lag wl walk origin (ea, ta, eata) j
  = '(sx, sy) ← at_ walk j;
    t ← TAMSD walk wl j;
    et ← TAMSD walk j 1;
    Some (ea ++ [SquaredDist sx origin.1 sy origin.2], ta ++ [t], eata ++ [et]).
Proof. reflexivity. Qed.

(** The loop over the lags appends one cell per lag to each column; the
    cell of [eataMSDall] for lag [j] is [TAMSD(walk, j, 1)]. *)
Lemma analyse_lags (wl : Z) (walk : list (spec_float * spec_float))
    (origin : spec_float * spec_float) (lags : list Z) :
  Z.of_nat (length walk) = wl -> wl < 2 ^ 32 ->
  Forall (fun j => 1 <= j < wl) lags ->
  forall ea ta eata,
  exists ea' ta' eata',
    for_each (analyse_lag wl walk origin) lags (ea, ta, eata)
    = Some (ea ++ ea', ta ++ ta', eata ++ eata') /\
    length ea' = length lags /\ length ta' = length lags /\
    Forall2 (fun j v => TAMSD walk j 1 = Some v) lags eata'.
Proof.
  intros Hlen H32 Hlags. induction Hlags as [|j lags Hj _ IH]; intros ea ta eata.
  - exists [], [], []. rewrite !app_nil_r. repeat split; constructor.
  - cbn [for_each]. rewrite analyse_lag_unfold.
    destruct (at_defined walk j ltac:(lia)) as [[sx sy] ->]. cbn [mbind option_bind].
    destruct (TAMSD_defined walk wl j ltac:(lia) ltac:(lia) ltac:(lia)) as [t ->].
    destruct (TAMSD_defined walk j 1 ltac:(lia) ltac:(lia) ltac:(lia)) as [et Het].
    rewrite Het. cbn [mbind option_bind].
    destruct (IH (ea ++ [SquaredDist sx origin.1 sy origin.2]) (ta ++ [t]) (eata ++ [et]))
      as (ea' & ta' & eata' & -> & Hea & Hta & Heata).
    exists (SquaredDist sx origin.1 sy origin.2 :: ea'), (t :: ta'), (et :: eata').
    rewrite <- !app_assoc. cbn [app length]. repeat split; try congruence.
    now constructor.
Qed.

(** The three columns of a walk of [wl >= 2] ticks have [wl - 1] cells
    each, and the first cell of its [eataMSDall] column is NaN. *)
Lemma analyse_walk_columns (wl : Z) (walk : list (spec_float * spec_float)) :
  Z.of_nat (length walk) = wl -> 2 <= wl < 2 ^ 32 ->
  exists ea ta eata,
    analyse_walk wl walk = Some (ea, ta, eata) /\
    length ea = Z.to_nat (wl - 1) /\ length ta = Z.to_nat (wl - 1) /\
    length eata = Z.to_nat (wl - 1) /\
    eata !! 0%nat = Some S754_nan.
Proof.
  intros Hlen Hwl. unfold analyse_walk.
  destruct (at_defined walk 0 ltac:(lia)) as [origin ->]. cbn [mbind option_bind].
  destruct (analyse_lags wl walk origin (seqZ 1 (wl - 1)) Hlen ltac:(lia)) with
    (ea := @nil spec_float) (ta := @nil spec_float) (eata := @nil spec_float)
    as (ea & ta & eata & Hrun & Hea & Hta & Heata).
  { apply Forall_seqZ. lia. }
  exists ea, ta, eata. cbn [app] in Hrun. rewrite length_seqZ in Hea, Hta.
  split; [exact Hrun|]. split; [exact Hea|]. split; [exact Hta|].
  assert (Hl := Heata). apply Forall2_length in Hl. rewrite length_seqZ in Hl.
  split; [lia|].
  rewrite seqZ_cons in Heata by lia. inversion Heata as [|? v ? rest Hv _]; subst.
  rewrite TAMSD_empty_window in Hv. now injection Hv as <-.
Qed.

(** ** Means over rows *)

Lemma add_nan_r (x : spec_float) : Double.add x S754_nan = S754_nan.
Proof. now destruct x. Qed.

Lemma foldl_add_nan (l : list spec_float) : foldl Double.add S754_nan l = S754_nan.
Proof. induction l as [|x l IH]; [reflexivity|]. cbn. exact IH. Qed.

Lemma robust_mean_nan_from (l : list spec_float) (k : Z) :
  (foldl (fun '(r, k) x =>
            (Double.add r (Double.div (Double.sub x r) (Double.of_Z (k + 1))), k + 1))
         (S754_nan, k) l).1 = S754_nan.
Proof.
  revert k. induction l as [|x l IH]; intros k; [reflexivity|].
  cbn [foldl]. replace (Double.add S754_nan _) with S754_nan by reflexivity. apply IH.
Qed.

(** The mean of a row that starts with a NaN is not finite. *)
Lemma row_mean_nan (row : list spec_float) :
  Double.is_finite (row_mean (S754_nan :: row)) = false.
Proof.
  unfold row_mean.
  assert (E : foldl Double.add Double.zero (S754_nan :: row) = S754_nan).
  { cbn [foldl]. rewrite add_nan_r. apply foldl_add_nan. }
  rewrite E. replace (Double.div S754_nan _) with S754_nan by reflexivity.
  cbn [Double.is_finite]. unfold robust_mean. cbn [foldl].
  replace (Double.sub S754_nan Double.zero) with S754_nan by reflexivity.
  replace (Double.div S754_nan (Double.of_Z (0 + 1))) with S754_nan by reflexivity.
  rewrite add_nan_r, robust_mean_nan_from. reflexivity.
Qed.

Lemma matrix_row_defined (X : list (list spec_float)) (rows j : nat) :
  Forall (fun col => length col = rows) X -> (j < rows)%nat ->
  is_Some (matrix_row X j).
Proof.
  intros HX Hj. unfold matrix_row. apply mapM_is_Some.
  eapply list.Forall_impl; [exact HX|]. intros col Hcol. unfold compose.
  cbv beta in Hcol. apply lookup_lt_is_Some_2. lia.
Qed.

(** [arma::mean(X, 1)] returns one mean per row when every column has
    [rows] cells. *)
Lemma mean_rows_defined (rows : nat) (X : list (list spec_float)) :
  Forall (fun col => length col = rows) X ->
  exists m, mean_rows rows X = Some m /\ length m = rows /\
            forall j row, (j < rows)%nat -> matrix_row X j = Some row ->
                          m !! j = Some (row_mean row).
Proof.
  intros HX. unfold mean_rows.
  assert (Hs : is_Some (mapM (fun j => row_mean <$> matrix_row X j) (seq 0 rows))).
  { apply mapM_is_Some. apply list.Forall_forall. intros j Hj.
    apply elem_of_seq in Hj. unfold compose.
    destruct (matrix_row_defined X rows j HX ltac:(lia)) as [row ->]. cbn. eauto. }
  destruct Hs as [m Hm]. exists m. split; [exact Hm|].
  pose proof (length_mapM _ _ _ Hm) as Hl. rewrite length_seq in Hl.
  split; [lia|]. intros j row Hj Hrow.
  apply mapM_Some_1 in Hm.
  destruct (Forall2_lookup_l _ _ _ j j Hm) as (y & Hy & Hfy).
  { apply lookup_seq. lia. }
  rewrite Hrow in Hfy. cbn in Hfy. congruence.
Qed.

Lemma zero_nonfinite_finite (v : list spec_float) :
  Forall (fun x => Double.is_finite x = true) (zero_nonfinite v).
Proof.
  unfold zero_nonfinite. apply Forall_fmap, list.Forall_forall. intros x _. cbn.
  destruct (Double.is_finite x) eqn:E; [exact E|reflexivity].
Qed.

Lemma zero_where_nonfinite_lengths (rows : nat) (X Y : list (list spec_float)) :
  Forall (fun col => length col = rows) X -> Forall (fun col => length col = rows) Y ->
  Forall (fun col => length col = rows) (zero_where_nonfinite X Y).
Proof.
  intros HX. revert Y. induction HX as [|x X Hx _ IH]; intros Y HY.
  - constructor.
  - destruct HY as [|y Y Hy HY]; [constructor|].
    unfold zero_where_nonfinite. cbn [zip_with]. constructor.
    + rewrite length_zip_with. lia.
    + now apply IH.
Qed.

(** From two ticks on the lags are [1 .. walkLength - 1] and the division
    by them goes through. *)
Lemma divide_by_lags (wl : Z) (v : list spec_float) :
  2 <= wl < 2 ^ 32 -> length v = Z.to_nat (wl - 1) ->
  divide_cells v (regspace 1 (wl - 1))
  = Some (zip_with Double.div v (Double.of_Z <$> seqZ 1 (wl - 1))).
Proof.
  intros Hwl Hlen. unfold divide_cells, regspace.
  rewrite (bool_decide_eq_true_2 (1 <= wl - 1)) by lia.
  replace (wl - 1 - 1 + 1) with (wl - 1) by lia.
  rewrite bool_decide_eq_true_2; [reflexivity|].
  rewrite length_fmap, length_seqZ. lia.
Qed.

(** The columns of all walks. *)
Lemma per_walk_columns (wl : Z) (walksCoords : list (list (spec_float * spec_float))) :
  2 <= wl < 2 ^ 32 ->
  Forall (fun walk => Z.of_nat (length walk) = wl) walksCoords ->
  exists per_walk,
    mapM (analyse_walk wl) walksCoords = Some per_walk /\
    length per_walk = length walksCoords /\
    Forall (fun r => length r.1.1 = Z.to_nat (wl - 1) /\
                     length r.1.2 = Z.to_nat (wl - 1) /\
                     length r.2 = Z.to_nat (wl - 1) /\
                     r.2 !! 0%nat = Some S754_nan) per_walk.
Proof.
  intros Hwl Hwalks. induction Hwalks as [|walk rest Hlen _ IH].
  - exists []. repeat split; constructor.
  - destruct (analyse_walk_columns wl walk Hlen Hwl)
      as (ea & ta & eata & Hrun & Hea & Hta & Heata & Hnan).
    destruct IH as (per_walk & Hm & Hl & Hall).
    exists ((ea, ta, eata) :: per_walk). cbn [mapM]. rewrite Hrun. cbn [mbind option_bind].
    change (mapM (analyse_walk wl) rest) with (mapM (analyse_walk wl) rest) in Hm.
    rewrite Hm. cbn. split; [reflexivity|]. split; [lia|].
    constructor; [|exact Hall]. cbn. auto.
Qed.

Lemma length_zero_nonfinite (v : list spec_float) : length (zero_nonfinite v) = length v.
Proof. unfold zero_nonfinite. apply length_fmap. Qed.

(** C7: [TAMSD(walk, t, delta)] is the mean, over [i] in [0, t - delta),
    of the squared displacement between ticks [i + delta] and [i]; with
    [delta = t] it is the NaN 0/0, raised as no error; that call is the
    first cell of every walk's [eataMSDall] column, and in the result of
    [AnalyseWalks] the first cell of the ensemble-time-average column is
    0 and every cell of that column is finite. *)
Theorem TAMSD_degenerate_window_neutralised (wl : Z)
    (walksCoords : list (list (spec_float * spec_float))) :
  2 <= wl < 2 ^ 32 ->
  walksCoords <> [] ->
  Forall (fun walk => Z.of_nat (length walk) = wl) walksCoords ->
  (forall walk t delta, 0 <= delta <= t -> t < 2 ^ 32 ->
     TAMSD walk t delta = tamsd_as_specified walk t delta) /\
  (forall walk t, TAMSD walk t t = Some S754_nan) /\
  (forall walk, walk ∈ walksCoords ->
     exists ea ta eata, analyse_walk wl walk = Some (ea, ta, eata) /\
                        eata !! 0%nat = TAMSD walk 1 1) /\
  exists res,
    AnalyseWalks wl walksCoords = Some res /\
    an_eataMSD res !! 0%nat = Some Double.zero /\
    Forall (fun x => Double.is_finite x = true) (an_eataMSD res).
Proof.
  intros Hwl Hne Hwalks.
  split; [intros; now apply TAMSD_as_specified|].
  split; [intros; apply TAMSD_empty_window|].
  split.
  { intros walk Hin. rewrite list.Forall_forall in Hwalks.
    destruct (analyse_walk_columns wl walk (Hwalks walk Hin) Hwl)
      as (ea & ta & eata & Hrun & _ & _ & _ & Hnan).
    exists ea, ta, eata. split; [exact Hrun|]. now rewrite TAMSD_empty_window. }
  destruct (per_walk_columns wl walksCoords Hwl Hwalks) as (per_walk & Hm & Hl & Hall).
  unfold AnalyseWalks, AnalyseWalks_trace. rewrite Hm. cbn [mbind option_bind].
  unfold analyse_columns. rewrite !(u32_small (wl - 1)) by lia.
  set (rows := Z.to_nat (wl - 1)) in *.
  set (eaMSDall := (fun w : list spec_float * list spec_float * list spec_float => w.1.1)
                     <$> per_walk).
  set (taMSD := (fun w : list spec_float * list spec_float * list spec_float => w.1.2)
                  <$> per_walk).
  set (eataMSDall := (fun w : list spec_float * list spec_float * list spec_float => w.2)
                       <$> per_walk).
  assert (Hea : Forall (fun col => length col = rows) eaMSDall).
  { apply Forall_fmap. eapply list.Forall_impl; [exact Hall|]. now intros r (? & ? & ? & ?). }
  assert (Hta : Forall (fun col => length col = rows) (zero_nonfinite <$> taMSD)).
  { apply Forall_fmap, Forall_fmap. eapply list.Forall_impl; [exact Hall|].
    intros r (? & ? & ? & ?). cbn. now rewrite length_zero_nonfinite. }
  assert (Heata : Forall (fun col => length col = rows) eataMSDall).
  { apply Forall_fmap. eapply list.Forall_impl; [exact Hall|]. now intros r (? & ? & ? & ?). }
  assert (Hsq : Forall (fun col => length col = rows) (square_cells (zero_nonfinite <$> taMSD))).
  { unfold square_cells. apply Forall_fmap. eapply list.Forall_impl; [exact Hta|].
    intros col Hcol. cbn. unfold square_vec. now rewrite length_fmap. }
  destruct (mean_rows_defined rows _ (zero_where_nonfinite_lengths rows _ _ Hea Heata))
    as (eaMSD & -> & _ & _).
  destruct (mean_rows_defined rows _ Heata) as (eataMSD & -> & Hlen & Hmean).
  destruct (mean_rows_defined rows _ Hta) as (mta & -> & Hlta & _).
  destruct (mean_rows_defined rows _ Hsq) as (mta2 & -> & Hlta2 & _).
  cbn [mbind option_bind fmap option_fmap option_map].
  rewrite (divide_by_lags wl) by
    (try lia; rewrite length_zero_nonfinite, length_zip_with; unfold square_vec;
     rewrite length_fmap; lia).
  cbn [mbind option_bind fmap option_fmap option_map].
  eexists. split; [reflexivity|]. cbn [tr_result an_eataMSD].
  split; [|apply zero_nonfinite_finite].
  (* the first row of [eataMSDall] starts with a NaN *)
  destruct per_walk as [|r per_walk]; [destruct walksCoords; [done|discriminate]|].
  apply list.Forall_cons_1 in Hall as [(_ & _ & _ & Hr0) _].
  destruct (matrix_row_defined eataMSDall rows 0 Heata ltac:(unfold rows; lia)) as [row0 Hrow0].
  assert (Hhead : exists rest, row0 = S754_nan :: rest).
  { unfold matrix_row, eataMSDall in Hrow0. cbn [fmap list_fmap mapM] in Hrow0.
    rewrite Hr0 in Hrow0. cbn [mbind option_bind] in Hrow0.
    apply bind_Some in Hrow0 as (k & _ & Hk). injection Hk as <-. eauto. }
  destruct Hhead as [rest ->].
  specialize (Hmean 0%nat _ ltac:(unfold rows; lia) Hrow0).
  unfold zero_nonfinite. rewrite list_lookup_fmap, Hmean. cbn.
  now rewrite row_mean_nan.
Qed.

Lemma TAMSD_degenerate_window_neutralised_witness :
  let w1 := [(Double.of_Z 0, Double.of_Z 0); (Double.of_Z 1, Double.of_Z 0);
             (Double.of_Z 1, Double.of_Z 1)] in
  let w2 := [(Double.of_Z 0, Double.of_Z 0); (Double.of_Z 0, Double.of_Z 2);
             (Double.of_Z 0, Double.of_Z 2)] in
  (forall walk t delta, 0 <= delta <= t -> t < 2 ^ 32 ->
     TAMSD walk t delta = tamsd_as_specified walk t delta) /\
  (forall walk t, TAMSD walk t t = Some S754_nan) /\
  (forall walk, walk ∈ [w1; w2] ->
     exists ea ta eata, analyse_walk 3 walk = Some (ea, ta, eata) /\
                        eata !! 0%nat = TAMSD walk 1 1) /\
  exists res,
    AnalyseWalks 3 [w1; w2] = Some res /\
    an_eataMSD res !! 0%nat = Some Double.zero /\
    Forall (fun x => Double.is_finite x = true) (an_eataMSD res).
Proof.
  apply (TAMSD_degenerate_window_neutralised 3).
  - lia.
  - discriminate.
  - repeat constructor.
Defined.

(** ** The ensemble MSD at the first lag *)

(** The mean of a row of zeros is zero. *)
Lemma row_mean_zeros (row : list spec_float) :
  row <> [] -> Z.of_nat (length row) < 2 ^ 53 ->
  Forall (fun x => x = Double.zero) row ->
  row_mean row = Double.zero.
Proof.
  intros Hne Hlen Hz. unfold row_mean.
  assert (Hsum : foldl Double.add Double.zero row = Double.zero).
  { clear Hne Hlen. induction Hz as [|x row -> _ IH]; [reflexivity|]. exact IH. }
  rewrite Hsum.
  assert (Hn : exists p, Z.of_nat (length row) = Zpos p).
  { destruct row; [done|]. cbn [length]. rewrite Nat2Z.inj_succ.
    destruct (Z.succ (Z.of_nat (length row))) eqn:E; try lia. eauto. }
  destruct Hn as [p Hp]. rewrite Hp in *.
  destruct (of_Z_Zpos p) as (m & e & -> & _ & _).
  { apply digits2_pos_le; lia. }
  reflexivity.
Qed.

(** X4: whatever the walks, the ensemble MSD at the first lag comes out
    as 0: the first row of [eaMSDall] is cleared at the places where the
    first row of [eataMSDall] is NaN, and that is every place. *)
Lemma AnalyseWalks_first_lag_cleared (wl : Z)
    (walksCoords : list (list (spec_float * spec_float))) :
  2 <= wl < 2 ^ 32 ->
  walksCoords <> [] ->
  Z.of_nat (length walksCoords) < 2 ^ 53 ->
  Forall (fun walk => Z.of_nat (length walk) = wl) walksCoords ->
  exists res,
    AnalyseWalks wl walksCoords = Some res /\
    an_eaMSD res !! 0%nat = Some Double.zero.
Proof.
  intros Hwl Hne Hmany Hwalks.
  destruct (per_walk_columns wl walksCoords Hwl Hwalks) as (per_walk & Hm & Hl & Hall).
  unfold AnalyseWalks, AnalyseWalks_trace. rewrite Hm. cbn [mbind option_bind].
  unfold analyse_columns. rewrite !(u32_small (wl - 1)) by lia.
  set (rows := Z.to_nat (wl - 1)) in *.
  set (eaMSDall := (fun w : list spec_float * list spec_float * list spec_float => w.1.1)
                     <$> per_walk).
  set (taMSD := (fun w : list spec_float * list spec_float * list spec_float => w.1.2)
                  <$> per_walk).
  set (eataMSDall := (fun w : list spec_float * list spec_float * list spec_float => w.2)
                       <$> per_walk).
  assert (Hea : Forall (fun col => length col = rows) eaMSDall).
  { apply Forall_fmap. eapply list.Forall_impl; [exact Hall|]. now intros r (? & ? & ? & ?). }
  assert (Hta : Forall (fun col => length col = rows) (zero_nonfinite <$> taMSD)).
  { apply Forall_fmap, Forall_fmap. eapply list.Forall_impl; [exact Hall|].
    intros r (? & ? & ? & ?). cbn. now rewrite length_zero_nonfinite. }
  assert (Heata : Forall (fun col => length col = rows) eataMSDall).
  { apply Forall_fmap. eapply list.Forall_impl; [exact Hall|]. now intros r (? & ? & ? & ?). }
  assert (Hsq : Forall (fun col => length col = rows) (square_cells (zero_nonfinite <$> taMSD))).
  { unfold square_cells. apply Forall_fmap. eapply list.Forall_impl; [exact Hta|].
    intros col Hcol. cbn. unfold square_vec. now rewrite length_fmap. }
  pose proof (zero_where_nonfinite_lengths rows _ _ Hea Heata) as Hclr.
  destruct (mean_rows_defined rows _ Hclr) as (eaMSD & -> & _ & Hmean).
  destruct (mean_rows_defined rows _ Heata) as (eataMSD & -> & _ & _).
  destruct (mean_rows_defined rows _ Hta) as (mta & -> & Hlta & _).
  destruct (mean_rows_defined rows _ Hsq) as (mta2 & -> & Hlta2 & _).
  cbn [mbind option_bind fmap option_fmap option_map].
  rewrite (divide_by_lags wl) by
    (try lia; rewrite length_zero_nonfinite, length_zip_with; unfold square_vec;
     rewrite length_fmap; lia).
  cbn [mbind option_bind fmap option_fmap option_map].
  eexists. split; [reflexivity|]. cbn [tr_result an_eaMSD].
  destruct (matrix_row_defined _ rows 0 Hclr ltac:(unfold rows; lia)) as [row0 Hrow0].
  rewrite (Hmean 0%nat row0 ltac:(unfold rows; lia) Hrow0). f_equal.
  assert (Hlen0 : length row0 = length walksCoords).
  { unfold matrix_row in Hrow0. apply length_mapM in Hrow0. rewrite <- Hrow0.
    unfold zero_where_nonfinite, eaMSDall, eataMSDall.
    rewrite length_zip_with, !length_fmap. lia. }
  apply row_mean_zeros.
  - intros ->. destruct walksCoords; [done|discriminate].
  - lia.
  - unfold matrix_row in Hrow0. apply mapM_Some_1 in Hrow0.
    apply list.Forall_forall. intros x Hx.
    apply list_elem_of_lookup in Hx as [k Hk].
    destruct (Forall2_lookup_r _ _ _ k x Hrow0 Hk) as (col & Hcol & Hx0).
    unfold zero_where_nonfinite, eaMSDall, eataMSDall in Hcol.
    apply lookup_zip_with_Some in Hcol as (ea & eata & -> & Hea' & Heata').
    apply list_lookup_fmap_Some in Heata' as (r & -> & Hr).
    rewrite list.Forall_forall in Hall.
    destruct (Hall r) as (_ & _ & _ & Hnan); [apply list_elem_of_lookup; eauto|].
    apply lookup_zip_with_Some in Hx0 as (a & b & -> & _ & Hb).
    rewrite Hnan in Hb. injection Hb as <-. reflexivity.
Qed.

(** ** The engine's sentinel in the walk stage *)

Lemma occupied_among_defined (EMPTY : Z) (lattice neighbours : list Z) :
  Forall (fun n => 0 <= n < Z.of_nat (length lattice)) neighbours ->
  is_Some (occupied_among EMPTY lattice neighbours).
Proof.
  induction 1 as [|n rest Hn _ IH]; cbn [occupied_among]; [eauto|].
  destruct (at_defined lattice n Hn) as [v ->]. cbn [mbind option_bind].
  destruct IH as [occ ->]. cbn. eauto.
Qed.

(** X1: in the engine [GetOccupiedNeighbours(pos)] returns the whole
    neighbour column of [pos], whatever the lattice holds: the test
    [lattice(...) == EMPTY] compares an [int32_t] cell with the [int64_t]
    sentinel [2^32 - N - 1] and is never true. *)
Theorem GetOccupiedNeighbours_engine_keeps_all (N : Z) (nn : list (list Z))
    (lattice : list Z) (pos : Z) (neighbours : list Z) :
  0 <= N < 2 ^ 31 ->
  Forall (fun v => - 2 ^ 31 <= v < 2 ^ 31) lattice ->
  at_ nn pos = Some neighbours ->
  Forall (fun n => 0 <= n < Z.of_nat (length lattice)) neighbours ->
  GetOccupiedNeighbours (EMPTY_of N) nn lattice pos = Some neighbours.
Proof.
  intros HN Hcells Hcol Hrange. unfold GetOccupiedNeighbours. rewrite Hcol.
  cbn [mbind option_bind].
  destruct (occupied_among_defined (EMPTY_of N) lattice neighbours Hrange) as [occ Hocc].
  rewrite Hocc. f_equal. exact (occupied_among_all N lattice neighbours occ HN Hcells Hocc).
Qed.

Lemma GetOccupiedNeighbours_engine_keeps_all_witness :
  GetOccupiedNeighbours (EMPTY_of 4) (topo_nn (Initialize_topology 2 0))
    [1; 3; 1; -6] 1 = Some [0; 0; 3; 3].
Proof.
  apply (GetOccupiedNeighbours_engine_keeps_all 4).
  - lia.
  - repeat constructor; lia.
  - reflexivity.
  - repeat constructor; cbn; lia.
Defined.

(** X2: hence the start search of the engine never rejects a sample: the
    first site drawn from the pool is accepted with [countLoop = 0], so
    the cap [countMax >= 100000] is never reached and no walk of the
    engine is the stationary one. *)
Theorem find_start_engine_accepts_first `{G : Generator} (N : Z) (nn : list (list Z))
    (lattice latticeOnes : list Z) (cmax : Z) (fuel : nat) (g : rng) :
  0 <= N < 2 ^ 31 ->
  Forall (fun v => - 2 ^ 31 <= v < 2 ^ 31) lattice ->
  latticeOnes <> [] ->
  Z.of_nat (length latticeOnes) < 2 ^ 31 ->
  (forall pos, pos ∈ latticeOnes ->
     exists neighbours, at_ nn pos = Some neighbours /\ neighbours <> [] /\
       Forall (fun n => 0 <= n < Z.of_nat (length lattice)) neighbours) ->
  exists pos g',
    find_start (S fuel) (EMPTY_of N) nn lattice latticeOnes cmax 0 g = Some (pos, 0, g') /\
    pos ∈ latticeOnes.
Proof.
  intros HN Hcells Hne Hsmall Hpool. cbn [find_start].
  destruct (sample_in_pool latticeOnes Hne Hsmall g) as (k & pos & g' & -> & -> & Hin).
  cbn [mbind option_bind].
  destruct (Hpool pos Hin) as (neighbours & Hcol & Hnn & Hrange).
  unfold GetOccupiedNeighbours. rewrite Hcol. cbn [mbind option_bind].
  destruct (occupied_among_defined (EMPTY_of N) lattice neighbours Hrange) as [occ Hocc].
  rewrite Hocc. cbn [mbind option_bind].
  rewrite (occupied_among_all N lattice neighbours occ HN Hcells Hocc).
  rewrite (bool_decide_eq_true_2 (0 < Z.of_nat (length neighbours))).
  - exists pos, g'. split; [reflexivity|done].
  - destruct neighbours; [done|]. cbn [length]. lia.
Qed.

Lemma find_start_engine_accepts_first_witness :
  exists pos g',
    @find_start lcg_generator (S (Z.to_nat (countMax 4))) (EMPTY_of 4)
      (topo_nn (Initialize_topology 2 0)) [1; 3; 1; -6] [0; 1; 2; 3] (countMax 4) 0 42
    = Some (pos, 0, g') /\
    pos ∈ [0; 1; 2; 3].
Proof.
  apply (@find_start_engine_accepts_first lcg_generator 4).
  - lia.
  - repeat constructor; lia.
  - discriminate.
  - cbn; lia.
  - intros pos Hpos.
    assert (Hcol : exists a b, at_ (topo_nn (Initialize_topology 2 0)) pos = Some [a; a; b; b] /\
                               0 <= a < 4 /\ 0 <= b < 4).
    { repeat (apply elem_of_cons in Hpos as [->|Hpos]);
        [exists 1, 2|exists 0, 3|exists 3, 0|exists 2, 1|now apply elem_of_nil in Hpos];
        (split; [reflexivity|lia]). }
    destruct Hcol as (a & b & Hcol & Ha & Hb).
    exists [a; a; b; b]. split; [exact Hcol|]. split; [discriminate|].
    repeat constructor; cbn; lia.
Defined.

Lemma Run_honeycomb_stops_witness :
  @Run lcg_generator
    (Config 2 1 3 threshold_0_6 (Double.of_Z 0) (Double.of_Z 1) (Double.of_Z 0) 1 0 1) 7 []
    (Storage 0 0 (fun _ => (Double.zero, Double.zero, Double.zero))
             (fun _ => 0) (fun _ => 0) (fun _ => 0)) [0]
  = None.
Proof.
  apply (@Run_honeycomb_stops lcg_generator). reflexivity.
Defined.

Lemma AnalyseWalks_first_lag_cleared_witness :
  let w1 := [(Double.of_Z 0, Double.of_Z 0); (Double.of_Z 1, Double.of_Z 0);
             (Double.of_Z 1, Double.of_Z 1)] in
  let w2 := [(Double.of_Z 0, Double.of_Z 0); (Double.of_Z 0, Double.of_Z 2);
             (Double.of_Z 0, Double.of_Z 2)] in
  exists res,
    AnalyseWalks 3 [w1; w2] = Some res /\
    an_eaMSD res !! 0%nat = Some Double.zero.
Proof.
  apply (AnalyseWalks_first_lag_cleared 3).
  - lia.
  - discriminate.
  - cbn; lia.
  - repeat constructor.
Defined.

Lemma cell_seqZ (N : Z) : 0 <= N < 2 ^ 31 -> cell <$> seqZ 0 N = seqZ 0 N.
Proof.
  intros HN. rewrite <- (list_fmap_id (seqZ 0 N)) at 2.
  apply list_fmap_ext. intros i x Hx.
  apply lookup_seqZ in Hx as [-> Hi]. unfold id. apply cell_small. lia.
Qed.

(** X5: every round of the shuffle that completes exchanges two entries
    of [occupation]; so whenever [Permutation] completes (no swap index
    left the array) the occupation order holds every site [0 .. N-1]
    exactly once. *)
Theorem Permutation_completes_permuted `{G : Generator} (N : Z) (g g' : rng)
    (occupation : list Z) :
  0 <= N < 2 ^ 31 ->
  Permutation N g = Some (occupation, g') ->
  occupation ≡ₚ seqZ 0 N /\ NoDup occupation /\
  forall s, s ∈ occupation <-> 0 <= s < N.
Proof.
  intros HN Hrun. apply Permutation_permutes in Hrun. rewrite cell_seqZ in Hrun by done.
  split; [exact Hrun|]. split.
  - rewrite Hrun. apply NoDup_seqZ.
  - intros s. rewrite Hrun, elem_of_seqZ. lia.
Qed.

Lemma Permutation_completes_permuted_witness :
  [1; 3; 0; 2; 4; 5] ≡ₚ seqZ 0 6 /\ NoDup [1; 3; 0; 2; 4; 5] /\
  forall s, s ∈ [1; 3; 0; 2; 4; 5] <-> 0 <= s < 6.
Proof.
  apply (@Permutation_completes_permuted lcg_generator 6 7 2553420073753464661).
  - lia.
  - vm_compute. reflexivity.
Defined.

(** ** The lattices as tori *)

Lemma succ_mod (g x : Z) :
  1 <= g -> 0 <= x < g -> (x + 1) mod g = if bool_decide (x = g - 1) then 0 else x + 1.
Proof.
  intros Hg Hx. case_bool_decide as E.
  - subst x. replace (g - 1 + 1) with (0 + 1 * g) by lia.
    rewrite Z.mod_add by lia. apply Z.mod_small. lia.
  - apply Z.mod_small. lia.
Qed.

Lemma pred_mod (g x : Z) :
  1 <= g -> 0 <= x < g -> (x - 1) mod g = if bool_decide (x = 0) then g - 1 else x - 1.
Proof.
  intros Hg Hx. case_bool_decide as E.
  - subst x. replace (0 - 1) with (g - 1 + (-1) * g) by lia.
    rewrite Z.mod_add by lia. apply Z.mod_small. lia.
  - apply Z.mod_small. lia.
Qed.

Lemma square_lookup (g a : Z) :
  1 <= g -> g * g < 2 ^ 31 -> 0 <= a < g * g ->
  at_ (topo_nn (Initialize_topology g 0)) a = Some (square_column g (g * g) a).
Proof.
  intros Hg Hgg Ha. unfold Initialize_topology.
  rewrite bool_decide_eq_false_2, bool_decide_eq_true_2 by done.
  cbn [topo_nn]. rewrite u32_small by lia. unfold BoundariesSquare.
  now apply at_fmap_seqZ.
Qed.

(** X6: [BoundariesSquare] makes the square lattice a torus of
    [gridSize] columns of [gridSize] sites: the neighbours of the site in
    column [c], row [r] (index [c * gridSize + r]) are, in the order of
    the table, the sites one row up and one row down in the same column
    and the sites of the same row in the next and in the previous column,
    all counted modulo [gridSize]. *)
Theorem BoundariesSquare_torus (g c r : Z) :
  1 <= g -> g * g < 2 ^ 31 -> 0 <= c < g -> 0 <= r < g ->
  at_ (topo_nn (Initialize_topology g 0)) (c * g + r)
  = Some [c * g + (r + 1) mod g; c * g + (r - 1) mod g;
          ((c + 1) mod g) * g + r; ((c - 1) mod g) * g + r].
Proof.
  intros Hg Hgg Hc Hr.
  rewrite square_lookup by nia. rewrite square_column_cr by lia.
  rewrite (succ_mod g r), (pred_mod g r), (succ_mod g c), (pred_mod g c) by lia.
  do 2 f_equal; [|f_equal; [|f_equal; [|f_equal]]]; case_bool_decide; lia.
Qed.

Lemma BoundariesSquare_torus_witness :
  at_ (topo_nn (Initialize_topology 3 0)) (2 * 3 + 0)
  = Some [2 * 3 + (0 + 1) mod 3; 2 * 3 + (0 - 1) mod 3;
          ((2 + 1) mod 3) * 3 + 0; ((2 - 1) mod 3) * 3 + 0].
Proof.
  apply (BoundariesSquare_torus 3 2 0); lia.
Defined.

(** X7: on a square lattice a site is its own neighbour only when
    [gridSize = 1], and its four neighbours are four different sites
    exactly when [gridSize >= 3] (for [gridSize = 2] the site above is
    also the site below, and the next column is also the previous). *)
Theorem square_neighbours_distinct (g a : Z) (col : list Z) :
  1 <= g -> g * g < 2 ^ 31 -> 0 <= a < g * g ->
  at_ (topo_nn (Initialize_topology g 0)) a = Some col ->
  (a ∈ col <-> g = 1) /\ (NoDup col <-> 3 <= g).
Proof.
  intros Hg Hgg Ha Hcol. rewrite square_lookup in Hcol by lia. injection Hcol as <-.
  destruct (cr_split g a ltac:(lia)) as [Ea Hr].
  set (c := a / g) in *. set (r := a mod g) in *. clearbody c r.
  assert (Hc : 0 <= c < g) by nia. subst a.
  rewrite square_column_cr by lia.
  assert (H0 : 0 <= c * g) by nia.
  assert (H1 : c * g + g <= g * g) by nia.
  assert (H2 : c <> 0 -> g <= c * g) by nia.
  assert (H3 : c <> g - 1 -> c * g + 2 * g <= g * g) by nia.
  assert (Hc0 : c = 0 -> c * g = 0) by (intros ->; lia).
  assert (Hcg : c = g - 1 -> c * g = g * g - g) by (intros ->; lia).
  assert (Hg3 : 3 <= g -> 3 * g <= g * g) by nia.
  assert (H4 : (g - 1) * g = g * g - g) by lia.
  assert (H5 : (c + 1) * g = c * g + g) by lia.
  assert (H6 : (c - 1) * g = c * g - g) by lia.
  rewrite H4, H5, H6. set (X := c * g) in *. set (Y := g * g) in *.
  assert (HY : g = 1 -> Y = 1) by (intros ->; reflexivity).
  assert (HY2 : g = 2 -> Y = 4) by (intros ->; reflexivity).
  clearbody X Y.
  rewrite !list.NoDup_cons, !elem_of_cons, !elem_of_nil, list.NoDup_nil.
  repeat case_bool_decide; split; split; intros; try lia.
  all: try (intuition lia).
Qed.

Lemma square_neighbours_distinct_witness :
  (4 ∈ [5; 3; 7; 1] <-> 3 = 1) /\ (NoDup [5; 3; 7; 1] <-> 3 <= 3).
Proof.
  apply (square_neighbours_distinct 3 4 [5; 3; 7; 1]); [lia|lia|lia|reflexivity].
Defined.

Lemma honeycomb_lookup (g c r : Z) :
  1 <= g -> 4 * (g * g) < 2 ^ 31 -> 0 <= c < 4 * g -> 0 <= r < g ->
  at_ (topo_nn (Initialize_topology g 1)) (c * g + r)
  = Some (honeycomb_column g (4 * (g * g)) (firstRow g) (lastRow g) (c mod 4) (c * g + r)).
Proof.
  intros Hg HN Hc Hr. unfold Initialize_topology.
  rewrite bool_decide_eq_true_2 by done. cbn [topo_nn].
  assert (Hgg : 0 <= g * g) by nia.
  rewrite (u32_small (g * g)) by lia. replace (g * g * 4) with (4 * (g * g)) by lia.
  rewrite u32_small by lia. unfold BoundariesHoneycomb.
  pose proof (honeycomb_loop_seq g (4 * (g * g)) (firstRow g) (lastRow g)
                (Z.to_nat (4 * (g * g))) 0 Hg ltac:(lia)) as Hloop.
  rewrite Z2Nat.id, Z.div_0_l in Hloop by lia. rewrite Hloop by lia. clear Hloop.
  rewrite at_fmap_seqZ by nia. cbv beta. now rewrite cr_div by lia.
Qed.

Lemma NoDup_honeycomb_cr (g c r : Z) :
  2 <= g -> 0 <= c < 4 * g -> 0 <= r < g ->
  NoDup ((c, r) :: honeycomb_cr g c r).
Proof.
  intros Hg Hc Hr. unfold honeycomb_cr.
  repeat case_bool_decide;
    rewrite !list.NoDup_cons, !elem_of_cons, !elem_of_nil, list.NoDup_nil;
    repeat split; try tauto;
    (let E := fresh "E" in
     intros E; repeat (destruct E as [E|E]); try done; injection E; intros; lia).
Qed.

Lemma site_of_inj (g : Z) (p q : Z * Z) :
  0 <= p.2 < g -> 0 <= q.2 < g -> site_of g p = site_of g q -> p = q.
Proof.
  destruct p as [c r], q as [c' r']. unfold site_of. cbn [fst snd]. intros Hr Hr' E.
  destruct (cr_inj g c r c' r' Hr Hr' E) as [-> ->]. reflexivity.
Qed.

(** X8: [BoundariesHoneycomb] lays the honeycomb lattice out as
    [4 * gridSize] columns of [gridSize] sites.  The neighbours of the
    site in column [c], row [r] are the sites of the same row in the
    previous and in the next column (modulo [4 * gridSize]) and one site
    of a neighbouring row: in the next column one row down for
    [c mod 4 = 0], in the previous column one row up for [c mod 4 = 1],
    in the next column one row up for [c mod 4 = 2], in the previous
    column one row down for [c mod 4 = 3] (rows modulo [gridSize]). *)
Theorem BoundariesHoneycomb_brick_wall (g c r : Z) :
  1 <= g -> 4 * (g * g) < 2 ^ 31 -> 0 <= c < 4 * g -> 0 <= r < g ->
  exists col,
    at_ (topo_nn (Initialize_topology g 1)) (c * g + r) = Some col /\
    length col = 3%nat /\
    forall b, b ∈ col <->
      b = ((c - 1) mod (4 * g)) * g + r \/
      b = ((c + 1) mod (4 * g)) * g + r \/
      b = (if bool_decide (c mod 4 = 0 \/ c mod 4 = 2)
           then (c + 1) mod (4 * g) else (c - 1) mod (4 * g)) * g
          + (if bool_decide (c mod 4 = 1 \/ c mod 4 = 2)
             then (r + 1) mod g else (r - 1) mod g).
Proof.
  intros Hg HN Hc Hr. eexists. split; [now apply honeycomb_lookup|].
  split; [apply length_honeycomb_column|].
  intros b. rewrite honeycomb_column_cr by lia.
  rewrite (succ_mod (4 * g) c), (pred_mod (4 * g) c), (succ_mod g r), (pred_mod g r) by lia.
  assert (Hm : c mod 4 = 0 \/ c mod 4 = 1 \/ c mod 4 = 2 \/ c mod 4 = 3) by dlia.
  unfold honeycomb_cr.
  rewrite list_elem_of_fmap. unfold site_of. split.
  - intros ([c' r'] & -> & Hin). cbn [fst snd].
    repeat case_bool_decide; try (exfalso; lia);
      rewrite !elem_of_cons, elem_of_nil in Hin;
      destruct Hin as [Hin|[Hin|[Hin|[]]]]; injection Hin as -> ->; tauto.
  - intros Hb.
    repeat case_bool_decide; try (exfalso; lia);
      destruct Hb as [-> | [-> | ->]];
      (eexists (_, _); split; [reflexivity|]); rewrite !elem_of_cons; tauto.
Qed.

Lemma BoundariesHoneycomb_brick_wall_witness :
  exists col,
    at_ (topo_nn (Initialize_topology 2 1)) (2 * 2 + 1) = Some col /\
    length col = 3%nat /\
    forall b, b ∈ col <->
      b = ((2 - 1) mod (4 * 2)) * 2 + 1 \/
      b = ((2 + 1) mod (4 * 2)) * 2 + 1 \/
      b = (if bool_decide (2 mod 4 = 0 \/ 2 mod 4 = 2)
           then (2 + 1) mod (4 * 2) else (2 - 1) mod (4 * 2)) * 2
          + (if bool_decide (2 mod 4 = 1 \/ 2 mod 4 = 2)
             then (1 + 1) mod 2 else (1 - 1) mod 2).
Proof.
  apply (BoundariesHoneycomb_brick_wall 2 2 1); lia.
Defined.

Lemma honeycomb_cr_range (g c r : Z) (p : Z * Z) :
  1 <= g -> 0 <= c < 4 * g -> 0 <= r < g ->
  p ∈ honeycomb_cr g c r -> (0 <= p.1 < 4 * g /\ 0 <= p.2 < g) /\ p.1 <> c.
Proof.
  intros Hg Hc Hr Hin. destruct p as [c' r'].
  split; [exact (proj1 (honeycomb_cr_sym g c r c' r' Hg Hc Hr Hin))|].
  unfold honeycomb_cr in Hin. cbn [fst].
  repeat case_bool_decide;
    rewrite !elem_of_cons, elem_of_nil in Hin;
    destruct Hin as [Hin|[Hin|[Hin|[]]]]; injection Hin as -> ->; lia.
Qed.

(** X9: on a honeycomb lattice no site is its own neighbour, and the
    three neighbours of a site are three different sites exactly when
    [gridSize >= 2] (for [gridSize = 1] the neighbour of the other row is
    one of the two neighbours of the same row). *)
Theorem honeycomb_neighbours_distinct (g a : Z) (col : list Z) :
  1 <= g -> 4 * (g * g) < 2 ^ 31 -> 0 <= a < 4 * (g * g) ->
  at_ (topo_nn (Initialize_topology g 1)) a = Some col ->
  (a ∉ col) /\ (NoDup col <-> 2 <= g).
Proof.
  intros Hg HN Ha Hcol.
  destruct (cr_split g a ltac:(lia)) as [Ea Hr].
  set (c := a / g) in *. set (r := a mod g) in *. clearbody c r.
  assert (Hc : 0 <= c < 4 * g) by nia. subst a.
  rewrite honeycomb_lookup in Hcol by lia. injection Hcol as <-.
  set (col := honeycomb_column _ _ _ _ _ _).
  assert (Hmem : forall b, b ∈ col <-> b ∈ site_of g <$> honeycomb_cr g c r).
  { intros b. now apply honeycomb_column_cr. }
  assert (Hlen : length col = 3%nat) by apply length_honeycomb_column.
  clearbody col. split.
  - intros Hin. apply Hmem, list_elem_of_fmap in Hin as (p & E & Hp).
    destruct (honeycomb_cr_range g c r p Hg Hc Hr Hp) as [[_ Hr'] Hne].
    apply (site_of_inj g (c, r) p) in E; [|cbn; lia|done]. subst p. now cbn in Hne.
  - split.
    + intros Hnd. destruct (decide (2 <= g)) as [|Hsmall]; [done|exfalso].
      assert (g = 1) as -> by lia. assert (r = 0) as -> by lia.
      assert (Hsub : col ⊆+ [site_of 1 ((if bool_decide (c = 0) then 3 else c - 1), 0);
                              site_of 1 ((if bool_decide (c = 3) then 0 else c + 1), 0)]).
      { apply NoDup_submseteq; [done|]. intros b Hb. apply Hmem in Hb.
        apply list_elem_of_fmap in Hb as (p & -> & Hp). unfold honeycomb_cr in Hp.
        change (4 * 1 - 1) with 3 in Hp. change (1 - 1) with 0 in Hp.
        rewrite !(bool_decide_eq_true_2 (0 = 0)) in Hp by done.
        rewrite !elem_of_cons.
        repeat case_bool_decide;
          rewrite !elem_of_cons, elem_of_nil in Hp;
          destruct Hp as [-> | [-> | [-> | []]]]; tauto. }
      apply submseteq_length in Hsub. rewrite Hlen in Hsub. cbn in Hsub. lia.
    + intros Hg2.
      assert (Hnd : NoDup (site_of g <$> honeycomb_cr g c r)).
      { apply NoDup_fmap_2_strong.
        - intros p q Hp Hq E.
          destruct (honeycomb_cr_range g c r p Hg Hc Hr Hp) as [[_ Hrp] _].
          destruct (honeycomb_cr_range g c r q Hg Hc Hr Hq) as [[_ Hrq] _].
          now apply (site_of_inj g).
        - pose proof (NoDup_honeycomb_cr g c r Hg2 Hc Hr) as Hall.
          now apply list.NoDup_cons in Hall as [_ Hall]. }
      assert (Hsub : site_of g <$> honeycomb_cr g c r ⊆+ col).
      { apply NoDup_submseteq; [done|]. intros b. apply Hmem. }
      assert (Hl : length (site_of g <$> honeycomb_cr g c r) = 3%nat).
      { rewrite length_fmap. unfold honeycomb_cr. repeat case_bool_decide; reflexivity. }
      rewrite <- (submseteq_length_Permutation _ _ Hsub); [done|]. lia.
Qed.

Lemma honeycomb_neighbours_distinct_witness :
  (5 ∉ [3; 7; 6]) /\ (NoDup [3; 7; 6] <-> 2 <= 2).
Proof.
  apply (honeycomb_neighbours_distinct 2 5 [3; 7; 6]); [lia|lia|lia|].
  vm_compute. reflexivity.
Defined.

(** ** Boundary rows and boundary flags *)

(** X10: the vectors [firstRow] and [lastRow] that [Initialize] fills for
    the honeycomb lattice have [2 * gridSize] entries each; [firstRow]
    holds exactly the sites of row 0 in the columns [c] with
    [c mod 4 = 0] or [3], [lastRow] exactly the sites of the last row in
    the columns with [c mod 4 = 1] or [2]. *)
Theorem boundary_rows (g c r : Z) :
  1 <= g -> 4 * (g * g) < 2 ^ 31 -> 0 <= c < 4 * g -> 0 <= r < g ->
  Z.of_nat (length (firstRow g)) = 2 * g /\
  Z.of_nat (length (lastRow g)) = 2 * g /\
  (c * g + r ∈ firstRow g <-> r = 0 /\ (c mod 4 = 0 \/ c mod 4 = 3)) /\
  (c * g + r ∈ lastRow g <-> r = g - 1 /\ (c mod 4 = 1 \/ c mod 4 = 2)).
Proof.
  intros Hg HN Hc Hr. pose proof (grid_bound g Hg HN) as Hb.
  unfold firstRow at 1, lastRow at 1.
  rewrite !length_fmap, !length_seqZ, u32_small by lia.
  split; [lia|]. split; [lia|]. split.
  - now apply elem_of_firstRow.
  - now apply elem_of_lastRow.
Qed.

Lemma boundary_rows_witness :
  Z.of_nat (length (firstRow 2)) = 2 * 2 /\
  Z.of_nat (length (lastRow 2)) = 2 * 2 /\
  (3 * 2 + 0 ∈ firstRow 2 <-> 0 = 0 /\ (3 mod 4 = 0 \/ 3 mod 4 = 3)) /\
  (3 * 2 + 0 ∈ lastRow 2 <-> 0 = 2 - 1 /\ (3 mod 4 = 1 \/ 3 mod 4 = 2)).
Proof.
  apply (boundary_rows 2 3 0); lia.
Defined.

Lemma last_column (g n c r : Z) :
  1 <= g -> 0 <= c < n -> 0 <= r < g ->
  (c * g + r >= n * g - g <-> c = n - 1) /\ (c * g + r < g <-> c = 0).
Proof. intros Hg Hc Hr. split; split; intros; nia. Qed.

Lemma mod4_succ (c : Z) :
  (c + 1) mod 4 = if bool_decide (c mod 4 = 3) then 0 else c mod 4 + 1.
Proof. case_bool_decide; dlia. Qed.

Lemma mod4_pred (c : Z) :
  (c - 1) mod 4 = if bool_decide (c mod 4 = 0) then 3 else c mod 4 - 1.
Proof. case_bool_decide; dlia. Qed.

Lemma mod4_last (g : Z) : (4 * g - 1) mod 4 = 3.
Proof. dlia. Qed.

Ltac decide_tests_in H :=
  repeat match type of H with
  | context [bool_decide ?P] =>
      first [ rewrite (bool_decide_eq_true_2 P) in H by lia
            | rewrite (bool_decide_eq_false_2 P) in H by lia ]
  end.

Ltac case_bool_decide_in H :=
  match type of H with
  | context [bool_decide ?P] => destruct (decide P);
      [rewrite (bool_decide_eq_true_2 P) in H by assumption
      |rewrite (bool_decide_eq_false_2 P) in H by assumption]
  end.

Ltac decide_tests :=
  repeat match goal with
  | |- context [bool_decide ?P] =>
      first [ rewrite (bool_decide_eq_true_2 P) by lia
            | rewrite (bool_decide_eq_false_2 P) by lia ]
  end.

(** X11: for [gridSize >= 2] the boundary test of [RandomWalks] flags a
    step between neighbouring honeycomb sites exactly when the step wraps
    around the lattice: 1 when it leaves row 0 downwards, 2 when it
    leaves the last row upwards, 3 when it goes from the last column to
    the first, 4 from the first to the last, and 0 for every other
    step. *)
Theorem honeycomb_boundary_flags (g c r c' r' : Z) :
  2 <= g -> 4 * (g * g) < 2 ^ 31 -> 0 <= c < 4 * g -> 0 <= r < g ->
  (c', r') ∈ honeycomb_cr g c r ->
  boundary_flag (firstRow g) (lastRow g) g (4 * (g * g) - g) (c * g + r) (c' * g + r')
  = if bool_decide ((c mod 4 = 0 \/ c mod 4 = 3) /\ r = 0 /\ r' = g - 1) then 1
    else if bool_decide ((c mod 4 = 1 \/ c mod 4 = 2) /\ r = g - 1 /\ r' = 0) then 2
    else if bool_decide (c = 4 * g - 1 /\ c' = 0) then 3
    else if bool_decide (c = 0 /\ c' = 4 * g - 1) then 4
    else 0.
Proof.
  intros Hg HN Hc Hr Hin.
  destruct (honeycomb_cr_sym g c r c' r' ltac:(lia) Hc Hr Hin) as [[Hc' Hr'] _].
  unfold boundary_flag.
  rewrite !any_eq_firstRow, !any_eq_lastRow by lia.
  replace (4 * (g * g) - g) with (4 * g * g - g) by lia.
  destruct (last_column g (4 * g) c r ltac:(lia) Hc Hr) as [Hlast Hfirst].
  destruct (last_column g (4 * g) c' r' ltac:(lia) Hc' Hr') as [Hlast' Hfirst'].
  rewrite (bool_decide_ext _ _ Hlast), (bool_decide_ext _ _ Hfirst'),
    (bool_decide_ext _ _ Hlast'), (bool_decide_ext _ _ Hfirst).
  clear Hlast Hfirst Hlast' Hfirst' Hc' Hr' HN.
  unfold honeycomb_cr in Hin.
  pose proof (Z.div_mod c 4 ltac:(lia)) as Hq.
  pose proof (Z.mod_pos_bound c 4 ltac:(lia)) as Hm.
  assert (Hcase : c mod 4 = 0 \/ c mod 4 = 1 \/ c mod 4 = 2 \/ c mod 4 = 3) by lia.
  clear Hm.
  destruct Hcase as [Hm|[Hm|[Hm|Hm]]]; rewrite Hm in Hin, Hq;
    decide_tests_in Hin;
    rewrite !elem_of_cons, elem_of_nil in Hin;
    destruct Hin as [Hin|[Hin|[Hin|[]]]];
    repeat case_bool_decide_in Hin;
    injection Hin as -> ->;
    rewrite ?mod4_last, ?Z.mod_0_l by lia;
    rewrite ?mod4_succ, ?mod4_pred, ?Hm;
    decide_tests; repeat case_bool_decide; cbn [andb]; first [reflexivity | exfalso; lia].
Qed.

Lemma honeycomb_boundary_flags_witness :
  boundary_flag (firstRow 2) (lastRow 2) 2 (4 * (2 * 2) - 2) (0 * 2 + 0) (1 * 2 + 1)
  = if bool_decide ((0 mod 4 = 0 \/ 0 mod 4 = 3) /\ 0 = 0 /\ 1 = 2 - 1) then 1
    else if bool_decide ((0 mod 4 = 1 \/ 0 mod 4 = 2) /\ 0 = 2 - 1 /\ 1 = 0) then 2
    else if bool_decide (0 = 4 * 2 - 1 /\ 1 = 0) then 3
    else if bool_decide (0 = 0 /\ 1 = 4 * 2 - 1) then 4
    else 0.
Proof.
  apply (honeycomb_boundary_flags 2 0 0 1 1); [lia|lia|lia|lia|].
  vm_compute. repeat constructor.
Defined.

Lemma boundary_flag_square (g c r c' r' : Z) :
  1 <= g -> 0 <= c < g -> 0 <= r < g -> 0 <= c' < g -> 0 <= r' < g ->
  boundary_flag [] [] g (g * g - g) (c * g + r) (c' * g + r')
  = if bool_decide (c = g - 1) && bool_decide (c' = 0) then 3
    else if bool_decide (c = 0) && bool_decide (c' = g - 1) then 4 else 0.
Proof.
  intros Hg Hc Hr Hc' Hr'. unfold boundary_flag. cbn [any_eq existsb andb].
  destruct (last_column g g c r Hg Hc Hr) as [Hlast Hfirst].
  destruct (last_column g g c' r' Hg Hc' Hr') as [Hlast' Hfirst'].
  now rewrite (bool_decide_ext _ _ Hlast), (bool_decide_ext _ _ Hfirst'),
    (bool_decide_ext _ _ Hlast'), (bool_decide_ext _ _ Hfirst).
Qed.

(** X12: on a square lattice with [gridSize >= 3] the boundary test of
    [RandomWalks] ([firstRow] and [lastRow] are empty there) flags of the
    four steps a site offers only the ones between the last and the first
    column: 3 for the step to the next column out of the last one, 4 for
    the step to the previous column out of the first one.  The steps up
    and down are never flagged, also when they wrap around the column. *)
Theorem square_boundary_flags (g c r : Z) :
  3 <= g -> 0 <= c < g -> 0 <= r < g ->
  boundary_flag [] [] g (g * g - g) (c * g + r)
    <$> [c * g + (r + 1) mod g; c * g + (r - 1) mod g;
         ((c + 1) mod g) * g + r; ((c - 1) mod g) * g + r]
  = [0; 0; (if bool_decide (c = g - 1) then 3 else 0); (if bool_decide (c = 0) then 4 else 0)].
Proof.
  intros Hg Hc Hr. cbn [fmap list_fmap].
  pose proof (Z.mod_pos_bound (r + 1) g ltac:(lia)).
  pose proof (Z.mod_pos_bound (r - 1) g ltac:(lia)).
  pose proof (Z.mod_pos_bound (c + 1) g ltac:(lia)).
  pose proof (Z.mod_pos_bound (c - 1) g ltac:(lia)).
  rewrite !boundary_flag_square by lia.
  rewrite (succ_mod g c), (pred_mod g c) by lia.
  repeat f_equal; repeat case_bool_decide; cbn [andb]; first [reflexivity | exfalso; lia].
Qed.

Lemma square_boundary_flags_witness :
  boundary_flag [] [] 3 (3 * 3 - 3) (2 * 3 + 2)
    <$> [2 * 3 + (2 + 1) mod 3; 2 * 3 + (2 - 1) mod 3;
         ((2 + 1) mod 3) * 3 + 2; ((2 - 1) mod 3) * 3 + 2]
  = [0; 0; (if bool_decide (2 = 3 - 1) then 3 else 0); (if bool_decide (2 = 0) then 4 else 0)].
Proof.
  apply (square_boundary_flags 3 2 2); lia.
Defined.

(** X13: on [nWalks >= 1] walks of [walkLength >= 2] ticks each,
    [AnalyseWalks] reads no cell out of range and returns its four
    parts with [walkLength - 1] rows: the ensemble MSD, the
    ensemble-time-average MSD, the ergodicity-breaking parameter and one
    time-average column per walk.  Whatever the coordinates (infinite or
    NaN included), no cell of the last three is infinite or NaN. *)
Theorem AnalyseWalks_returns_finite (wl : Z)
    (walksCoords : list (list (spec_float * spec_float))) :
  2 <= wl < 2 ^ 32 ->
  walksCoords <> [] ->
  Forall (fun walk => Z.of_nat (length walk) = wl) walksCoords ->
  exists res,
    AnalyseWalks wl walksCoords = Some res /\
    Z.of_nat (length (an_eaMSD res)) = wl - 1 /\
    Z.of_nat (length (an_eataMSD res)) = wl - 1 /\
    Z.of_nat (length (an_ergodicity res)) = wl - 1 /\
    length (an_taMSD res) = length walksCoords /\
    Forall (fun col => Z.of_nat (length col) = wl - 1) (an_taMSD res) /\
    Forall (Forall (fun x => Double.is_finite x = true)) (an_taMSD res) /\
    Forall (fun x => Double.is_finite x = true) (an_eataMSD res) /\
    Forall (fun x => Double.is_finite x = true) (an_ergodicity res).
Proof.
  intros Hwl Hne Hwalks.
  destruct (per_walk_columns wl walksCoords Hwl Hwalks) as (per_walk & Hm & Hl & Hall).
  unfold AnalyseWalks, AnalyseWalks_trace. rewrite Hm. cbn [mbind option_bind].
  unfold analyse_columns. rewrite !(u32_small (wl - 1)) by lia.
  set (rows := Z.to_nat (wl - 1)) in *.
  set (eaMSDall := (fun w : list spec_float * list spec_float * list spec_float => w.1.1)
                     <$> per_walk).
  set (taMSD := (fun w : list spec_float * list spec_float * list spec_float => w.1.2)
                  <$> per_walk).
  set (eataMSDall := (fun w : list spec_float * list spec_float * list spec_float => w.2)
                       <$> per_walk).
  assert (Hea : Forall (fun col => length col = rows) eaMSDall).
  { apply Forall_fmap. eapply list.Forall_impl; [exact Hall|]. now intros r (? & ? & ? & ?). }
  assert (Hta : Forall (fun col => length col = rows) (zero_nonfinite <$> taMSD)).
  { apply Forall_fmap, Forall_fmap. eapply list.Forall_impl; [exact Hall|].
    intros r (? & ? & ? & ?). cbn. now rewrite length_zero_nonfinite. }
  assert (Heata : Forall (fun col => length col = rows) eataMSDall).
  { apply Forall_fmap. eapply list.Forall_impl; [exact Hall|]. now intros r (? & ? & ? & ?). }
  assert (Hsq : Forall (fun col => length col = rows) (square_cells (zero_nonfinite <$> taMSD))).
  { unfold square_cells. apply Forall_fmap. eapply list.Forall_impl; [exact Hta|].
    intros col Hcol. cbn. unfold square_vec. now rewrite length_fmap. }
  pose proof (zero_where_nonfinite_lengths rows _ _ Hea Heata) as Hclr.
  destruct (mean_rows_defined rows _ Hclr) as (eaMSD & -> & Hl1 & _).
  destruct (mean_rows_defined rows _ Heata) as (eataMSD & -> & Hl2 & _).
  destruct (mean_rows_defined rows _ Hta) as (mta & -> & Hl3 & _).
  destruct (mean_rows_defined rows _ Hsq) as (mta2 & -> & Hl4 & _).
  cbn [mbind option_bind fmap option_fmap option_map].
  rewrite (divide_by_lags wl) by
    (try lia; rewrite length_zero_nonfinite, length_zip_with; unfold square_vec;
     rewrite length_fmap; lia).
  cbn [mbind option_bind fmap option_fmap option_map].
  eexists. split; [reflexivity|]. cbn [tr_result an_eaMSD an_eataMSD an_ergodicity an_taMSD].
  repeat split.
  - lia.
  - rewrite length_zero_nonfinite. lia.
  - rewrite length_zero_nonfinite, length_zip_with, length_zero_nonfinite, length_zip_with,
      length_fmap, length_seqZ. unfold square_vec. rewrite length_fmap. lia.
  - unfold taMSD. rewrite !length_fmap. exact Hl.
  - eapply list.Forall_impl; [exact Hta|]. intros col Hcol. cbv beta in Hcol. lia.
  - apply Forall_fmap, list.Forall_forall. intros col _. apply zero_nonfinite_finite.
  - apply zero_nonfinite_finite.
  - apply zero_nonfinite_finite.
Qed.

Lemma AnalyseWalks_returns_finite_witness :
  let w1 := [(Double.of_Z 0, Double.of_Z 0); (S754_infinity false, Double.of_Z 0);
             (Double.of_Z 1, S754_nan)] in
  exists res,
    AnalyseWalks 3 [w1] = Some res /\
    Z.of_nat (length (an_eaMSD res)) = 3 - 1 /\
    Z.of_nat (length (an_eataMSD res)) = 3 - 1 /\
    Z.of_nat (length (an_ergodicity res)) = 3 - 1 /\
    length (an_taMSD res) = length [w1] /\
    Forall (fun col => Z.of_nat (length col) = 3 - 1) (an_taMSD res) /\
    Forall (Forall (fun x => Double.is_finite x = true)) (an_taMSD res) /\
    Forall (fun x => Double.is_finite x = true) (an_eataMSD res) /\
    Forall (fun x => Double.is_finite x = true) (an_ergodicity res).
Proof.
  apply (AnalyseWalks_returns_finite 3).
  - lia.
  - discriminate.
  - repeat constructor.
Defined.

(** ** [FindRoot] on a forest *)

Lemma at_range {A} (v : list A) (i : Z) (x : A) :
  at_ v i = Some x -> 0 <= i < Z.of_nat (length v).
Proof.
  unfold at_. case_bool_decide as Hi; [|discriminate]. intros Hl. apply lookup_lt_Some in Hl. lia.
Qed.

Lemma root_of_is_root (fuel : nat) (lattice : list Z) (i r : Z) :
  root_of fuel lattice i = Some r -> exists v, at_ lattice r = Some v /\ v < 0.
Proof.
  revert i. induction fuel as [|fuel IH]; intros i; cbn [root_of]; [discriminate|].
  destruct (at_ lattice i) as [v|] eqn:Hv; [cbn [mbind option_bind]|discriminate].
  case_bool_decide.
  - intros [= <-]. eauto.
  - apply IH.
Qed.

Lemma root_of_mono (fuel fuel' : nat) (lattice : list Z) (i r : Z) :
  root_of fuel lattice i = Some r -> (fuel <= fuel')%nat -> root_of fuel' lattice i = Some r.
Proof.
  revert fuel' i. induction fuel as [|fuel IH]; intros fuel' i; cbn [root_of]; [discriminate|].
  intros H Hle. destruct fuel' as [|fuel']; [lia|]. cbn [root_of].
  destruct (at_ lattice i) as [v|]; [cbn [mbind option_bind] in *|discriminate].
  case_bool_decide; [done|]. apply IH; [done|lia].
Qed.

Lemma root_of_det (f1 f2 : nat) (lattice : list Z) (i r1 r2 : Z) :
  root_of f1 lattice i = Some r1 -> root_of f2 lattice i = Some r2 -> r1 = r2.
Proof.
  intros H1 H2.
  apply (root_of_mono _ (f1 + f2)) in H1; [|lia].
  apply (root_of_mono _ (f1 + f2)) in H2; [|lia]. congruence.
Qed.

(** Redirecting a cell that is no root to the root of its site changes
    the root of no site, and lengthens no chain. *)
Lemma root_of_set (lattice lattice' : list Z) (i r vi : Z) (fi : nat) :
  at_ lattice i = Some vi -> 0 <= vi ->
  root_of fi lattice i = Some r ->
  set_ lattice i r = Some lattice' ->
  forall f j r', root_of f lattice j = Some r' -> root_of f lattice' j = Some r'.
Proof.
  intros Hi Hvi Hroot Hset.
  destruct (root_of_is_root _ _ _ _ Hroot) as (vr & Hr & Hneg).
  assert (Hne : i <> r) by (intros ->; rewrite Hi in Hr; injection Hr as ->; lia).
  destruct (at_set_eq _ _ _ _ Hset) as [Hi' _].
  assert (Hr0 : 0 <= r) by (apply at_range in Hr; lia).
  induction f as [|f IH]; intros j r'; cbn [root_of]; [discriminate|].
  destruct (decide (j = i)) as [->|Hj].
  - rewrite Hi, Hi'. cbn [mbind option_bind].
    rewrite !bool_decide_eq_false_2 by lia. intros Hv.
    assert (r' = r) as ->.
    { apply (root_of_det (S f) fi lattice i); [|done].
      cbn [root_of]. rewrite Hi. cbn. now rewrite bool_decide_eq_false_2 by lia. }
    destruct f as [|f]; [discriminate|]. cbn [root_of].
    rewrite (at_set_ne _ _ _ _ _ Hset Hne), Hr. cbn.
    now rewrite bool_decide_eq_true_2 by lia.
  - rewrite (at_set_ne _ _ _ _ _ Hset) by done.
    destruct (at_ lattice j) as [v|]; [cbn [mbind option_bind]|discriminate].
    case_bool_decide; [done|]. apply IH.
Qed.

Lemma FindRoot_fails (fuel : nat) (lattice : list Z) (i : Z) :
  root_of fuel lattice i = None -> FindRoot fuel lattice i = None.
Proof.
  revert i. induction fuel as [|fuel IH]; intros i; cbn [root_of FindRoot]; [done|].
  destruct (at_ lattice i) as [v|]; [cbn [mbind option_bind]|done].
  case_bool_decide as Hc; [discriminate|]. intros Hnone. now rewrite (IH _ Hnone).
Qed.

Lemma FindRoot_compresses (fuel : nat) :
  forall (lattice : list Z) (i r : Z),
    Z.of_nat (length lattice) <= 2 ^ 31 ->
    root_of fuel lattice i = Some r ->
    exists lattice',
      FindRoot fuel lattice i = Some (r, lattice') /\
      length lattice' = length lattice /\
      (forall f j r', root_of f lattice j = Some r' -> root_of f lattice' j = Some r') /\
      (forall j v, at_ lattice j = Some v -> v < 0 -> at_ lattice' j = Some v) /\
      (forall j v, at_ lattice j = Some v -> 0 <= v ->
                   at_ lattice' j = Some v \/ at_ lattice' j = Some r) /\
      (forall v, at_ lattice i = Some v -> 0 <= v -> at_ lattice' i = Some r).
Proof.
  induction fuel as [|fuel IH]; intros lattice i r Hlen; cbn [root_of FindRoot]; [discriminate|].
  destruct (at_ lattice i) as [v|] eqn:Hi; [cbn [mbind option_bind]|discriminate].
  case_bool_decide as Hv.
  - intros [= <-]. exists lattice. repeat split; auto. intros v' [= <-] ?. lia.
  - intros Hroot.
    destruct (IH lattice v r Hlen Hroot) as (l1 & -> & Hl1 & Hroots & Hneg & Hpos & _).
    cbn [mbind option_bind].
    destruct (root_of_is_root _ _ _ _ Hroot) as (vr & Hr & Hvr).
    pose proof (at_range _ _ _ Hr) as Hrr.
    rewrite i32_small by lia.
    assert (Hi1 : exists v1, at_ l1 i = Some v1 /\ 0 <= v1).
    { destruct (Hpos i v Hi ltac:(lia)) as [H1|H1]; eauto with lia. }
    destruct Hi1 as (v1 & Hi1 & Hv1).
    destruct (set_defined l1 i r v1 Hi1) as [l2 Hset]. rewrite Hset.
    cbn [mbind option_bind].
    destruct (at_set_eq _ _ _ _ Hset) as [Hi2 Hl2].
    assert (Hroot1 : root_of (S fuel) l1 i = Some r).
    { apply Hroots. cbn [root_of]. rewrite Hi. cbn.
      now rewrite bool_decide_eq_false_2 by lia. }
    pose proof (root_of_set l1 l2 i r v1 (S fuel) Hi1 Hv1 Hroot1 Hset) as Hstep.
    exists l2. split; [done|]. split; [congruence|]. split; [|split; [|split]].
    + intros f j r' H. apply Hstep, Hroots, H.
    + intros j vj Hj Hvj.
      rewrite (at_set_ne _ _ _ _ _ Hset); [now apply Hneg|].
      intros <-. rewrite Hi in Hj. injection Hj as <-. lia.
    + intros j vj Hj Hvj. destruct (decide (j = i)) as [->|Hne]; [now right|].
      rewrite (at_set_ne _ _ _ _ _ Hset) by done. now apply Hpos.
    + intros _ _ _. exact Hi2.
Qed.

(** X14: [FindRoot(i)] returns the root of [i] whenever the chain of
    parent indices from [i] reaches a root (within [fuel] calls), and
    fails otherwise.  Its path compression keeps the lattice a forest
    with the same roots: every site has the same root as before, reached
    in no more steps; the cells of the roots (the cluster sizes) are
    untouched; and a cell that changed now holds the root found, as the
    cell of [i] does when [i] is not a root itself. *)
Theorem FindRoot_path_compression (fuel : nat) (lattice : list Z) (i : Z) :
  Z.of_nat (length lattice) <= 2 ^ 31 ->
  match root_of fuel lattice i with
  | None => FindRoot fuel lattice i = None
  | Some r =>
      exists lattice',
        FindRoot fuel lattice i = Some (r, lattice') /\
        length lattice' = length lattice /\
        (forall f j r', root_of f lattice j = Some r' -> root_of f lattice' j = Some r') /\
        (forall j v, at_ lattice j = Some v -> v < 0 -> at_ lattice' j = Some v) /\
        (forall j v, at_ lattice j = Some v -> 0 <= v ->
                     at_ lattice' j = Some v \/ at_ lattice' j = Some r) /\
        (forall v, at_ lattice i = Some v -> 0 <= v -> at_ lattice' i = Some r)
  end.
Proof.
  intros Hlen. destruct (root_of fuel lattice i) as [r|] eqn:Hroot.
  - now apply FindRoot_compresses.
  - now apply FindRoot_fails.
Qed.

Lemma FindRoot_path_compression_witness :
  match root_of 5 [1; 2; 3; -4; 3] 0 with
  | None => FindRoot 5 [1; 2; 3; -4; 3] 0 = None
  | Some r =>
      exists lattice',
        FindRoot 5 [1; 2; 3; -4; 3] 0 = Some (r, lattice') /\
        length lattice' = length [1; 2; 3; -4; 3] /\
        (forall f j r', root_of f [1; 2; 3; -4; 3] j = Some r' ->
                        root_of f lattice' j = Some r') /\
        (forall j v, at_ [1; 2; 3; -4; 3] j = Some v -> v < 0 -> at_ lattice' j = Some v) /\
        (forall j v, at_ [1; 2; 3; -4; 3] j = Some v -> 0 <= v ->
                     at_ lattice' j = Some v \/ at_ lattice' j = Some r) /\
        (forall v, at_ [1; 2; 3; -4; 3] 0 = Some v -> 0 <= v -> at_ lattice' 0 = Some r)
  end.
Proof.
  apply (FindRoot_path_compression 5 [1; 2; 3; -4; 3] 0). cbn. lia.
Defined.

(** ** The forest invariant of the percolation loop *)

(** ** The total of the root sizes *)

Lemma roots_total_sizes (E : Z) (lattice : list Z) :
  roots_total E lattice = foldr Z.add 0 (cell_size (i32 E) <$> lattice).
Proof.
  unfold roots_total. induction lattice as [|v l IH]; [reflexivity|].
  rewrite filter_cons. cbn [fmap list_fmap foldr]. unfold cell_size at 1.
  destruct (decide (v < 0 /\ v <> i32 E)) as [Hv|Hv].
  - rewrite bool_decide_eq_true_2 by done. cbn [fmap list_fmap foldr]. now rewrite IH.
  - rewrite bool_decide_eq_false_2 by done. now rewrite IH.
Qed.

Lemma cell_size_nonneg (E v : Z) : 0 <= cell_size E v.
Proof. unfold cell_size. case_bool_decide; lia. Qed.

Lemma sum_insert (l : list Z) (i : nat) (x y : Z) :
  l !! i = Some x -> foldr Z.add 0 (<[i := y]> l) = foldr Z.add 0 l - x + y.
Proof.
  revert i. induction l as [|a l IH]; intros [|i] Hl; try discriminate.
  - injection Hl as ->. cbn. lia.
  - change (<[S i := y]> (a :: l)) with (a :: <[i := y]> l). cbn [foldr].
    rewrite (IH i Hl). lia.
Qed.

Lemma sum_nonneg (l : list Z) : Forall (fun x => 0 <= x) l -> 0 <= foldr Z.add 0 l.
Proof. induction 1; cbn; lia. Qed.

Lemma roots_total_nonneg (E : Z) (lattice : list Z) : 0 <= roots_total E lattice.
Proof.
  rewrite roots_total_sizes. apply sum_nonneg, Forall_fmap, list.Forall_forall.
  intros v _. apply cell_size_nonneg.
Qed.

Lemma roots_total_set (E : Z) (lattice lattice' : list Z) (i v v' : Z) :
  at_ lattice i = Some v -> set_ lattice i v' = Some lattice' ->
  roots_total E lattice'
  = roots_total E lattice - cell_size (i32 E) v + cell_size (i32 E) v'.
Proof.
  intros Hat Hset. rewrite !roots_total_sizes.
  unfold set_ in Hset. case_bool_decide as Hi; [|discriminate]. injection Hset as <-.
  unfold at_ in Hat. rewrite bool_decide_eq_true_2 in Hat by lia.
  rewrite list_fmap_insert. apply sum_insert. now rewrite list_lookup_fmap, Hat.
Qed.

Lemma roots_total_one (E : Z) (lattice : list Z) (r v : Z) :
  at_ lattice r = Some v -> cell_size (i32 E) v <= roots_total E lattice.
Proof.
  intros Hr. destruct (set_defined lattice r 0 v Hr) as [l1 H1].
  pose proof (roots_total_set E _ _ _ _ 0 Hr H1) as E1.
  pose proof (roots_total_nonneg E l1). unfold cell_size at 2 in E1.
  rewrite bool_decide_eq_false_2 in E1 by lia. lia.
Qed.

Lemma roots_total_two (E : Z) (lattice : list Z) (r1 r2 v1 v2 : Z) :
  r1 <> r2 -> at_ lattice r1 = Some v1 -> at_ lattice r2 = Some v2 ->
  cell_size (i32 E) v1 + cell_size (i32 E) v2 <= roots_total E lattice.
Proof.
  intros Hne H1 H2. destruct (set_defined lattice r1 0 v1 H1) as [l1 Hl1].
  pose proof (roots_total_set E _ _ _ _ 0 H1 Hl1) as E1.
  assert (H2' : at_ l1 r2 = Some v2) by (rewrite (at_set_ne _ _ _ _ _ Hl1); auto).
  pose proof (roots_total_one E l1 r2 v2 H2').
  unfold cell_size at 2 in E1. rewrite bool_decide_eq_false_2 in E1 by lia. lia.
Qed.

(** Cells that keep their value when it is negative, and stay
    non-negative otherwise, keep the total. *)
Lemma roots_total_same_roots (E : Z) (l l' : list Z) :
  Forall2 (fun v v' => (v < 0 -> v' = v) /\ (0 <= v -> 0 <= v')) l l' ->
  roots_total E l' = roots_total E l.
Proof.
  intros H. rewrite !roots_total_sizes. induction H as [|v v' l l' [Hn Hp] _ IH]; [done|].
  cbn [fmap list_fmap foldr]. rewrite IH. f_equal. unfold cell_size.
  destruct (decide (v < 0)) as [Hv|Hv].
  - now rewrite (Hn Hv).
  - specialize (Hp ltac:(lia)). rewrite !bool_decide_eq_false_2 by lia. done.
Qed.

(** ** The invariant through [FindRoot] *)

Lemma at_in_range (N : Z) (lattice : list Z) (i : Z) :
  Z.of_nat (length lattice) = N -> 0 <= i < N -> exists v, at_ lattice i = Some v.
Proof. intros Hl Hi. apply (at_defined lattice i). lia. Qed.

(** In a forest every occupied site reaches its root within [N] steps. *)
Lemma forest_root (N : Z) (occupied : list Z) (rank : Z -> nat) (lattice : list Z) :
  forest_inv N occupied rank lattice ->
  forall (fuel : nat) (i : Z),
    i ∈ occupied -> N - Z.of_nat (rank i) <= Z.of_nat fuel ->
    exists r v, root_of fuel lattice i = Some r /\ r ∈ occupied /\
                at_ lattice r = Some v /\ v < 0 /\ (rank i <= rank r)%nat /\
                (forall w, at_ lattice i = Some w -> 0 <= w -> (rank i < rank r)%nat).
Proof.
  intros Inv. induction fuel as [|fuel IH]; intros i Hi Hfuel.
  - pose proof (inv_rank _ _ _ _ Inv i Hi). lia.
  - destruct (at_in_range N lattice i (inv_length _ _ _ _ Inv) (inv_sites _ _ _ _ Inv i Hi))
      as [v Hv].
    cbn [root_of]. rewrite Hv. cbn [mbind option_bind].
    destruct (inv_cells _ _ _ _ Inv i v Hi Hv) as [[Hneg _]|(Hpos & Hin & Hrk)].
    + rewrite bool_decide_eq_true_2 by done. exists i, v.
      repeat split; try done. intros w [= <-] ?. lia.
    + rewrite bool_decide_eq_false_2 by lia.
      destruct (IH v Hin ltac:(lia)) as (r & vr & Hr & Hro & Hvr & Hn & Hle & _).
      exists r, vr. repeat split; first [done | lia | (intros _ _ _; lia)].
Qed.

Lemma Forall2_at (P : Z -> Z -> Prop) (l l' : list Z) :
  length l' = length l ->
  (forall j v, at_ l j = Some v -> exists v', at_ l' j = Some v' /\ P v v') ->
  Forall2 P l l'.
Proof.
  intros Hlen H. apply Forall2_same_length_lookup_2; [done|].
  intros i x y Hx Hy.
  destruct (H (Z.of_nat i) x) as (v' & Hv' & HP); [now rewrite at_lookup|].
  rewrite at_lookup in Hv'. congruence.
Qed.

Lemma FindRoot_inv (N : Z) (occupied : list Z) (rank : Z -> nat) (lattice : list Z) (s2 : Z) :
  0 <= N < 2 ^ 31 - 1 ->
  forest_inv N occupied rank lattice ->
  s2 ∈ occupied ->
  exists r2 v2 lattice',
    FindRoot (S (length lattice)) lattice s2 = Some (r2, lattice') /\
    forest_inv N occupied rank lattice' /\
    r2 ∈ occupied /\ at_ lattice' r2 = Some v2 /\ v2 < 0 /\
    (forall j v, at_ lattice j = Some v -> v < 0 -> at_ lattice' j = Some v) /\
    root_of (S (length lattice)) lattice s2 = Some r2 /\
    (forall f j r', root_of f lattice j = Some r' -> root_of f lattice' j = Some r').
Proof.
  intros HN Inv Hs2.
  pose proof (inv_length _ _ _ _ Inv) as Hlen.
  destruct (forest_root N occupied rank lattice Inv (S (length lattice)) s2 Hs2 ltac:(lia))
    as (r2 & v2 & Hroot & Hr2 & Hv2 & Hneg2 & _ & _).
  destruct (FindRoot_compresses (S (length lattice)) lattice s2 r2 ltac:(lia) Hroot)
    as (l' & Hfind & Hl' & Hroots & Hnegs & Hposs & _).
  exists r2, v2, l'. split; [exact Hfind|]. split; [|auto 10].
  assert (Hcell : forall i, 0 <= i < N -> exists v v', at_ lattice i = Some v /\
            at_ l' i = Some v' /\ ((v < 0 /\ v' = v) \/ (0 <= v /\ (v' = v \/ v' = r2)))).
  { intros i Hi. destruct (at_in_range N lattice i Hlen Hi) as [v Hv].
    destruct (decide (v < 0)) as [Hn|Hn].
    - exists v, v. split; [done|]. split; [now apply Hnegs|]. left. done.
    - destruct (Hposs i v Hv ltac:(lia)) as [H|H]; exists v; eexists; eauto 10 with lia. }
  assert (Hr2pos : 0 <= r2) by (apply at_range in Hv2; lia).
  constructor.
  - lia.
  - apply (inv_sites _ _ _ _ Inv).
  - apply (inv_count _ _ _ _ Inv).
  - intros i Hi. destruct (Hcell i Hi) as (v & v' & Hv & Hv' & Hcase).
    rewrite <- (inv_empty _ _ _ _ Inv i Hi). rewrite Hv, Hv'.
    destruct Hcase as [[? ->]|[? [->| ->]]]; split; intros [= E]; try lia; now rewrite E.
  - intros i v' Hi Hv'.
    destruct (Hcell i (inv_sites _ _ _ _ Inv i Hi)) as (v & v'' & Hv & Hv'' & Hcase).
    rewrite Hv' in Hv''. injection Hv'' as <-.
    destruct (inv_cells _ _ _ _ Inv i v Hi Hv) as [[Hneg Hsz]|(Hpos & Hin & Hrk)].
    + left. destruct Hcase as [[_ ->]|[? _]]; [done|lia].
    + right. destruct Hcase as [[? _]|[_ [->| ->]]]; [lia|done|].
      split; [done|]. split; [done|].
      destruct (forest_root N occupied rank lattice Inv (S (length lattice)) i Hi ltac:(lia))
        as (ri & vi & Hri & _ & _ & _ & _ & Hlt).
      assert (ri = r2) as ->.
      { apply Hroots in Hri.
        apply (root_of_det _ 2 l' i _ _ Hri). cbn [root_of]. rewrite Hv'.
        cbn [mbind option_bind]. rewrite bool_decide_eq_false_2 by lia.
        rewrite (Hnegs r2 v2 Hv2 Hneg2). cbn. now rewrite bool_decide_eq_true_2. }
      now apply (Hlt v).
  - apply (inv_rank _ _ _ _ Inv).
  - rewrite <- (inv_total _ _ _ _ Inv). apply roots_total_same_roots.
    apply Forall2_at; [done|]. intros j v Hv.
    destruct (Hcell j ltac:(apply at_range in Hv; lia)) as (w & v' & Hw & Hv' & Hcase).
    rewrite Hv in Hw. injection Hw as <-. exists v'. split; [done|].
    destruct Hcase as [[? ->]|[? [->| ->]]]; split; intros; lia.
Qed.

(** ** The invariant through the union step *)

Lemma signed_sentinel (N : Z) : 0 <= N < 2 ^ 31 - 1 -> i32 (- N - 1) = - N - 1.
Proof. intros. apply i32_small. lia. Qed.

Lemma occupied_not_empty (N : Z) (occupied : list Z) (rank : Z -> nat) (lattice : list Z)
    (i v : Z) :
  forest_inv N occupied rank lattice -> i ∈ occupied -> at_ lattice i = Some v ->
  v <> - N - 1.
Proof.
  intros Inv Hi Hv ->.
  now apply (inv_empty _ _ _ _ Inv i (inv_sites _ _ _ _ Inv i Hi)) in Hv.
Qed.

(** Linking the root [C] beneath the root [R]. *)
Lemma link_inv (N : Z) (occupied : list Z) (rank : Z -> nat) (lattice l1 l2 : list Z)
    (R C vR vC : Z) :
  0 <= N < 2 ^ 31 - 1 ->
  forest_inv N occupied rank lattice ->
  R <> C -> R ∈ occupied -> C ∈ occupied ->
  at_ lattice R = Some vR -> at_ lattice C = Some vC -> vR < 0 -> vC < 0 ->
  set_ lattice R (i32 (vR + vC)) = Some l1 -> set_ l1 C (i32 R) = Some l2 ->
  forest_inv N occupied
    (fun x => if bool_decide (x = R) then Nat.max (rank R) (S (rank C)) else rank x) l2 /\
  at_ l2 R = Some (vR + vC) /\ vR + vC < 0 /\
  (forall f i ri, root_of f lattice i = Some ri ->
     root_of (S f) l2 i = Some (if bool_decide (ri = C) then R else ri)).
Proof.
  intros HN Inv Hne HR HC HvR HvC HnR HnC Hs1 Hs2.
  pose proof (occupied_not_empty _ _ _ _ _ _ Inv HR HvR) as HeR.
  pose proof (occupied_not_empty _ _ _ _ _ _ Inv HC HvC) as HeC.
  pose proof (roots_total_two (- N - 1) lattice R C vR vC Hne HvR HvC) as Hsz.
  rewrite (inv_total _ _ _ _ Inv), signed_sentinel in Hsz by done.
  unfold cell_size in Hsz. rewrite !bool_decide_eq_true_2 in Hsz by done.
  pose proof (inv_count _ _ _ _ Inv) as Hcount.
  pose proof (inv_sites _ _ _ _ Inv R HR) as HRr.
  pose proof (inv_sites _ _ _ _ Inv C HC) as HCr.
  rewrite i32_small in Hs1 by lia. rewrite i32_small in Hs2 by lia.
  destruct (at_set_eq _ _ _ _ Hs1) as [E1 L1]. destruct (at_set_eq _ _ _ _ Hs2) as [E2 L2].
  assert (ER : at_ l2 R = Some (vR + vC)).
  { rewrite (at_set_ne _ _ _ _ _ Hs2) by auto. exact E1. }
  assert (Eo : forall i, i <> R -> i <> C -> at_ l2 i = at_ lattice i).
  { intros i H1 H2. rewrite (at_set_ne _ _ _ _ _ Hs2), (at_set_ne _ _ _ _ _ Hs1); auto. }
  destruct (inv_cells _ _ _ _ Inv R vR HR HvR) as [[_ HrR]|[? _]]; [|lia].
  destruct (inv_cells _ _ _ _ Inv C vC HC HvC) as [[_ HrC]|[? _]]; [|lia].
  split; [|split; [exact ER|split; [lia|]]]; [constructor|].
  - rewrite L2, L1. apply (inv_length _ _ _ _ Inv).
  - apply (inv_sites _ _ _ _ Inv).
  - exact Hcount.
  - intros i Hi. destruct (decide (i = R)) as [->|HiR]; [|destruct (decide (i = C)) as [->|HiC]].
    + rewrite ER. split; [intros [= E]; lia|intros H; contradiction].
    + rewrite E2. split; [intros [= E]; lia|intros H; contradiction].
    + rewrite Eo by done. apply (inv_empty _ _ _ _ Inv i Hi).
  - intros i v Hi Hv.
    destruct (decide (i = R)) as [->|HiR]; [|destruct (decide (i = C)) as [->|HiC]].
    + rewrite ER in Hv. injection Hv as <-. left.
      rewrite bool_decide_eq_true_2 by done. lia.
    + rewrite E2 in Hv. injection Hv as <-. right.
      rewrite bool_decide_eq_false_2 by auto. rewrite bool_decide_eq_true_2 by done.
      split; [lia|]. split; [done|lia].
    + rewrite Eo in Hv by done. rewrite (bool_decide_eq_false_2 (i = R)) by done.
      destruct (inv_cells _ _ _ _ Inv i v Hi Hv) as [Hl|(Hp & Hin & Hrk)]; [now left|right].
      split; [done|]. split; [done|]. case_bool_decide as Ev; [subst v|]; lia.
  - intros i Hi. case_bool_decide as HiR.
    + pose proof (inv_rank _ _ _ _ Inv R HR). lia.
    + apply (inv_rank _ _ _ _ Inv i Hi).
  - rewrite (roots_total_set _ _ _ _ _ _ (eq_trans (at_set_ne _ _ _ _ _ Hs1 Hne) HvC) Hs2).
    rewrite (roots_total_set _ _ _ _ _ _ HvR Hs1).
    rewrite (inv_total _ _ _ _ Inv), signed_sentinel by done.
    unfold cell_size.
    rewrite (bool_decide_eq_true_2 (vR < 0 /\ _)), (bool_decide_eq_true_2 (vC < 0 /\ _)),
      (bool_decide_eq_true_2 (vR + vC < 0 /\ _)), (bool_decide_eq_false_2 (R < 0 /\ _))
      by (try done; lia).
    lia.
  - induction f as [|f IH]; intros i ri; [discriminate|].
    cbn [root_of]. destruct (at_ lattice i) as [v|] eqn:Hv; [cbn [mbind option_bind]|discriminate].
    case_bool_decide as Hneg.
    + intros [= <-].
      destruct (decide (i = R)) as [->|HiR]; [|destruct (decide (i = C)) as [->|HiC]].
      * rewrite ER. cbn [mbind option_bind]. rewrite bool_decide_eq_true_2 by lia.
        now rewrite bool_decide_eq_false_2 by done.
      * rewrite E2. cbn [mbind option_bind]. rewrite bool_decide_eq_false_2 by lia.
        rewrite (bool_decide_eq_true_2 (C = C)) by done.
        destruct f as [|f]; cbn [root_of]; rewrite ER; cbn [mbind option_bind];
          now rewrite bool_decide_eq_true_2 by lia.
      * rewrite Eo, Hv by done. cbn [mbind option_bind].
        rewrite bool_decide_eq_true_2 by done. now rewrite bool_decide_eq_false_2 by done.
    + intros Hroot.
      assert (i <> R) by (intros ->; rewrite HvR in Hv; injection Hv as ->; lia).
      assert (i <> C) by (intros ->; rewrite HvC in Hv; injection Hv as ->; lia).
      rewrite Eo, Hv by done. cbn [mbind option_bind].
      rewrite bool_decide_eq_false_2 by done. now apply IH.
Qed.

Lemma union_roots_inv (N : Z) (occupied : list Z) (rank : Z -> nat) (lattice : list Z)
    (r1 r2 v1 v2 : Z) :
  0 <= N < 2 ^ 31 - 1 ->
  forest_inv N occupied rank lattice ->
  r1 <> r2 -> r1 ∈ occupied -> r2 ∈ occupied ->
  at_ lattice r1 = Some v1 -> at_ lattice r2 = Some v2 -> v1 < 0 -> v2 < 0 ->
  exists lattice' r v rank',
    union_roots lattice r1 r2 = Some (lattice', r) /\
    forest_inv N occupied rank' lattice' /\
    r ∈ occupied /\ at_ lattice' r = Some v /\ v < 0 /\
    (r = r1 \/ r = r2) /\
    (forall f i ri, root_of f lattice i = Some ri ->
       root_of (S f) lattice' i = Some (if bool_decide (ri = r1 \/ ri = r2) then r else ri)).
Proof.
  intros HN Inv Hne H1 H2 Hv1 Hv2 Hn1 Hn2.
  unfold union_roots. rewrite Hv1, Hv2. cbn [mbind option_bind].
  case_bool_decide as Hcmp.
  - destruct (set_defined lattice r2 (i32 (v2 + v1)) v2 Hv2) as [la Hla].
    rewrite Hla. cbn [mbind option_bind].
    assert (H1' : at_ la r1 = Some v1) by (rewrite (at_set_ne _ _ _ _ _ Hla); auto).
    destruct (set_defined la r1 (i32 r2) v1 H1') as [lb Hlb].
    rewrite Hlb. cbn [mbind option_bind].
    destruct (link_inv N occupied rank lattice la lb r2 r1 v2 v1 HN Inv
                ltac:(auto) H2 H1 Hv2 Hv1 Hn2 Hn1 Hla Hlb) as (Inv' & Er & Hneg & Hmap).
    eexists lb, r2, (v2 + v1), _. split; [reflexivity|]. split; [exact Inv'|].
    split; [done|]. split; [done|]. split; [done|]. split; [now right|].
    intros f i ri Hri. rewrite (Hmap f i ri Hri).
    repeat case_bool_decide; try done; try tauto; destruct_or?; congruence.
  - destruct (set_defined lattice r1 (i32 (v1 + v2)) v1 Hv1) as [la Hla].
    rewrite Hla. cbn [mbind option_bind].
    assert (H2' : at_ la r2 = Some v2) by (rewrite (at_set_ne _ _ _ _ _ Hla); auto).
    destruct (set_defined la r2 (i32 r1) v2 H2') as [lb Hlb].
    rewrite Hlb. cbn [mbind option_bind].
    destruct (link_inv N occupied rank lattice la lb r1 r2 v1 v2 HN Inv
                Hne H1 H2 Hv1 Hv2 Hn1 Hn2 Hla Hlb) as (Inv' & Er & Hneg & Hmap).
    eexists lb, r1, (v1 + v2), _. split; [reflexivity|]. split; [exact Inv'|].
    split; [done|]. split; [done|]. split; [done|]. split; [now left|].
    intros f i ri Hri. rewrite (Hmap f i ri Hri).
    repeat case_bool_decide; try done; try tauto; destruct_or?; congruence.
Qed.

(** ** Undirected reachability *)

Lemma rtsc_sym {A} (R : relation A) (x y : A) : rtsc R x y -> rtsc R y x.
Proof.
  induction 1 as [|x y z Hxy _ IH]; [apply rtc_refl|].
  unfold rtsc in *. etrans; [exact IH|]. apply rtc_once. destruct Hxy; [now right|now left].
Qed.

Lemma rtsc_sub {A} (R R' : relation A) (x y : A) :
  (forall a b, R a b -> rtsc R' a b) -> rtsc R x y -> rtsc R' x y.
Proof.
  intros Hsub. induction 1 as [|x y z Hxy _ IH]; [apply rtc_refl|].
  unfold rtsc in *. etrans; [|exact IH].
  destruct Hxy as [H|H]; [now apply Hsub|]. apply rtsc_sym. now apply Hsub.
Qed.

Lemma rtsc_iff {A} (R R' : relation A) (x y : A) :
  (forall a b, R a b <-> R' a b) -> rtsc R x y <-> rtsc R' x y.
Proof.
  intros Heq. split; apply rtsc_sub; intros a b Hab; apply rtc_once; left; now apply Heq.
Qed.

(** Reachability after one more edge [a - b]. *)
Lemma rtsc_add_edge {A} (R : relation A) (a b x y : A) :
  rtsc (fun u v => R u v \/ (u = a /\ v = b)) x y <->
  rtsc R x y \/ (rtsc R x a /\ rtsc R b y) \/ (rtsc R x b /\ rtsc R a y).
Proof.
  split.
  - induction 1 as [x|x y z Hxy _ IH]; [left; apply rtc_refl|].
    assert (Hstep : rtsc R x y \/ (x = a /\ y = b) \/ (x = b /\ y = a)).
    { destruct Hxy as [[H|[-> ->]]|[H|[-> ->]]]; auto.
      - left. apply rtc_once. now left.
      - left. apply rtc_once. now right. }
    destruct Hstep as [Hs|[[-> ->]|[-> ->]]].
    + destruct IH as [H|[[H1 H2]|[H1 H2]]].
      * left. now transitivity y.
      * right; left. split; [now transitivity y|done].
      * right; right. split; [now transitivity y|done].
    + destruct IH as [H|[[H1 H2]|[H1 H2]]].
      * right; left. split; [apply rtc_refl|done].
      * right; left. split; [apply rtc_refl|done].
      * left. done.
    + destruct IH as [H|[[H1 H2]|[H1 H2]]].
      * right; right. split; [apply rtc_refl|done].
      * left. done.
      * right; right. split; [apply rtc_refl|done].
  - assert (Hold : forall u v, rtsc R u v -> rtsc (fun u v => R u v \/ (u = a /\ v = b)) u v).
    { intros u v. apply rtsc_sub. intros p q Hpq. apply rtc_once. left. now left. }
    assert (Hab : rtsc (fun u v => R u v \/ (u = a /\ v = b)) a b).
    { apply rtc_once. left. now right. }
    intros [H|[[H1 H2]|[H1 H2]]].
    + now apply Hold.
    + transitivity a; [now apply Hold|]. transitivity b; [done|now apply Hold].
    + transitivity b; [now apply Hold|]. transitivity a; [now apply rtsc_sym|now apply Hold].
Qed.

(** A point no edge touches reaches only itself. *)
Lemma rtsc_isolated {A} (R : relation A) (x y : A) :
  (forall u, ~ R x u /\ ~ R u x) -> rtsc R x y -> y = x.
Proof.
  intros Hiso H. destruct H as [|x y z Hxy _]; [done|].
  destruct (Hiso y) as [H1 H2]. destruct Hxy; contradiction.
Qed.

Lemma rtsc_rtc {A} (R : relation A) (x y : A) :
  (forall a b, R a b -> R b a) -> rtsc R x y -> rtc R x y.
Proof.
  intros Hsym. induction 1 as [|x y z Hxy _ IH]; [apply rtc_refl|].
  eapply rtc_l; [|exact IH]. destruct Hxy; auto.
Qed.

(** ** Clusters through the occupation loop *)

Lemma same_cluster_roots (lattice : list Z) (i j ri rj : Z) (fi fj : nat) :
  root_of fi lattice i = Some ri -> root_of fj lattice j = Some rj ->
  same_cluster lattice i j <-> ri = rj.
Proof.
  intros Hi Hj. split.
  - intros (f & r & Hi' & Hj').
    rewrite (root_of_det _ _ _ _ _ _ Hi Hi'). apply (root_of_det _ _ _ _ _ _ Hj' Hj).
  - intros <-. exists (fi + fj)%nat, ri.
    split; eapply root_of_mono; eauto; lia.
Qed.

Lemma same_cluster_map (lattice lattice' : list Z) (m : Z -> Z) (g : nat -> nat)
    (i j ri rj : Z) (fi fj : nat) :
  (forall f x r, root_of f lattice x = Some r -> root_of (g f) lattice' x = Some (m r)) ->
  root_of fi lattice i = Some ri -> root_of fj lattice j = Some rj ->
  same_cluster lattice' i j <-> m ri = m rj.
Proof.
  intros Hmap Hi Hj. apply (same_cluster_roots lattice' i j _ _ (g fi) (g fj)); now apply Hmap.
Qed.

Lemma forest_root_in (N : Z) (occupied : list Z) (rank : Z -> nat) (lattice : list Z) (i : Z) :
  forest_inv N occupied rank lattice -> i ∈ occupied ->
  exists r v, root_of (S (length lattice)) lattice i = Some r /\ r ∈ occupied /\
              at_ lattice r = Some v /\ v < 0.
Proof.
  intros Inv Hi. pose proof (inv_length _ _ _ _ Inv).
  destruct (forest_root N occupied rank lattice Inv (S (length lattice)) i Hi ltac:(lia))
    as (r & v & Hr & Hro & Hv & Hneg & _).
  eauto 10.
Qed.

Lemma visit_neighbour_step (N : Z) (occupied : list Z) (rank : Z -> nat) (lattice : list Z)
    (nn : list (list Z)) (s1 r1 big j s2 : Z) (f1 : nat) :
  0 <= N < 2 ^ 31 - 1 ->
  forest_inv N occupied rank lattice ->
  s1 ∈ occupied -> root_of f1 lattice s1 = Some r1 ->
  nn_at nn j s1 = Some s2 -> 0 <= s2 < N ->
  exists lattice' r1' big' rank' f1',
    visit_neighbour (- N - 1) nn s1 (lattice, r1, big) j = Some (lattice', r1', big') /\
    forest_inv N occupied rank' lattice' /\
    root_of f1' lattice' s1 = Some r1' /\
    forall a b, a ∈ occupied -> b ∈ occupied ->
      (same_cluster lattice' a b <->
       same_cluster lattice a b \/
       (s2 ∈ occupied /\
        ((same_cluster lattice a s1 /\ same_cluster lattice s2 b) \/
         (same_cluster lattice a s2 /\ same_cluster lattice s1 b)))).
Proof.
  intros HN Inv Hs1 Hroot1 Hnn Hs2.
  destruct (forest_root_in N occupied rank lattice s1 Inv Hs1) as (r1' & v1 & Hr1' & Hr1 & Hv1 & Hn1).
  rewrite (root_of_det _ _ _ _ _ _ Hr1' Hroot1) in *. clear r1' Hr1'.
  unfold visit_neighbour. rewrite Hnn. cbn [mbind option_bind].
  destruct (at_in_range N lattice s2 (inv_length _ _ _ _ Inv) Hs2) as [v2 Hv2].
  rewrite Hv2. cbn [mbind option_bind].
  case_bool_decide as Hocc.
  2:{ exists lattice, r1, big, rank, f1. split; [reflexivity|]. split; [exact Inv|].
      split; [exact Hroot1|]. intros a b Ha Hb. split; [now left|].
      intros [H|[Hin _]]; [done|]. exfalso.
      assert (v2 = - N - 1) by (destruct (decide (v2 = - N - 1)); [done|contradiction]).
      subst v2. now apply (inv_empty _ _ _ _ Inv s2 Hs2) in Hv2. }
  assert (Hin : s2 ∈ occupied).
  { destruct (decide (s2 ∈ occupied)) as [|Hout]; [done|].
    apply (inv_empty _ _ _ _ Inv s2 Hs2) in Hout. congruence. }
  destruct (FindRoot_inv N occupied rank lattice s2 HN Inv Hin)
    as (r2 & w2 & l1 & -> & Inv1 & Hr2 & Hw2 & Hnw2 & Hnegs & Hroot2 & Hroots).
  cbn [mbind option_bind].
  pose proof (Hnegs r1 v1 Hv1 Hn1) as Hv1'.
  assert (Hsame : forall a b fa fb ra rb,
            root_of fa lattice a = Some ra -> root_of fb lattice b = Some rb ->
            (same_cluster lattice a s1 <-> ra = r1) /\ (same_cluster lattice s2 b <-> r2 = rb) /\
            (same_cluster lattice a s2 <-> ra = r2) /\ (same_cluster lattice s1 b <-> r1 = rb) /\
            (same_cluster lattice a b <-> ra = rb)).
  { intros a b fa fb ra rb Ha Hb. repeat split; eapply same_cluster_roots; eauto. }
  case_bool_decide as Hne.
  - destruct (union_roots_inv N occupied rank l1 r1 r2 v1 w2 HN Inv1 ltac:(auto)
                Hr1 Hr2 Hv1' Hw2 Hn1 Hnw2)
      as (l2 & r & v & rank' & -> & Inv2 & Hr & Hv & Hnv & Hr12 & Hmap).
    cbn [mbind option_bind]. rewrite Hv. cbn [mbind option_bind].
    assert (Hmap' : forall f x rx, root_of f lattice x = Some rx ->
              root_of (S f) l2 x = Some (if bool_decide (rx = r1 \/ rx = r2) then r else rx)).
    { intros f x rx Hx. apply Hmap, Hroots, Hx. }
    eexists l2, r, _, rank', (S f1). split; [reflexivity|]. split; [exact Inv2|]. split.
    { rewrite (Hmap' f1 s1 r1 Hroot1). now rewrite bool_decide_eq_true_2 by (now left). }
    intros a b Ha Hb.
    destruct (forest_root_in N occupied rank lattice a Inv Ha) as (ra & ? & Hra & _).
    destruct (forest_root_in N occupied rank lattice b Inv Hb) as (rb & ? & Hrb & _).
    rewrite (same_cluster_map lattice l2 _ S a b ra rb _ _ Hmap' Hra Hrb).
    destruct (Hsame a b _ _ ra rb Hra Hrb) as (-> & -> & -> & -> & ->).
    clear -Hin Hne Hr12.
    repeat case_bool_decide; (split; [intros E|intros [E|[_ [[E1 E2]|[E1 E2]]]]]); subst;
      try tauto; try congruence; try (destruct_or?; subst; tauto);
      try (destruct_or?; subst; auto 10; congruence).
    all: destruct_or?; subst; first [congruence | (exfalso; tauto) | (auto 10; fail)].
  - assert (r2 = r1) as -> by (destruct (decide (r2 = r1)); [done|contradiction]).
    exists l1, r1, big, rank, f1. split; [reflexivity|]. split; [exact Inv1|].
    split; [now apply Hroots|].
    intros a b Ha Hb.
    destruct (forest_root_in N occupied rank lattice a Inv Ha) as (ra & ? & Hra & _).
    destruct (forest_root_in N occupied rank lattice b Inv Hb) as (rb & ? & Hrb & _).
    rewrite (same_cluster_map lattice l1 (fun r => r) (fun f => f) a b ra rb _ _ Hroots Hra Hrb).
    destruct (Hsame a b _ _ ra rb Hra Hrb) as (-> & -> & -> & -> & ->).
    cbv beta. split; [now left|]. intros [E|[_ [[E1 E2]|[E1 E2]]]]; congruence.
Qed.

Lemma visit_neighbours_step (N : Z) (occupied : list Z) (nn : list (list Z)) (s1 : Z)
    (js : list Z) :
  0 <= N < 2 ^ 31 - 1 ->
  s1 ∈ occupied ->
  (forall j, j ∈ js -> exists s2, nn_at nn j s1 = Some s2 /\ 0 <= s2 < N) ->
  forall (rank : Z -> nat) (lattice : list Z) (r1 big : Z) (f1 : nat) (E : relation Z),
    forest_inv N occupied rank lattice ->
    root_of f1 lattice s1 = Some r1 ->
    (forall a b, a ∈ occupied -> b ∈ occupied -> (same_cluster lattice a b <-> rtsc E a b)) ->
    exists lattice' r1' big' rank',
      for_each (visit_neighbour (- N - 1) nn s1) js (lattice, r1, big)
      = Some (lattice', r1', big') /\
      forest_inv N occupied rank' lattice' /\
      forall a b, a ∈ occupied -> b ∈ occupied ->
        (same_cluster lattice' a b <->
         rtsc (fun x y => E x y \/
                 (x = s1 /\ y ∈ occupied /\ exists j, j ∈ js /\ nn_at nn j s1 = Some y)) a b).
Proof.
  intros HN Hs1. induction js as [|j js IH];
    intros Hnn rank lattice r1 big f1 E Inv Hroot1 Hconn.
  - exists lattice, r1, big, rank. split; [reflexivity|]. split; [exact Inv|].
    intros a b Ha Hb. rewrite (Hconn a b Ha Hb). apply rtsc_iff.
    intros x y. split; [now left|]. intros [H|(_ & _ & j & Hj & _)]; [done|].
    now apply elem_of_nil in Hj.
  - destruct (Hnn j ltac:(left)) as (s2 & Hs2 & Hrange).
    destruct (visit_neighbour_step N occupied rank lattice nn s1 r1 big j s2 f1
                HN Inv Hs1 Hroot1 Hs2 Hrange)
      as (l1 & r1' & big' & rank' & f1' & Hstep & Inv1 & Hroot1' & Hsame).
    cbn [for_each]. rewrite Hstep. cbn [mbind option_bind].
    set (E1 := fun x y : Z => E x y \/ (x = s1 /\ y = s2 /\ s2 ∈ occupied)).
    assert (Hconn1 : forall a b, a ∈ occupied -> b ∈ occupied ->
              (same_cluster l1 a b <-> rtsc E1 a b)).
    { intros a b Ha Hb. rewrite (Hsame a b Ha Hb).
      destruct (decide (s2 ∈ occupied)) as [Hin|Hout].
      - rewrite (rtsc_iff E1 (fun u v => E u v \/ (u = s1 /\ v = s2))).
        + rewrite rtsc_add_edge.
          rewrite (Hconn a b), (Hconn a s1), (Hconn s2 b), (Hconn a s2), (Hconn s1 b) by done.
          tauto.
        + intros x y. unfold E1. tauto.
      - rewrite (rtsc_iff E1 E); [rewrite (Hconn a b) by done; tauto|].
        intros x y. unfold E1. tauto. }
    destruct (IH ltac:(intros j' Hj'; apply Hnn; now right) rank' l1 r1' big' f1' E1
                Inv1 Hroot1' Hconn1) as (l2 & r1'' & big'' & rank'' & Hrun & Inv2 & Hconn2).
    exists l2, r1'', big'', rank''. split; [exact Hrun|]. split; [exact Inv2|].
    intros a b Ha Hb. rewrite (Hconn2 a b Ha Hb). apply rtsc_iff.
    intros x y. unfold E1. split.
    + intros [[H|(-> & -> & Hin)]|(-> & Hy & j' & Hj' & Hnn')]; [now left|right|right].
      * split; [done|]. split; [done|]. exists j. split; [now left|done].
      * split; [done|]. split; [done|]. exists j'. split; [now right|done].
    + intros [H|(-> & Hy & j' & Hj' & Hnn')]; [now left; left|].
      apply elem_of_cons in Hj' as [->|Hj'].
      * left; right. rewrite Hs2 in Hnn'. injection Hnn' as <-. done.
      * right. split; [done|]. split; [done|]. now exists j'.
Qed.

(** Marking a fresh site as a cluster of its own. *)
Lemma occupy_cell_inv (N : Z) (occupied : list Z) (rank : Z -> nat) (lattice l1 : list Z)
    (s1 : Z) :
  0 <= N < 2 ^ 31 - 1 ->
  forest_inv N occupied rank lattice ->
  0 <= s1 < N -> s1 ∉ occupied -> Z.of_nat (length occupied) < N ->
  set_ lattice s1 (-1) = Some l1 ->
  forest_inv N (occupied ++ [s1])
    (fun x => if bool_decide (x = s1) then 0%nat else rank x) l1.
Proof.
  intros HN Inv Hs1 Hnew Hcount Hset.
  assert (Hold : at_ lattice s1 = Some (- N - 1)) by now apply (inv_empty _ _ _ _ Inv).
  destruct (at_set_eq _ _ _ _ Hset) as [E1 L1].
  constructor.
  - rewrite L1. apply (inv_length _ _ _ _ Inv).
  - intros i Hi. apply elem_of_app in Hi as [Hi|Hi]; [now apply (inv_sites _ _ _ _ Inv)|].
    apply list_elem_of_singleton in Hi. now subst.
  - rewrite length_app. cbn. lia.
  - intros i Hi. rewrite elem_of_app, list_elem_of_singleton.
    destruct (decide (i = s1)) as [->|Hne].
    + rewrite E1. split; [intros [= E]; lia|intros H; exfalso; apply H; now right].
    + rewrite (at_set_ne _ _ _ _ _ Hset) by auto.
      rewrite (inv_empty _ _ _ _ Inv i Hi). tauto.
  - intros i v Hi Hv. destruct (decide (i = s1)) as [->|Hne].
    + rewrite E1 in Hv. injection Hv as <-. left.
      rewrite bool_decide_eq_true_2 by done. lia.
    + rewrite (at_set_ne _ _ _ _ _ Hset) in Hv by auto.
      apply elem_of_app in Hi as [Hi|Hi]; [|apply list_elem_of_singleton in Hi; done].
      rewrite (bool_decide_eq_false_2 (i = s1)) by done.
      destruct (inv_cells _ _ _ _ Inv i v Hi Hv) as [Hl|(Hp & Hin & Hrk)]; [now left|right].
      split; [done|]. split; [apply elem_of_app; now left|].
      rewrite bool_decide_eq_false_2; [done|]. intros ->. contradiction.
  - intros i Hi. case_bool_decide as E; [lia|].
    apply elem_of_app in Hi as [Hi|Hi]; [now apply (inv_rank _ _ _ _ Inv)|].
    apply list_elem_of_singleton in Hi. contradiction.
  - rewrite (roots_total_set _ _ _ _ _ _ Hold Hset), (inv_total _ _ _ _ Inv),
      signed_sentinel by done.
    unfold cell_size. rewrite bool_decide_eq_false_2 by lia.
    rewrite bool_decide_eq_true_2 by lia. rewrite length_app. cbn. lia.
Qed.

(** The chains of the sites occupied before do not pass the fresh site. *)
Lemma root_of_fresh (N : Z) (occupied : list Z) (rank : Z -> nat) (lattice l1 : list Z)
    (s1 x : Z) :
  forest_inv N occupied rank lattice -> s1 ∉ occupied ->
  set_ lattice s1 x = Some l1 ->
  forall f i r, i ∈ occupied -> root_of f lattice i = Some r -> root_of f l1 i = Some r.
Proof.
  intros Inv Hnew Hset. induction f as [|f IH]; intros i r Hi; [discriminate|].
  cbn [root_of]. rewrite (at_set_ne _ _ _ _ _ Hset) by (intros ->; contradiction).
  destruct (at_ lattice i) as [v|] eqn:Hv; [cbn [mbind option_bind]|discriminate].
  case_bool_decide as Hneg; [done|].
  destruct (inv_cells _ _ _ _ Inv i v Hi Hv) as [[? _]|(_ & Hin & _)]; [lia|].
  now apply IH.
Qed.

Lemma table_neighbour (N k : Z) (nn : list (list Z)) (s1 j : Z) :
  table_in_range N k nn -> 0 <= s1 < N -> j ∈ seqZ 0 k ->
  exists s2, nn_at nn j s1 = Some s2 /\ 0 <= s2 < N.
Proof.
  intros Htab Hs1 Hj. apply elem_of_seqZ in Hj.
  destruct (Htab s1 Hs1) as (col & Hcol & Hlen & Hall).
  unfold nn_at. rewrite Hcol. cbn [mbind option_bind].
  destruct (at_defined col j ltac:(lia)) as [s2 Hs2]. exists s2. split; [done|].
  rewrite list.Forall_forall in Hall. apply Hall.
  unfold at_ in Hs2. case_bool_decide; [|discriminate].
  apply list_elem_of_lookup. eauto.
Qed.

Lemma table_adjacent (N k : Z) (nn : list (list Z)) (s1 y : Z) :
  table_in_range N k nn -> 0 <= s1 < N ->
  (exists j, j ∈ seqZ 0 k /\ nn_at nn j s1 = Some y) <-> adjacent nn s1 y.
Proof.
  intros Htab Hs1. destruct (Htab s1 Hs1) as (col & Hcol & Hlen & _).
  unfold adjacent, nn_at. rewrite Hcol. split.
  - intros (j & _ & Hj). cbn [mbind option_bind] in Hj. exists col. split; [done|].
    unfold at_ in Hj. case_bool_decide; [|discriminate]. apply list_elem_of_lookup. eauto.
  - intros (col' & [= <-] & Hy). apply list_elem_of_lookup in Hy as [i Hi].
    exists (Z.of_nat i). apply lookup_lt_Some in Hi as Hlt. split.
    + apply elem_of_seqZ. lia.
    + cbn [mbind option_bind]. now rewrite at_lookup.
Qed.

Lemma occupy_site_step (N k : Z) (occupied : list Z) (rank : Z -> nat) (lattice : list Z)
    (nn : list (list Z)) (s1 big : Z) (E : relation Z) :
  0 <= N < 2 ^ 31 - 1 ->
  table_in_range N k nn ->
  forest_inv N occupied rank lattice ->
  0 <= s1 < N -> s1 ∉ occupied -> Z.of_nat (length occupied) < N ->
  (forall a b, a ∈ occupied -> b ∈ occupied -> (same_cluster lattice a b <-> rtsc E a b)) ->
  (forall x y, E x y -> x ∈ occupied /\ y ∈ occupied) ->
  exists lattice' big' rank',
    occupy_site (- N - 1) nn k (lattice, big) s1 = Some (lattice', big') /\
    forest_inv N (occupied ++ [s1]) rank' lattice' /\
    forall a b, a ∈ occupied ++ [s1] -> b ∈ occupied ++ [s1] ->
      (same_cluster lattice' a b <->
       rtsc (fun x y => E x y \/ (x = s1 /\ y ∈ occupied ++ [s1] /\ adjacent nn s1 y)) a b).
Proof.
  intros HN Htab Inv Hs1 Hnew Hcount Hconn HE. unfold occupy_site.
  assert (Hold : at_ lattice s1 = Some (- N - 1)) by now apply (inv_empty _ _ _ _ Inv).
  destruct (set_defined lattice s1 (-1) _ Hold) as [l1 Hset]. rewrite Hset.
  cbn [mbind option_bind].
  destruct (at_set_eq _ _ _ _ Hset) as [E1 L1].
  pose proof (occupy_cell_inv N occupied rank lattice l1 s1 HN Inv Hs1 Hnew Hcount Hset) as Inv1.
  assert (Hroot1 : root_of 1 l1 s1 = Some s1).
  { cbn [root_of]. rewrite E1. cbn. reflexivity. }
  assert (Hiso : forall b, rtsc E s1 b -> b = s1).
  { intros b. apply rtsc_isolated. intros u. split; intros H; apply HE in H; tauto. }
  assert (Hold_root : forall a, a ∈ occupied ->
            exists ra, root_of (S (length lattice)) lattice a = Some ra /\
                       root_of (S (length lattice)) l1 a = Some ra /\ ra <> s1).
  { intros a Ha. destruct (forest_root_in N occupied rank lattice a Inv Ha)
      as (ra & v & Hra & Hin & _).
    exists ra. split; [done|]. split; [|intros ->; contradiction].
    now apply (root_of_fresh N occupied rank lattice l1 s1 (-1) Inv Hnew Hset). }
  assert (Hconn1 : forall a b, a ∈ occupied ++ [s1] -> b ∈ occupied ++ [s1] ->
            (same_cluster l1 a b <-> rtsc E a b)).
  { intros a b Ha Hb.
    apply elem_of_app in Ha as [Ha|Ha]; apply elem_of_app in Hb as [Hb|Hb];
      try (apply list_elem_of_singleton in Ha; subst a);
      try (apply list_elem_of_singleton in Hb; subst b).
    - destruct (Hold_root a Ha) as (ra & Hra & Hra1 & _).
      destruct (Hold_root b Hb) as (rb & Hrb & Hrb1 & _).
      rewrite (same_cluster_roots l1 a b ra rb _ _ Hra1 Hrb1).
      rewrite <- (Hconn a b Ha Hb). symmetry. exact (same_cluster_roots lattice a b ra rb _ _ Hra Hrb).
    - destruct (Hold_root a Ha) as (ra & Hra & Hra1 & Hne).
      rewrite (same_cluster_roots l1 a s1 ra s1 _ _ Hra1 Hroot1).
      split; [done|]. intros H. apply rtsc_sym, Hiso in H. subst a. contradiction.
    - destruct (Hold_root b Hb) as (rb & Hrb & Hrb1 & Hne).
      rewrite (same_cluster_roots l1 s1 b s1 rb _ _ Hroot1 Hrb1).
      split; [intros ->; contradiction|]. intros H. apply Hiso in H. subst b. contradiction.
    - rewrite (same_cluster_roots l1 s1 s1 s1 s1 _ _ Hroot1 Hroot1).
      split; [intros _; apply rtc_refl|done]. }
  destruct (visit_neighbours_step N (occupied ++ [s1]) nn s1 (seqZ 0 k) HN
              ltac:(apply elem_of_app; right; now left)
              ltac:(intros j Hj; now apply (table_neighbour N k))
              _ l1 s1 big 1%nat E Inv1 Hroot1 Hconn1)
    as (l2 & r1' & big' & rank' & -> & Inv2 & Hconn2).
  cbn [mbind option_bind]. exists l2, big', rank'. split; [reflexivity|].
  split; [exact Inv2|]. intros a b Ha Hb. rewrite (Hconn2 a b Ha Hb). apply rtsc_iff.
  intros x y. split; (intros [H|(-> & Hy & Hadj)]; [now left|right]);
    (split; [done|]; split; [done|]); now apply (table_adjacent N k nn s1 y Htab Hs1).
Qed.

Lemma earlier_edge_in (nn : list (list Z)) (l : list Z) (x y : Z) :
  earlier_edge nn l x y -> x ∈ l /\ y ∈ l.
Proof.
  induction l as [|s older IH]; cbn [earlier_edge]; [done|].
  intros [(-> & Hy & _)|H].
  - split; [now left|done].
  - destruct (IH H). split; now right.
Qed.

Lemma occupy_sites_step (N k : Z) (nn : list (list Z)) (todo : list Z) :
  0 <= N < 2 ^ 31 - 1 ->
  table_in_range N k nn ->
  forall (occupied : list Z) (rank : Z -> nat) (lattice : list Z) (big : Z),
    forest_inv N occupied rank lattice ->
    NoDup (occupied ++ todo) ->
    (forall s, s ∈ todo -> 0 <= s < N) ->
    Z.of_nat (length (occupied ++ todo)) <= N ->
    (forall a b, a ∈ occupied -> b ∈ occupied ->
       (same_cluster lattice a b <-> rtsc (earlier_edge nn (reverse occupied)) a b)) ->
    exists lattice' big' rank',
      for_each (occupy_site (- N - 1) nn k) todo (lattice, big) = Some (lattice', big') /\
      forest_inv N (occupied ++ todo) rank' lattice' /\
      forall a b, a ∈ occupied ++ todo -> b ∈ occupied ++ todo ->
        (same_cluster lattice' a b
         <-> rtsc (earlier_edge nn (reverse (occupied ++ todo))) a b).
Proof.
  intros HN Htab. induction todo as [|s1 todo IH];
    intros occupied rank lattice big Inv Hnd Hrange Hcount Hconn.
  - rewrite app_nil_r. cbn. eauto 10.
  - rewrite length_app in Hcount. cbn [length] in Hcount.
    pose proof (proj1 (list.NoDup_app _ _) Hnd) as (_ & Hdisj & _).
    destruct (occupy_site_step N k occupied rank lattice nn s1 big
                (earlier_edge nn (reverse occupied)) HN Htab Inv
                ltac:(apply Hrange; now left)
                ltac:(intros Hin; apply (Hdisj s1 Hin); now left) ltac:(lia) Hconn)
      as (l1 & big1 & rank1 & Hstep & Inv1 & Hconn1).
    { intros x y H. apply earlier_edge_in in H. now rewrite !elem_of_reverse in H. }
    cbn [for_each]. rewrite Hstep. cbn [mbind option_bind].
    rewrite (cons_middle s1 occupied todo), app_assoc in Hnd |- *.
    apply (IH _ rank1 l1 big1 Inv1 Hnd).
    + intros s Hs. apply Hrange. now right.
    + rewrite !length_app. cbn [length]. lia.
    + intros a b Ha Hb. rewrite (Hconn1 a b Ha Hb). apply rtsc_iff.
      intros x y. rewrite reverse_snoc. cbn [earlier_edge].
      rewrite elem_of_cons, elem_of_reverse, elem_of_app, list_elem_of_singleton. tauto.
Qed.

Lemma empty_lattice_inv (N : Z) :
  0 <= N < 2 ^ 31 - 1 ->
  forest_inv N [] (fun _ => 0%nat) (empty_lattice (- N - 1) N).
Proof.
  intros HN. unfold empty_lattice. rewrite signed_sentinel by done. constructor.
  - rewrite length_replicate. lia.
  - intros i Hi. now apply elem_of_nil in Hi.
  - cbn. lia.
  - intros i Hi. split; [intros _; apply not_elem_of_nil|intros _].
    unfold at_. rewrite bool_decide_eq_true_2 by lia.
    apply lookup_replicate_2. lia.
  - intros i v Hi. now apply elem_of_nil in Hi.
  - intros i Hi. now apply elem_of_nil in Hi.
  - rewrite roots_total_sizes, signed_sentinel by done. cbn [length].
    induction (Z.to_nat N) as [|n IH]; [reflexivity|].
    cbn [replicate fmap list_fmap foldr]. rewrite IH. unfold cell_size.
    rewrite bool_decide_eq_false_2 by lia. reflexivity.
Qed.

(** The run of [Percolate] under the signed sentinel, with all it keeps. *)
Lemma Percolate_signed_run (N k : Z) (nn : list (list Z)) (occupation : list Z)
    (threshold : spec_float) :
  let n := percolate_rounds (percolate_bound threshold N) in
  let occupied := take (Z.to_nat n) occupation in
  0 <= N < 2 ^ 31 - 1 ->
  table_in_range N k nn ->
  occupation ≡ₚ seqZ 0 N ->
  n <= N ->
  exists lattice rank,
    Percolate_with (EMPTY_signed N) N nn k occupation threshold = Some lattice /\
    Z.of_nat (length occupied) = n /\
    forest_inv N occupied rank lattice /\
    forall a b, a ∈ occupied -> b ∈ occupied ->
      (same_cluster lattice a b <-> rtsc (earlier_edge nn (reverse occupied)) a b).
Proof.
  intros n occupied HN Htab Hperm Hn.
  assert (Hlen : Z.of_nat (length occupation) = N).
  { rewrite Hperm, length_seqZ. lia. }
  assert (Hn0 : 0 <= n).
  { unfold n, percolate_rounds. destruct (percolate_bound threshold N) as [|[]| |]; lia. }
  rewrite (Percolate_with_prefix (EMPTY_signed N) N nn k occupation threshold) by (fold n; lia).
  fold n. fold occupied.
  unfold EMPTY_signed. rewrite signed_sentinel by done.
  destruct (occupy_sites_step N k nn occupied HN Htab [] _ _ 0 (empty_lattice_inv N HN))
    as (lattice & big & rank & -> & Inv & Hconn).
  - cbn [app]. unfold occupied. apply (sublist_NoDup _ occupation); [|apply sublist_take].
    rewrite Hperm. apply NoDup_seqZ.
  - intros s Hs. apply elem_of_take in Hs as (i & Hs & _).
    apply list_elem_of_lookup_2 in Hs. rewrite Hperm in Hs. apply elem_of_seqZ in Hs. lia.
  - cbn [app]. unfold occupied. rewrite length_take. lia.
  - intros a b Ha. now apply elem_of_nil in Ha.
  - cbn [app] in Inv, Hconn. exists lattice, rank. cbn [fmap option_fmap option_map fst].
    split; [reflexivity|]. split; [unfold occupied; rewrite length_take; lia|]. auto.
Qed.

(** X15: the percolation of the older engine, where [N] and [EMPTY] are
    [int] and the sentinel is the plain [-N - 1].  On a table whose
    entries are sites and an occupation order that is a permutation of
    the sites, [Percolate] completes; the sites it occupied are the first
    [n] of the order ([n] the number of rounds of its loop); a cell holds
    [EMPTY] exactly when its site is not occupied; from every occupied
    site the parent indices lead, within [N] steps, to an occupied root
    (a negative cell); and the sizes stored at the roots add up to the
    number of occupied sites. *)
Theorem Percolate_signed_forest (N k : Z) (nn : list (list Z)) (occupation : list Z)
    (threshold : spec_float) :
  let n := percolate_rounds (percolate_bound threshold N) in
  let occupied := take (Z.to_nat n) occupation in
  0 <= N < 2 ^ 31 - 1 ->
  table_in_range N k nn ->
  occupation ≡ₚ seqZ 0 N ->
  n <= N ->
  exists lattice,
    Percolate_with (EMPTY_signed N) N nn k occupation threshold = Some lattice /\
    Z.of_nat (length lattice) = N /\
    (forall i, 0 <= i < N -> (at_ lattice i = Some (EMPTY_signed N) <-> i ∉ occupied)) /\
    (forall i, i ∈ occupied ->
       exists r v, root_of (Z.to_nat N) lattice i = Some r /\ r ∈ occupied /\
                   at_ lattice r = Some v /\ v < 0) /\
    roots_total (EMPTY_signed N) lattice = n.
Proof.
  intros n occupied HN Htab Hperm Hn.
  destruct (Percolate_signed_run N k nn occupation threshold HN Htab Hperm Hn)
    as (lattice & rank & Hrun & Hcount & Inv & _).
  fold n in Hrun, Hcount, Inv. fold occupied in Hcount, Inv.
  exists lattice. split; [exact Hrun|].
  unfold EMPTY_signed. rewrite signed_sentinel by done.
  split; [apply (inv_length _ _ _ _ Inv)|].
  split; [apply (inv_empty _ _ _ _ Inv)|]. split.
  - intros i Hi.
    destruct (forest_root N occupied rank lattice Inv (Z.to_nat N) i Hi ltac:(lia))
      as (r & v & Hr & Hro & Hv & Hneg & _).
    eauto 10.
  - rewrite (inv_total _ _ _ _ Inv). exact Hcount.
Qed.

Lemma Percolate_signed_forest_witness :
  let nn := topo_nn (Initialize_topology 2 0) in
  let n := percolate_rounds (percolate_bound threshold_0_6 4) in
  let occupied := take (Z.to_nat n) [0; 1; 2; 3] in
  exists lattice,
    Percolate_with (EMPTY_signed 4) 4 nn 4 [0; 1; 2; 3] threshold_0_6 = Some lattice /\
    Z.of_nat (length lattice) = 4 /\
    (forall i, 0 <= i < 4 -> (at_ lattice i = Some (EMPTY_signed 4) <-> i ∉ occupied)) /\
    (forall i, i ∈ occupied ->
       exists r v, root_of (Z.to_nat 4) lattice i = Some r /\ r ∈ occupied /\
                   at_ lattice r = Some v /\ v < 0) /\
    roots_total (EMPTY_signed 4) lattice = n.
Proof.
  apply (Percolate_signed_forest 4 4 (topo_nn (Initialize_topology 2 0)) [0; 1; 2; 3]
           threshold_0_6).
  - lia.
  - intros s Hs.
    assert (s = 0 \/ s = 1 \/ s = 2 \/ s = 3) as [-> | [-> | [-> | ->]]] by lia;
      (eexists; split; [vm_compute; reflexivity|]; split; [reflexivity|];
       repeat constructor; lia).
  - reflexivity.
  - vm_compute. discriminate.
Defined.

Lemma periodic_table_in_range (N k : Z) (nn : list (list Z)) :
  periodic_table N k nn -> table_in_range N k nn.
Proof.
  intros [_ Htab] s Hs. destruct (Htab s Hs) as (col & Hcol & Hlen & Hall).
  exists col. split; [done|]. split; [done|].
  apply list.Forall_forall. intros b Hb. now apply Hall.
Qed.

Lemma periodic_table_sym (N k : Z) (nn : list (list Z)) (a b : Z) :
  periodic_table N k nn -> 0 <= a < N -> adjacent nn a b -> adjacent nn b a.
Proof.
  intros [_ Htab] Ha (col & Hcol & Hb).
  destruct (Htab a Ha) as (col0 & Hcol0 & _ & Hall).
  rewrite Hcol in Hcol0. injection Hcol0 as <-.
  destruct (Hall b Hb) as (_ & col' & Hcol' & Hin). now exists col'.
Qed.

Lemma earlier_edge_total (nn : list (list Z)) (l : list Z) (x y : Z) :
  x ∈ l -> y ∈ l -> adjacent nn x y -> adjacent nn y x ->
  earlier_edge nn l x y \/ earlier_edge nn l y x.
Proof.
  intros Hx Hy Hxy Hyx. induction l as [|s older IH]; [now apply elem_of_nil in Hx|].
  cbn [earlier_edge].
  destruct (decide (x = s)) as [->|Hxs]; [left; left; done|].
  destruct (decide (y = s)) as [->|Hys]; [right; left; done|].
  apply elem_of_cons in Hx as [?|Hx]; [done|]. apply elem_of_cons in Hy as [?|Hy]; [done|].
  destruct (IH Hx Hy); [left|right]; now right.
Qed.

(** X16: in the lattice the older engine's [Percolate] leaves (signed
    sentinel, symmetric neighbour table, occupation order a permutation
    of the sites), two occupied sites have the same root exactly when a
    path of steps between occupied neighbours leads from one to the
    other. *)
Theorem Percolate_signed_clusters (N k : Z) (nn : list (list Z)) (occupation : list Z)
    (threshold : spec_float) :
  let n := percolate_rounds (percolate_bound threshold N) in
  let occupied := take (Z.to_nat n) occupation in
  0 <= N < 2 ^ 31 - 1 ->
  periodic_table N k nn ->
  occupation ≡ₚ seqZ 0 N ->
  n <= N ->
  exists lattice,
    Percolate_with (EMPTY_signed N) N nn k occupation threshold = Some lattice /\
    forall a b, a ∈ occupied -> b ∈ occupied ->
      (same_cluster lattice a b <-> rtc (occupied_edge occupied nn) a b).
Proof.
  intros n occupied HN Htab Hperm Hn.
  destruct (Percolate_signed_run N k nn occupation threshold HN
              (periodic_table_in_range N k nn Htab) Hperm Hn)
    as (lattice & rank & Hrun & _ & Inv & Hconn).
  fold n in Hrun, Inv, Hconn. fold occupied in Inv, Hconn.
  exists lattice. split; [exact Hrun|]. intros a b Ha Hb. rewrite (Hconn a b Ha Hb).
  assert (Hsym : forall x y, occupied_edge occupied nn x y -> occupied_edge occupied nn y x).
  { intros x y (Hx & Hy & Hadj). split; [done|]. split; [done|].
    apply (periodic_table_sym N k nn x y Htab); [|done]. now apply (inv_sites _ _ _ _ Inv). }
  split.
  - intros H. apply rtsc_rtc; [exact Hsym|]. revert H. apply rtsc_sub.
    intros x y Hxy. apply rtc_once. left.
    pose proof (earlier_edge_in _ _ _ _ Hxy) as [Hx Hy]. rewrite !elem_of_reverse in Hx, Hy.
    split; [done|]. split; [done|].
    clear -Hxy. induction (reverse occupied) as [|s older IH]; [done|].
    cbn [earlier_edge] in Hxy. destruct Hxy as [(-> & _ & Hadj)|H]; [done|now apply IH].
  - induction 1 as [|x y z (Hx & Hy & Hadj) _ IH]; [apply rtc_refl|].
    unfold rtsc in *. etrans; [|exact (IH Hy Hb)]. apply rtc_once.
    destruct (earlier_edge_total nn (reverse occupied) x y) as [H|H];
      [now apply elem_of_reverse|now apply elem_of_reverse|done| |now left|now right].
    apply (periodic_table_sym N k nn x y Htab); [|done]. now apply (inv_sites _ _ _ _ Inv).
Qed.

Lemma Percolate_signed_clusters_witness :
  let nn := topo_nn (Initialize_topology 2 0) in
  let n := percolate_rounds (percolate_bound threshold_0_6 4) in
  let occupied := take (Z.to_nat n) [0; 1; 2; 3] in
  exists lattice,
    Percolate_with (EMPTY_signed 4) 4 nn 4 [0; 1; 2; 3] threshold_0_6 = Some lattice /\
    forall a b, a ∈ occupied -> b ∈ occupied ->
      (same_cluster lattice a b <-> rtc (occupied_edge occupied nn) a b).
Proof.
  apply (Percolate_signed_clusters 4 4 (topo_nn (Initialize_topology 2 0)) [0; 1; 2; 3]
           threshold_0_6).
  - lia.
  - apply (BoundariesSquare_periodic 2); lia.
  - reflexivity.
  - vm_compute. discriminate.
Defined.

(** ** The lattice walk *)


Section Walk.
Context `{G : Generator}.
Variables (E N k : Z) (nn : list (list Z)) (lattice fr lr : list Z) (boundary1 boundary2 : Z).
Hypothesis table : periodic_table N k nn.
Hypothesis cells : Z.of_nat (length lattice) = N.
Hypothesis small : N < 2 ^ 31.
Hypothesis few : k < 2 ^ 31.






End Walk.


(** ** From the start search to the walk *)

Section StartAndWalk.
Context `{G : Generator}.
Variables (E N k : Z) (nn : list (list Z)) (lattice pool fr lr : list Z)
          (boundary1 boundary2 : Z).
Hypothesis table : periodic_table N k nn.
Hypothesis cells : Z.of_nat (length lattice) = N.
Hypothesis small : N < 2 ^ 31.
Hypothesis few : k < 2 ^ 31.
Hypothesis pool_nonempty : pool <> [].
Hypothesis pool_small : Z.of_nat (length pool) < 2 ^ 31.



End StartAndWalk.


(** ** The pool of all clusters *)

Lemma find_cells_spec (p : Z -> bool) (v : list Z) (s : Z) :
  s ∈ find_cells p v <-> exists x, at_ v s = Some x /\ p x = true.
Proof.
  unfold find_cells. rewrite list_elem_of_fmap. split.
  - intros ([i x] & -> & Hin). apply list_elem_of_filter in Hin as [Hp Hin].
    cbn [fst snd] in *. apply list_elem_of_lookup in Hin as [j Hj].
    apply lookup_zip_with_Some in Hj as (i' & x' & [= <- <-] & Hi & Hx).
    apply lookup_seqZ in Hi as [-> Hlt]. exists x. split; [|done].
    rewrite Z.add_0_l, at_lookup. exact Hx.
  - intros (x & Hx & Hp). unfold at_ in Hx. case_bool_decide as Hs; [|discriminate].
    exists (s, x). split; [done|]. apply list_elem_of_filter. split; [done|].
    apply list_elem_of_lookup. exists (Z.to_nat s). apply lookup_zip_with_Some.
    exists s, x. split; [done|]. split; [|done].
    apply lookup_seqZ. apply lookup_lt_Some in Hx. lia.
Qed.

Lemma find_cells_NoDup (p : Z -> bool) (v : list Z) : NoDup (find_cells p v).
Proof.
  unfold find_cells.
  apply (sublist_NoDup _ (fst <$> zip (seqZ 0 (Z.of_nat (length v))) v)).
  - rewrite fst_zip by (rewrite length_seqZ; lia). apply NoDup_seqZ.
  - apply fmap_sublist, sublist_filter.
Qed.

Lemma find_cells_range (p : Z -> bool) (v : list Z) (s : Z) :
  s ∈ find_cells p v -> 0 <= s < Z.of_nat (length v).
Proof.
  intros (x & Hx & _)%find_cells_spec. unfold at_ in Hx.
  case_bool_decide; [|discriminate]. apply lookup_lt_Some in Hx. lia.
Qed.

(** X19: in every walk mode but 1 the pool of start sites is the list of
    the sites whose cell differs from [EMPTY] taken as an [int32_t], each
    of them once. *)
Theorem start_pool_all_clusters (EMPTY walkMode : Z) (lattice : list Z) :
  walkMode <> 1 -> Z.of_nat (length lattice) <= 2 ^ 31 ->
  exists pool,
    start_pool EMPTY walkMode lattice = Some pool /\
    NoDup pool /\
    forall s, s ∈ pool <-> exists v, at_ lattice s = Some v /\ v <> i32 EMPTY.
Proof.
  intros Hmode Hlen. unfold start_pool. rewrite bool_decide_eq_false_2 by done.
  set (cells := find_cells _ lattice).
  assert (Hid : i32 <$> cells = cells).
  { rewrite <- (list_fmap_id cells) at 2. apply list_fmap_ext.
    intros i s Hs. apply list_elem_of_lookup_2, find_cells_range in Hs.
    unfold id. apply i32_small. lia. }
  exists cells. rewrite Hid. split; [reflexivity|]. split; [apply find_cells_NoDup|].
  intros s. unfold cells. rewrite find_cells_spec.
  split; intros (v & Hv & Hp); exists v; (split; [done|]).
  - now apply bool_decide_eq_true in Hp.
  - now apply bool_decide_eq_true.
Qed.

Lemma start_pool_all_clusters_witness :
  exists pool,
    start_pool (EMPTY_signed 4) 0 [-2; 0; -5; -5] = Some pool /\
    NoDup pool /\
    forall s, s ∈ pool <-> exists v, at_ [-2; 0; -5; -5] s = Some v /\ v <> i32 (EMPTY_signed 4).
Proof.
  apply (start_pool_all_clusters (EMPTY_signed 4) 0 [-2; 0; -5; -5]).
  - discriminate.
  - cbn. lia.
Defined.

(** ** The search for a start site, from the pool on *)







(** ** Storage that is written before it is read *)



Section Storage.
Context `{G : Generator}.

(** *** [walks] and [boundaryDetect] *)




(** *** [trueWalks] *)




(** *** One walk and all walks *)



End Storage.

(** *** [latticeCoords] *)

Lemma bind_singleton {A B} (f : A -> B) (l : list A) : (x ← l; [f x]) = f <$> l.
Proof. induction l as [|x l IH]; [reflexivity|]. cbn. now f_equal. Qed.

(** The sites in the order of the two loops of the square branch. *)
Lemma square_pairs_cons (g a : Z) (n : nat) :
  (i ← seqZ a (Z.of_nat (S n)); j ← seqZ 0 g; [(i, j)])
  = (pair a <$> seqZ 0 g) ++ (i ← seqZ (a + 1) (Z.of_nat n); j ← seqZ 0 g; [(i, j)]).
Proof.
  rewrite (seqZ_cons a) by lia. cbn [mbind list_bind].
  replace (Z.pred (Z.of_nat (S n))) with (Z.of_nat n) by lia.
  rewrite (bind_singleton (pair a)). reflexivity.
Qed.

Lemma square_pairs_length (g : Z) (n : nat) (a : Z) :
  length (i ← seqZ a (Z.of_nat n); j ← seqZ 0 g; [(i, j)]) = (n * Z.to_nat g)%nat.
Proof.
  revert a. induction n as [|n IH]; intros a; [reflexivity|].
  rewrite square_pairs_cons, length_app, length_fmap, length_seqZ, IH. lia.
Qed.

Lemma square_site_unfold (EMPTY : Z) (lattice : list Z) (gridSize : Z)
    (latticeCoords : list coords) (count : Z) (ij : Z * Z) :
  square_site EMPTY lattice gridSize (latticeCoords, count) ij
  = tag ← cluster_tag EMPTY lattice count;
    latticeCoords ← set_ latticeCoords count (Double.of_Z ij.1, Double.of_Z ij.2, tag);
    Some (latticeCoords, u32 (count + 1)).
Proof. reflexivity. Qed.



(** *** The order of the workers in [AnalyseWalks] *)





(** *** The number of walks *)

Section Walks.
Context `{G : Generator}.





End Walks.

(** ** Reproducible runs *)




(** With a negative seed the entropy of the system decides the run. *)
Lemma Run_negative_seed_depends_on_device :
  let c := Config 3 2 6 threshold_0_6 (Double.of_Z 1)
             (S754_finite false 4503599627370496 (-53)) (Double.of_Z 1) 0 1 1 in
  let unset := Storage 0 0 (fun _ => (Double.zero, Double.zero, Double.zero))
                 (fun _ => 0) (fun _ => 0) (fun _ => 0) in
  (out_occupation <$> @Run lcg_generator c (-1) [1; 2; 3] unset [0; 1])
  <> (out_occupation <$> @Run lcg_generator c (-1) [] unset [0; 1]) /\
  is_Some (@Run lcg_generator c 7 [] unset [0; 1]).
Proof.
  cbv zeta. split.
  - vm_compute. discriminate.
  - vm_compute. eauto.
Qed.

(** With a lattice mode that [Initialize] does not know, [N] is what the
    storage held, and so is the run. *)
Lemma Run_unsupported_mode_depends_on_storage :
  let c := Config 3 0 6 threshold_0_6 (Double.of_Z 1) (Double.of_Z 1) (Double.of_Z 0) 2 0 1 in
  let unset n := Storage n 0 (fun _ => (Double.zero, Double.zero, Double.zero))
                   (fun _ => 0) (fun _ => 0) (fun _ => 0) in
  (length ∘ out_occupation <$> @Run lcg_generator c 7 [] (unset 2) []) = Some 2%nat /\
  (length ∘ out_occupation <$> @Run lcg_generator c 7 [] (unset 3) []) = Some 3%nat.
Proof. cbv zeta. split; vm_compute; reflexivity. Qed.

(** ** The coordinates of the square lattice *)

(** Integers below 2^53 compare as [double]s the way they compare as
    integers. *)
Lemma lt_of_Z (a b : Z) :
  0 <= a < 2 ^ 53 -> 0 <= b < 2 ^ 53 ->
  Double.lt (Double.of_Z a) (Double.of_Z b) = bool_decide (a < b).
Proof.
  intros Ha Hb.
  destruct (of_Z_exact a Ha) as (Hfa & Hda & Hna).
  destruct (of_Z_exact b Hb) as (Hfb & Hdb & Hnb).
  unfold Double.lt.
  assert (Double.compare (Double.of_Z a) (Double.of_Z b)
          = Some (Z.compare (Double.num (Double.of_Z a) * Double.den (Double.of_Z b))
                            (Double.num (Double.of_Z b) * Double.den (Double.of_Z a)))) as ->.
  { destruct (Double.of_Z a), (Double.of_Z b); try discriminate; reflexivity. }
  rewrite Hna, Hnb.
  set (da := Double.den (Double.of_Z a)) in *. set (db := Double.den (Double.of_Z b)) in *.
  assert (Hd : 0 < da * db) by nia.
  replace (a * da * db) with (a * (da * db)) by lia.
  replace (b * db * da) with (b * (da * db)) by lia.
  destruct (Z.compare_spec (a * (da * db)) (b * (da * db))) as [H|H|H];
    [rewrite bool_decide_eq_false_2|rewrite bool_decide_eq_true_2
    |rewrite bool_decide_eq_false_2]; try done; nia.
Qed.

(** The greatest entry of a row of small integers. *)
Lemma row_max_from (m : Z) (zs : list Z) :
  0 <= m < 2 ^ 53 -> Forall (fun z => 0 <= z < 2 ^ 53) zs ->
  foldl (fun m x => if Double.gt x m then x else m) (Double.of_Z m) (Double.of_Z <$> zs)
  = Double.of_Z (foldl Z.max m zs).
Proof.
  intros Hm Hzs. revert m Hm. induction Hzs as [|z zs Hz _ IH]; intros m Hm; [reflexivity|].
  cbn [fmap list_fmap foldl].
  change (Double.gt (Double.of_Z z) (Double.of_Z m))
    with (Double.lt (Double.of_Z m) (Double.of_Z z)).
  rewrite lt_of_Z by lia.
  case_bool_decide as Hlt.
  - rewrite IH by lia. now rewrite Z.max_r by lia.
  - rewrite IH by lia. now rewrite Z.max_l by lia.
Qed.

Lemma foldl_max_bound (M : Z) (zs : list Z) :
  forall m, m <= M -> Forall (fun z => z <= M) zs -> (m = M \/ M ∈ zs) ->
            foldl Z.max m zs = M.
Proof.
  induction zs as [|z zs IH]; intros m Hm Hzs Hin; cbn [foldl].
  - destruct Hin as [->|Hin]; [done|now apply elem_of_nil in Hin].
  - apply Forall_cons in Hzs as [Hz Hzs]. apply IH; [lia|done|].
    destruct Hin as [->|Hin]; [left; lia|].
    apply elem_of_cons in Hin as [->|Hin]; [left; lia|now right].
Qed.

Lemma row_max_of_Z (M : Z) (zs : list Z) :
  0 <= M < 2 ^ 53 -> Forall (fun z => 0 <= z <= M) zs -> M ∈ zs ->
  row_max (Double.of_Z <$> zs) = Double.of_Z M.
Proof.
  intros HM Hzs Hin. unfold row_max. destruct zs as [|z zs]; [now apply elem_of_nil in Hin|].
  apply Forall_cons in Hzs as [Hz Hzs]. cbn [fmap list_fmap foldl].
  assert (Double.gt (Double.of_Z z) (S754_infinity true) = true) as ->.
  { destruct (of_Z_exact z ltac:(lia)) as (Hf & _). unfold Double.gt, Double.lt.
    destruct (Double.of_Z z); try discriminate; reflexivity. }
  rewrite row_max_from; [|lia|].
  - f_equal. apply foldl_max_bound; [lia| |].
    + eapply list.Forall_impl; [exact Hzs|]. cbn. lia.
    + apply elem_of_cons in Hin as [->|Hin]; [now left|now right].
  - eapply list.Forall_impl; [exact Hzs|]. cbn. lia.
Qed.

Lemma square_pairs_lookup (g : Z) (n : nat) :
  forall a c r, 0 <= r < g -> a <= c < a + Z.of_nat n ->
    (i ← seqZ a (Z.of_nat n); j ← seqZ 0 g; [(i, j)]) !! Z.to_nat ((c - a) * g + r)
    = Some (c, r).
Proof.
  induction n as [|n IH]; intros a c r Hr Hc; [lia|].
  rewrite square_pairs_cons. destruct (decide (c = a)) as [->|Hne].
  - rewrite lookup_app_l by (rewrite length_fmap, length_seqZ; lia).
    rewrite list_lookup_fmap. replace ((a - a) * g + r) with r by lia.
    rewrite (proj2 (lookup_seqZ 0 g (Z.to_nat r) r)) by lia. reflexivity.
  - rewrite lookup_app_r by (rewrite length_fmap, length_seqZ; nia).
    rewrite length_fmap, length_seqZ.
    replace (Z.to_nat ((c - a) * g + r) - Z.to_nat g)%nat
      with (Z.to_nat ((c - (a + 1)) * g + r)) by nia.
    apply IH; lia.
Qed.

Lemma square_pairs_columns (g : Z) (n : nat) (a : Z) (ij : Z * Z) :
  ij ∈ (i ← seqZ a (Z.of_nat n); j ← seqZ 0 g; [(i, j)]) -> a <= ij.1 < a + Z.of_nat n.
Proof.
  revert a. induction n as [|n IH]; intros a Hin; [now apply elem_of_nil in Hin|].
  rewrite square_pairs_cons in Hin. apply elem_of_app in Hin as [Hin|Hin].
  - apply list_elem_of_fmap in Hin as (j & -> & _). cbn. lia.
  - apply IH in Hin. lia.
Qed.


Lemma square_pairs_rows (g : Z) (n : nat) (a : Z) (ij : Z * Z) :
  ij ∈ (i ← seqZ a (Z.of_nat n); j ← seqZ 0 g; [(i, j)]) -> 0 <= ij.2 < g.
Proof.
  revert a. induction n as [|n IH]; intros a Hin; [now apply elem_of_nil in Hin|].
  rewrite square_pairs_cons in Hin. apply elem_of_app in Hin as [Hin|Hin].
  - apply list_elem_of_fmap in Hin as (j & -> & Hj). apply elem_of_seqZ in Hj. cbn. lia.
  - now apply IH in Hin.
Qed.

(** The loop of the square branch writes one column per site, in the
    order of the sites, from [count] on. *)
Lemma square_sites_fill (EMPTY g : Z) (lattice : list Z) (l : list (Z * Z)) :
  forall (written blank : list coords),
    (length written + length l <= length lattice)%nat ->
    (length l <= length blank)%nat ->
    Z.of_nat (length lattice) < 2 ^ 32 ->
    for_each (square_site EMPTY lattice g) l (written ++ blank, Z.of_nat (length written))
    = Some (written ++ zip_with (square_coords EMPTY) l (drop (length written) lattice)
              ++ drop (length l) blank,
            Z.of_nat (length written + length l)).
Proof.
  induction l as [|ij l IH]; intros written blank Hlen Hblank H32.
  - cbn [for_each zip_with length drop app]. rewrite Nat.add_0_r. reflexivity.
  - cbn [for_each length] in *. rewrite square_site_unfold. unfold cluster_tag.
    rewrite at_lookup.
    destruct (lookup_lt_is_Some_2 lattice (length written) ltac:(lia)) as [v Hv].
    rewrite Hv. cbn [mbind option_bind].
    destruct blank as [|b0 blank]; [cbn in Hblank; lia|].
    unfold set_. rewrite bool_decide_eq_true_2 by (rewrite length_app; cbn [length]; lia).
    rewrite Nat2Z.id. cbn [mbind option_bind].
    rewrite insert_app_r_alt by lia. rewrite Nat.sub_diag. cbn [insert list_insert].
    rewrite u32_small by lia.
    change (Double.of_Z ij.1, Double.of_Z ij.2,
            Double.of_Z (if bool_decide (v = EMPTY) then 0 else v))
      with (square_coords EMPTY ij v).
    replace (Z.of_nat (length written) + 1)
      with (Z.of_nat (length (written ++ [square_coords EMPTY ij v])))
      by (rewrite length_app; cbn [length]; lia).
    rewrite (cons_middle (square_coords EMPTY ij v) written blank), app_assoc.
    rewrite IH; [|rewrite length_app; cbn [length] in *; lia|cbn [length] in *; lia|done].
    rewrite length_app. cbn [length]. rewrite (drop_S _ _ _ Hv). cbn [zip_with drop].
    rewrite <- !app_assoc. cbn [app].
    replace (length written + 1)%nat with (S (length written)) by lia.
    replace (length written + S (length l))%nat with (S (length written) + length l)%nat by lia.
    reflexivity.
Qed.

(** X20: on a square lattice whose [gridSize^2] sites fit the counter,
    [BuildLattice] gives the site of index [c * gridSize + r] the
    coordinates [(c, r)] (column by column, as the neighbour table numbers
    the sites) and the tag 0 for an [EMPTY] cell, else the cell's value;
    it overwrites every column of [latticeCoords]; and the unit cell is
    [(gridSize - 1) + 1] in both directions. *)
Theorem BuildLattice_square_layout (EMPTY gridSize : Z) (lattice : list Z)
    (latticeCoords0 : list coords) :
  1 <= gridSize -> gridSize * gridSize < 2 ^ 32 ->
  Z.of_nat (length lattice) = gridSize * gridSize ->
  Z.of_nat (length latticeCoords0) = gridSize * gridSize ->
  exists latticeCoords,
    BuildLattice EMPTY gridSize 0 lattice latticeCoords0
    = Some (latticeCoords,
            Some (Double.add (Double.of_Z (gridSize - 1)) (Double.of_Z 1),
                  Double.add (Double.of_Z (gridSize - 1)) (Double.of_Z 1))) /\
    Z.of_nat (length latticeCoords) = gridSize * gridSize /\
    forall c r, 0 <= c < gridSize -> 0 <= r < gridSize ->
      exists v, at_ lattice (c * gridSize + r) = Some v /\
                at_ latticeCoords (c * gridSize + r)
                = Some (Double.of_Z c, Double.of_Z r,
                        Double.of_Z (if bool_decide (v = EMPTY) then 0 else v)).
Proof.
  intros Hg H32 Hlat Hblank. unfold BuildLattice.
  rewrite (bool_decide_eq_false_2 (0 = 1)), (bool_decide_eq_true_2 (0 = 0)) by done.
  set (pairs := i ← seqZ 0 gridSize; j ← seqZ 0 gridSize; [(i, j)]).
  assert (Hp : Z.of_nat (length pairs) = gridSize * gridSize).
  { unfold pairs. rewrite <- (Z2Nat.id gridSize) at 1 by lia.
    rewrite square_pairs_length. nia. }
  pose proof (square_sites_fill EMPTY gridSize lattice pairs [] latticeCoords0
                ltac:(cbn [length]; lia) ltac:(lia) ltac:(lia)) as Hfill.
  cbn [app length drop Nat.add] in Hfill. change (Z.of_nat 0) with 0 in Hfill.
  rewrite Hfill. cbn [mbind option_bind].
  rewrite drop_0, (drop_ge latticeCoords0), app_nil_r by lia.
  set (latticeCoords := zip_with (square_coords EMPTY) pairs lattice).
  assert (Hlc : Z.of_nat (length latticeCoords) = gridSize * gridSize).
  { unfold latticeCoords. rewrite length_zip_with. lia. }
  assert (Hpair : forall c r, 0 <= c < gridSize -> 0 <= r < gridSize ->
                    pairs !! Z.to_nat (c * gridSize + r) = Some (c, r)).
  { intros c r Hc Hr. unfold pairs.
    pose proof (square_pairs_lookup gridSize (Z.to_nat gridSize) 0 c r Hr ltac:(lia)) as H.
    rewrite Z2Nat.id, Z.sub_0_r in H by lia. exact H. }
  assert (Hx : fst ∘ fst <$> latticeCoords = Double.of_Z <$> (fst <$> pairs)).
  { unfold latticeCoords. assert (Hl : length pairs = length lattice) by lia.
    clear -Hl. revert lattice Hl. induction pairs as [|ij l IH]; intros [|v lattice] Hl;
      try discriminate; [reflexivity|].
    cbn [zip_with fmap list_fmap]. f_equal. apply IH. now injection Hl. }
  assert (Hy : snd ∘ fst <$> latticeCoords = Double.of_Z <$> (snd <$> pairs)).
  { unfold latticeCoords. assert (Hl : length pairs = length lattice) by lia.
    clear -Hl. revert lattice Hl. induction pairs as [|ij l IH]; intros [|v lattice] Hl;
      try discriminate; [reflexivity|].
    cbn [zip_with fmap list_fmap]. f_equal. apply IH. now injection Hl. }
  assert (Hrows : forall ij, ij ∈ pairs ->
                    0 <= ij.1 <= gridSize - 1 /\ 0 <= ij.2 <= gridSize - 1).
  { intros ij Hin. unfold pairs in Hin. rewrite <- (Z2Nat.id gridSize) in Hin at 1 by lia.
    pose proof (square_pairs_columns _ _ _ _ Hin) as Hc.
    pose proof (square_pairs_rows _ _ _ _ Hin) as Hr. lia. }
  unfold unit_cell. rewrite bool_decide_eq_false_2.
  2:{ intros Hnil. rewrite Hnil in Hlc. cbn in Hlc. nia. }
  rewrite Hx, Hy.
  rewrite (row_max_of_Z (gridSize - 1)), (row_max_of_Z (gridSize - 1)).
  - cbn [mbind option_bind]. exists latticeCoords. split; [reflexivity|]. split; [exact Hlc|].
    intros c r Hc Hr.
    assert (Hi : (Z.to_nat (c * gridSize + r) < length lattice)%nat) by nia.
    destruct (lookup_lt_is_Some_2 lattice _ Hi) as [v Hv].
    exists v. unfold at_. rewrite !bool_decide_eq_true_2 by nia. split; [exact Hv|].
    unfold latticeCoords. rewrite lookup_zip_with, (Hpair c r Hc Hr), Hv. reflexivity.
  - lia.
  - apply Forall_fmap, list.Forall_forall. intros ij Hin. apply Hrows in Hin. cbn. lia.
  - apply list_elem_of_fmap. exists (0, gridSize - 1). split; [reflexivity|].
    apply list_elem_of_lookup. exists (Z.to_nat (0 * gridSize + (gridSize - 1))).
    apply Hpair; lia.
  - lia.
  - apply Forall_fmap, list.Forall_forall. intros ij Hin. apply Hrows in Hin. cbn. lia.
  - apply list_elem_of_fmap. exists (gridSize - 1, 0). split; [reflexivity|].
    apply list_elem_of_lookup. exists (Z.to_nat ((gridSize - 1) * gridSize + 0)).
    apply Hpair; lia.
Qed.

Lemma BuildLattice_square_layout_witness :
  exists latticeCoords,
    BuildLattice (EMPTY_of 4) 2 0 [1; 3; 1; -6]
      (replicate 4 (S754_nan, S754_nan, S754_nan))
    = Some (latticeCoords,
            Some (Double.add (Double.of_Z (2 - 1)) (Double.of_Z 1),
                  Double.add (Double.of_Z (2 - 1)) (Double.of_Z 1))) /\
    Z.of_nat (length latticeCoords) = 2 * 2 /\
    forall c r, 0 <= c < 2 -> 0 <= r < 2 ->
      exists v, at_ [1; 3; 1; -6] (c * 2 + r) = Some v /\
                at_ latticeCoords (c * 2 + r)
                = Some (Double.of_Z c, Double.of_Z r,
                        Double.of_Z (if bool_decide (v = EMPTY_of 4) then 0 else v)).
Proof.
  apply (BuildLattice_square_layout (EMPTY_of 4) 2); [lia|lia|reflexivity|reflexivity].
Defined.
